(** * ChildProcessProxy: a remote-object proxy over a forked worker process

    A shallow embedding of
    [packages/stryker/src/child-proxy/ChildProcessProxy.ts].

    The class is event driven: its methods run on Node's single thread,
    and everything asynchronous goes through promises.  The embedding
    therefore has three layers:

    - a small store of promise cells with their reactions and the
      microtask queue (the part of the JavaScript runtime the class
      relies on);
    - the class itself: its fields as a record, each method as a function
      on that record, written in the order of the source;
    - a step function over the events the proxy can see (a method
      invoked on the proxy, [dispose()], one microtask, an event emitted
      by the worker process), and runs of it from [create]: [step] and
      [run] with the microtasks run at every turn of the event loop,
      [handle] and [play] with the events in any order.

    What lies outside the class is kept abstract.  Messages are taken
    as they are before [serialize] and after [deserialize]; the channel
    accepts whatever is sent and records it; [kill] and the logger
    record what they are asked to do.  The worker is not constrained:
    it may emit any event at any time, so what is proved of all runs
    holds of the runs a real worker can cause.  A property read on the
    proxy with a key that is no string gives [undefined] and does
    nothing else; an invocation therefore carries a method name. *)

From Stdlib Require Import ZArith Lia.
From stdpp Require Import base option list strings pretty.

Open Scope string_scope.
Open Scope list_scope.
Open Scope Z_scope.

(** ** Values, errors and the message protocol *)

(** Arguments and results are opaque to the proxy: [any] in the source.
    The embedding keeps [undefined] apart, because the class itself
    produces it, and carries everything else in serialized form. *)
Inductive Value : Type :=
| undefined
| data (serialized : string).

(** Modelled from the spec: [utils/StrykerError] is not part of the
    sources at hand; the "fatal error value" of the spec is an error
    object built from one message string, and so is [new Error(..)].
    [TypeError] is what the runtime throws on a property read of
    [undefined]. *)
Inductive JsError : Type :=
| StrykerError (msg : string)
| Error (msg : string)
| TypeError.

Inductive Settlement : Type :=
| Fulfilled (v : Value)
| Rejected (e : JsError).

(** Modelled from the spec: [./messageProtocol] is not part of the
    sources at hand; the two message unions follow the tables of the
    spec's section on external interfaces and the fields the class
    reads and writes. *)
Inductive WorkerMessage : Type :=
| Init (loggingContext : Value) (plugins : list string) (requirePath : string)
       (constructorArgs : list Value) (workingDirectory : string)
| Call (correlationId : Z) (methodName : string) (args : list Value)
| Dispose.

(** [Unidentified] stands for a message whose [kind] is none of the four
    known ones: the [default] branch of the [switch]. *)
Inductive ParentMessage : Type :=
| Initialized
| Result (correlationId : Z) (result : Value)
| Rejection (correlationId : Z) (error : string)
| DisposeCompleted
| Unidentified (kind : string).

Inductive LogLevel : Type := Trace | Debug | LogError.

(** What the class reads from its surroundings: [os.EOL], the worker's
    process id and [log.isTraceEnabled()]. *)
Record Platform : Type := {
  EOL : string;
  pid : Z;
  traceEnabled : bool
}.

(** ** Promises and the microtask queue *)

(** References into the promise store. *)
Abbreviation ref := nat (only parsing).

(** The two closures the class hands to [then] and [catch]. *)
Inductive Callback : Type :=
| SendCall (correlationId : Z) (methodName : string) (args : list Value)
| KillWorker.

Record Reaction : Type := {
  onFulfilled : option Callback;
  onRejected : option Callback;
  derived : option ref
}.

Record Promise : Type := {
  settled : option Settlement;
  reactions : list Reaction
}.

Record Job : Type := {
  handler : option Callback;
  argument : Settlement;
  target : option ref
}.

Definition pending : Promise := {| settled := None; reactions := [] |}.

(** What a method returns to its caller: a promise made on the spot
    ([Promise.resolve()], [Promise.reject(e)]) or one that lives in the
    store. *)
Inductive Returned : Type :=
| Settled (o : Settlement)
| Stored (p : ref).

(** ** The proxy *)

Record Proxy : Type := {
  (* fields of the class *)
  initTask : ref;
  disposeTask : option ref;
  currentError : option JsError;
  workerTasks : list (option ref);      (* a sparse array: [None] is a hole *)
  lastMessagesQueue : list string;
  isDisposed : bool;
  (* the worker process *)
  sent : list WorkerMessage;            (* [worker.send], oldest first *)
  exitListener : bool;                  (* [worker.on('exit', ..)] is in place *)
  killed : list Z;                      (* [kill(pid)], oldest first *)
  logged : list (LogLevel * string);
  (* the runtime *)
  heap : list Promise;
  microtasks : list Job
}.

Definition set_disposeTask (x : option ref) (s : Proxy) : Proxy :=
  {| initTask := initTask s; disposeTask := x; currentError := currentError s;
     workerTasks := workerTasks s; lastMessagesQueue := lastMessagesQueue s;
     isDisposed := isDisposed s; sent := sent s; exitListener := exitListener s;
     killed := killed s; logged := logged s; heap := heap s;
     microtasks := microtasks s |}.

Definition set_currentError (x : option JsError) (s : Proxy) : Proxy :=
  {| initTask := initTask s; disposeTask := disposeTask s; currentError := x;
     workerTasks := workerTasks s; lastMessagesQueue := lastMessagesQueue s;
     isDisposed := isDisposed s; sent := sent s; exitListener := exitListener s;
     killed := killed s; logged := logged s; heap := heap s;
     microtasks := microtasks s |}.

Definition set_workerTasks (x : list (option ref)) (s : Proxy) : Proxy :=
  {| initTask := initTask s; disposeTask := disposeTask s;
     currentError := currentError s;
     workerTasks := x; lastMessagesQueue := lastMessagesQueue s;
     isDisposed := isDisposed s; sent := sent s; exitListener := exitListener s;
     killed := killed s; logged := logged s; heap := heap s;
     microtasks := microtasks s |}.

Definition set_lastMessagesQueue (x : list string) (s : Proxy) : Proxy :=
  {| initTask := initTask s; disposeTask := disposeTask s;
     currentError := currentError s;
     workerTasks := workerTasks s; lastMessagesQueue := x;
     isDisposed := isDisposed s; sent := sent s; exitListener := exitListener s;
     killed := killed s; logged := logged s; heap := heap s;
     microtasks := microtasks s |}.

Definition set_isDisposed (x : bool) (s : Proxy) : Proxy :=
  {| initTask := initTask s; disposeTask := disposeTask s;
     currentError := currentError s;
     workerTasks := workerTasks s; lastMessagesQueue := lastMessagesQueue s;
     isDisposed := x; sent := sent s; exitListener := exitListener s;
     killed := killed s; logged := logged s; heap := heap s;
     microtasks := microtasks s |}.

Definition set_sent (x : list WorkerMessage) (s : Proxy) : Proxy :=
  {| initTask := initTask s; disposeTask := disposeTask s;
     currentError := currentError s;
     workerTasks := workerTasks s; lastMessagesQueue := lastMessagesQueue s;
     isDisposed := isDisposed s; sent := x; exitListener := exitListener s;
     killed := killed s; logged := logged s; heap := heap s;
     microtasks := microtasks s |}.

Definition set_exitListener (x : bool) (s : Proxy) : Proxy :=
  {| initTask := initTask s; disposeTask := disposeTask s;
     currentError := currentError s;
     workerTasks := workerTasks s; lastMessagesQueue := lastMessagesQueue s;
     isDisposed := isDisposed s; sent := sent s; exitListener := x;
     killed := killed s; logged := logged s; heap := heap s;
     microtasks := microtasks s |}.

Definition set_killed (x : list Z) (s : Proxy) : Proxy :=
  {| initTask := initTask s; disposeTask := disposeTask s;
     currentError := currentError s;
     workerTasks := workerTasks s; lastMessagesQueue := lastMessagesQueue s;
     isDisposed := isDisposed s; sent := sent s; exitListener := exitListener s;
     killed := x; logged := logged s; heap := heap s;
     microtasks := microtasks s |}.

Definition set_logged (x : list (LogLevel * string)) (s : Proxy) : Proxy :=
  {| initTask := initTask s; disposeTask := disposeTask s;
     currentError := currentError s;
     workerTasks := workerTasks s; lastMessagesQueue := lastMessagesQueue s;
     isDisposed := isDisposed s; sent := sent s; exitListener := exitListener s;
     killed := killed s; logged := x; heap := heap s;
     microtasks := microtasks s |}.

Definition set_heap (x : list Promise) (s : Proxy) : Proxy :=
  {| initTask := initTask s; disposeTask := disposeTask s;
     currentError := currentError s;
     workerTasks := workerTasks s; lastMessagesQueue := lastMessagesQueue s;
     isDisposed := isDisposed s; sent := sent s; exitListener := exitListener s;
     killed := killed s; logged := logged s; heap := x;
     microtasks := microtasks s |}.

Definition set_microtasks (x : list Job) (s : Proxy) : Proxy :=
  {| initTask := initTask s; disposeTask := disposeTask s;
     currentError := currentError s;
     workerTasks := workerTasks s; lastMessagesQueue := lastMessagesQueue s;
     isDisposed := isDisposed s; sent := sent s; exitListener := exitListener s;
     killed := killed s; logged := logged s; heap := heap s;
     microtasks := x |}.

(** *** The runtime: settling, [then], and running one job *)

Definition reaction_job (o : Settlement) (r : Reaction) : Job :=
  {| handler := match o with
                | Fulfilled _ => onFulfilled r
                | Rejected _ => onRejected r
                end;
     argument := o;
     target := derived r |}.

(** Settling a promise that is still pending fixes its outcome and
    queues one job per reaction, in the order they were attached; on a
    promise that is settled already it does nothing. *)
Definition settle (p : ref) (o : Settlement) (s : Proxy) : Proxy :=
  match heap s !! p with
  | Some {| settled := None; reactions := rs |} =>
      set_microtasks (microtasks s ++ map (reaction_job o) rs)
        (set_heap (<[p := {| settled := Some o; reactions := [] |}]> (heap s)) s)
  | _ => s
  end.

(** [promise.then(..)] / [promise.catch(..)]: the reaction waits on a
    pending promise and is queued at once on a settled one. *)
Definition attach (p : ref) (r : Reaction) (s : Proxy) : Proxy :=
  match heap s !! p with
  | Some {| settled := None; reactions := rs |} =>
      set_heap (<[p := {| settled := None; reactions := rs ++ [r] |}]> (heap s)) s
  | Some {| settled := Some o; reactions := _ |} =>
      set_microtasks (microtasks s ++ [reaction_job o r]) s
  | None => s
  end.

Definition new_promise (s : Proxy) : ref * Proxy :=
  (length (heap s), set_heap (heap s ++ [pending]) s).

(** Modelled from the spec: [utils/Task] is not part of the sources at
    hand.  A task is the spec's completion signal: "a value that will
    become available exactly once, either as a success or a failure",
    with [resolve] and [reject] to settle it, [promise] to wait for it
    and [isResolved] telling whether it has been settled. *)
Definition new_Task (s : Proxy) : ref * Proxy := new_promise s.

Definition Task_resolve (t : ref) (v : Value) (s : Proxy) : Proxy :=
  settle t (Fulfilled v) s.

Definition Task_reject (t : ref) (e : JsError) (s : Proxy) : Proxy :=
  settle t (Rejected e) s.

Definition is_settled (h : list Promise) (p : ref) : bool :=
  match h !! p with
  | Some {| settled := Some _; reactions := _ |} => true
  | _ => false
  end.

Definition Task_isResolved (t : ref) (s : Proxy) : bool := is_settled (heap s) t.

(** *** Methods of the class *)

Definition send (m : WorkerMessage) (s : Proxy) : Proxy :=
  set_sent (sent s ++ [m]) s.

Definition log (l : LogLevel) (text : string) (s : Proxy) : Proxy :=
  set_logged (logged s ++ [(l, text)]) s.

(** Modelled from the spec: [kill] of [utils/objectUtils] is not part of
    the sources at hand; it "forcibly terminates the child process by
    process id".  The embedding records the request. *)
Definition kill (p : Z) (s : Proxy) : Proxy :=
  set_killed (killed s ++ [p]) s.

(** The constructor, lines 29-46. *)
Definition create (requirePath : string) (loggingContext : Value)
    (plugins : list string) (workingDirectory : string)
    (constructorParams : list Value) : Proxy :=
  {| initTask := 0%nat;
     disposeTask := None;
     currentError := None;
     workerTasks := [];
     lastMessagesQueue := [];
     isDisposed := false;
     sent := [Init loggingContext plugins requirePath constructorParams
                workingDirectory];
     exitListener := true;
     killed := [];
     logged := [];
     heap := [pending];
     microtasks := [] |}.

(** [forward(methodName)(...args)], lines 82-100. *)
Definition forward (methodName : string) (args : list Value) (s : Proxy)
  : Proxy * Returned :=
  match currentError s with
  | Some e => (s, Settled (Rejected e))
  | None =>
      let '(workerTask, s) := new_Task s in
      let s := set_workerTasks (workerTasks s ++ [Some workerTask]) s in
      let correlationId := Z.of_nat (length (workerTasks s)) - 1 in
      let s := attach (initTask s)
                 {| onFulfilled := Some (SendCall correlationId methodName args);
                    onRejected := None;
                    derived := None |} s in
      (s, Stored workerTask)
  end.

(** [this.workerTasks[i]]: [None] is [undefined], which an index out of
    range, a negative index and a hole all give. *)
Definition task_at (tasks : list (option ref)) (i : Z) : option ref :=
  if i <? 0 then None else mjoin (tasks !! Z.to_nat i).

(** [delete this.workerTasks[i]]: leaves a hole, the length stays. *)
Definition delete_at (i : Z) (tasks : list (option ref)) : list (option ref) :=
  if i <? 0 then tasks else <[Z.to_nat i := None]> tasks.

(** What a listener or a run ends in: the next state of the proxy, or an
    exception that left a listener together with the state it left
    behind. *)
Definition Thrown : Type := JsError * Proxy.

(** The listener of [listenForMessages], lines 103-126. *)
Definition onMessage (message : ParentMessage) (s : Proxy) : Thrown + Proxy :=
  match message with
  | Initialized => inr (Task_resolve (initTask s) undefined s)
  | Result correlationId result =>
      match task_at (workerTasks s) correlationId with
      | Some t =>
          let s := Task_resolve t result s in
          inr (set_workerTasks (delete_at correlationId (workerTasks s)) s)
      | None => inl (TypeError, s)
      end
  | Rejection correlationId error =>
      match task_at (workerTasks s) correlationId with
      | Some t =>
          let s := Task_reject t (Error error) s in
          inr (set_workerTasks (delete_at correlationId (workerTasks s)) s)
      | None => inl (TypeError, s)
      end
  | DisposeCompleted =>
      match disposeTask s with
      | Some t => inr (Task_resolve t undefined s)
      | None => inr s
      end
  | Unidentified _ =>
      inr (log LogError "Received unidentified message [object Object]" s)
  end.

(** [handleData] of [listenToStdoutAndStderr], lines 131-141. *)
Definition handleData (pf : Platform) (msg : string) (s : Proxy) : Proxy :=
  let q := lastMessagesQueue s ++ [msg] in
  let q := if (10 <? length q)%nat then tail q else q in
  let s := set_lastMessagesQueue q s in
  if traceEnabled pf then log Trace msg s else s.

Definition tab : string := String (Ascii.ascii_of_nat 9) EmptyString.

Fixpoint join (sep : string) (l : list string) : string :=
  match l with
  | [] => ""
  | [x] => x
  | x :: l => x +:+ sep +:+ join sep l
  end.

(** [stdoutAndStderr], lines 160-167. *)
Definition stdoutAndStderr (pf : Platform) (messages : list string) : string :=
  if (0 <? length messages)%nat
  then "Last part of stdout and stderr was: " +:+ EOL pf +:+
       join (EOL pf) (map (fun msg => tab +:+ msg) messages)
  else "Stdout and stderr were empty.".

(** [`${code}`] for [code : number | null]. *)
Definition show_code (code : option Z) : string :=
  match code with
  | Some n => pretty n
  | None => "null"
  end.

(** [signal || 'without signal']: [null] and the empty string are falsy. *)
Definition signal_or (signal : option string) (default : string) : string :=
  match signal with
  | Some "" | None => default
  | Some sg => sg
  end.

(** The entries of the sparse array that [filter] visits. *)
Definition entries (tasks : list (option ref)) : list ref := omap id tasks.

(** [handleUnexpectedExit], lines 152-158. *)
Definition handleUnexpectedExit (pf : Platform) (code : option Z)
    (signal : option string) (s : Proxy) : Proxy :=
  let s := log Debug
             ("Child process exited unexpectedly with exit code " +:+
              show_code code +:+ " (" +:+ signal_or signal "without signal" +:+
              "). " +:+ stdoutAndStderr pf (lastMessagesQueue s)) s in
  let e := StrykerError
             ("Child process exited unexpectedly (code " +:+ show_code code +:+ ")") in
  let s := set_currentError (Some e) s in
  let unresolved :=
    List.filter (fun task => negb (Task_isResolved task s)) (entries (workerTasks s)) in
  let s := foldl (fun s task => Task_reject task e s) s unresolved in
  set_isDisposed true s.

(** [killWorker] of [dispose], lines 177-180. *)
Definition killWorker (pf : Platform) (s : Proxy) : Proxy :=
  set_isDisposed true (kill (pid pf) s).

(** [dispose()], lines 170-185. *)
Definition dispose (s : Proxy) : Proxy * Returned :=
  let s := set_exitListener false s in
  if isDisposed s then (s, Settled (Fulfilled undefined))
  else
    let '(t, s) := new_Task s in
    let s := set_disposeTask (Some t) s in
    let s := send Dispose s in
    let '(p1, s) := new_promise s in
    let s := attach t {| onFulfilled := Some KillWorker; onRejected := None;
                         derived := Some p1 |} s in
    let '(p2, s) := new_promise s in
    let s := attach p1 {| onFulfilled := None; onRejected := Some KillWorker;
                          derived := Some p2 |} s in
    (s, Stored p2).

(** *** Microtasks *)

Definition run_callback (pf : Platform) (cb : Callback) (s : Proxy) : Proxy :=
  match cb with
  | SendCall correlationId methodName args =>
      send (Call correlationId methodName args) s
  | KillWorker => killWorker pf s
  end.

Definition settle_target (d : option ref) (o : Settlement) (s : Proxy) : Proxy :=
  match d with
  | Some p => settle p o s
  | None => s
  end.

(** One reaction job: with a handler, the handler runs and the derived
    promise is fulfilled with what it returns (both closures return
    [undefined]); without one, the outcome passes through. *)
Definition run_job (pf : Platform) (j : Job) (s : Proxy) : Proxy :=
  match handler j with
  | Some cb => settle_target (target j) (Fulfilled undefined) (run_callback pf cb s)
  | None => settle_target (target j) (argument j) s
  end.

Definition tick (pf : Platform) (s : Proxy) : Proxy :=
  match microtasks s with
  | [] => s
  | j :: q => run_job pf j (set_microtasks q s)
  end.

(** Jobs still to come: those queued and those waiting on a pending
    promise.  Every tick uses one up, so this many ticks empty the queue. *)
Definition backlog (s : Proxy) : nat :=
  (length (microtasks s) + sum_list (map (fun p => length (reactions p)) (heap s)))%nat.

Fixpoint drain_n (pf : Platform) (n : nat) (s : Proxy) : Proxy :=
  match n with
  | O => s
  | S n =>
      match microtasks s with
      | [] => s
      | _ :: _ => drain_n pf n (tick pf s)
      end
  end.

Definition drain (pf : Platform) (s : Proxy) : Proxy :=
  drain_n pf (backlog s) s.

(** ** Events and runs *)

Inductive WorkerEvent : Type :=
| message (m : ParentMessage)
| stdio (chunk : string)
| exit (code : option Z) (signal : option string).

(** What can happen to a proxy: its owner invokes a method on it or
    disposes of it, the runtime runs one microtask, or the worker emits an
    event. *)
Inductive Event : Type :=
| Invoke (methodName : string) (args : list Value)
| CallDispose
| Microtask
| Emit (e : WorkerEvent).

Definition listener (pf : Platform) (e : WorkerEvent) (s : Proxy) : Thrown + Proxy :=
  match e with
  | message m => onMessage m s
  | stdio chunk => inr (handleData pf chunk s)
  | exit code signal =>
      inr (if exitListener s then handleUnexpectedExit pf code signal s else s)
  end.

(** One event, on the schedule of a worker whose events come one to a
    turn of the event loop and of an owner who acts between the turns:
    the microtask queue is empty when a listener starts and is emptied
    again when it has returned.  [handle], further down, fixes no
    schedule. *)
Definition step (pf : Platform) (s : Proxy) (ev : Event) : Thrown + Proxy :=
  match ev with
  | Invoke methodName args => inr (fst (forward methodName args s))
  | CallDispose => inr (fst (dispose s))
  | Microtask => inr (tick pf s)
  | Emit e =>
      match listener pf e (drain pf s) with
      | inr s => inr (drain pf s)
      | inl err => inl err
      end
  end.

Fixpoint run (pf : Platform) (s : Proxy) (evs : list Event) : Thrown + Proxy :=
  match evs with
  | [] => inr s
  | ev :: evs =>
      match step pf s ev with
      | inr s => run pf s evs
      | inl err => inl err
      end
  end.

(** ** Notions the statements are written in *)

(** The proxies that exist: what a run from [create] can reach. *)
Definition reachable (pf : Platform) (s : Proxy) : Prop :=
  ∃ requirePath loggingContext plugins workingDirectory constructorParams evs,
    run pf (create requirePath loggingContext plugins workingDirectory
              constructorParams) evs = inr s.

(** The outcome of a promise of the store: [Some None] while pending. *)
Definition outcome (s : Proxy) (p : ref) : option (option Settlement) :=
  settled <$> heap s !! p.

(** Where a run ends, whether it ended in an exception or not. *)
Definition final (pf : Platform) (s : Proxy) (evs : list Event) : Proxy :=
  match run pf s evs with
  | inr s' => s'
  | inl (_, s') => s'
  end.

Definition message_call (m : WorkerMessage) : option Z :=
  match m with
  | Call c _ _ => Some c
  | _ => None
  end.

Definition callback_call (cb : option Callback) : option Z :=
  match cb with
  | Some (SendCall c _ _) => Some c
  | _ => None
  end.

Definition job_call (j : Job) : option Z := callback_call (handler j).

Definition reaction_call (r : Reaction) : option Z := callback_call (onFulfilled r).

(** The reactions waiting for the init task. *)
Definition waiting (s : Proxy) : list Reaction :=
  match heap s !! initTask s with
  | Some c => reactions c
  | None => []
  end.

(** The correlation ids handed out so far, wherever their [Call] is by
    now: sent, queued as a microtask, or waiting for the init task. *)
Definition scheduled (s : Proxy) : list Z :=
  omap message_call (sent s) ++ omap job_call (microtasks s) ++
  omap reaction_call (waiting s).

Definition is_Init (m : WorkerMessage) : bool :=
  match m with
  | Init _ _ _ _ _ => true
  | _ => false
  end.

Definition is_Call (m : WorkerMessage) : bool :=
  match m with
  | Call _ _ _ => true
  | _ => false
  end.

Definition is_Dispose (m : WorkerMessage) : bool :=
  match m with
  | Dispose => true
  | _ => false
  end.

Definition is_CallDispose (ev : Event) : bool :=
  match ev with
  | CallDispose => true
  | _ => false
  end.

(** *** The parts of the methods, named *)

Definition call_reaction (c : Z) (m : string) (a : list Value) : Reaction :=
  {| onFulfilled := Some (SendCall c m a); onRejected := None; derived := None |}.

Definition then_kill (p1 : ref) : Reaction :=
  {| onFulfilled := Some KillWorker; onRejected := None; derived := Some p1 |}.

Definition catch_kill (p2 : ref) : Reaction :=
  {| onFulfilled := None; onRejected := Some KillWorker; derived := Some p2 |}.

(** The [Call] a queued job will send. *)
Definition job_message (j : Job) : option WorkerMessage :=
  match handler j with
  | Some (SendCall c m a) => Some (Call c m a)
  | _ => None
  end.

(** What settling does to the store. *)
Definition settle_heap (p : ref) (o : Settlement) (h : list Promise) : list Promise :=
  match h !! p with
  | Some {| settled := None; reactions := _ |} =>
      <[p := {| settled := Some o; reactions := [] |}]> h
  | _ => h
  end.

(** The outcome of [task.promise.then(killWorker)]: the handler's
    [undefined] after a fulfilment, the same rejection otherwise. *)
Definition relay (o : Settlement) : Settlement :=
  match o with
  | Fulfilled _ => Fulfilled undefined
  | Rejected e => Rejected e
  end.

Definition done_with (o : Settlement) : Promise :=
  {| settled := Some o; reactions := [] |}.

(** The parts of [handleUnexpectedExit]: the error it caches, the line
    it logs, the tasks it rejects and what that does to the store. *)
Definition crash_error (code : option Z) : JsError :=
  StrykerError ("Child process exited unexpectedly (code " +:+ show_code code +:+ ")").

Definition crash_report (pf : Platform) (code : option Z) (signal : option string)
    (messages : list string) : string :=
  "Child process exited unexpectedly with exit code " +:+ show_code code +:+
  " (" +:+ signal_or signal "without signal" +:+ "). " +:+
  stdoutAndStderr pf messages.

Definition unresolved (s : Proxy) : list ref :=
  List.filter (fun task => negb (is_settled (heap s) task)) (entries (workerTasks s)).

Definition reject_all (e : JsError) (l : list ref) (h : list Promise) : list Promise :=
  foldl (fun h r => settle_heap r (Rejected e) h) h l.

(** The diagnostic buffer after one more chunk: what [handleData] leaves
    in [lastMessagesQueue]. *)
Definition remember (msg : string) (q : list string) : list string :=
  if (10 <? length (q ++ [msg]))%nat then tail (q ++ [msg]) else q ++ [msg].

(** The proxy once the calls in its queue have been sent. *)
Definition calm (s : Proxy) : Proxy :=
  set_microtasks [] (set_sent (sent s ++ omap job_message (microtasks s)) s).

(** *** The invariant *)

Definition is_call_reaction (r : Reaction) : Prop :=
  (∃ c m a, onFulfilled r = Some (SendCall c m a)) ∧ derived r = None.

Definition is_call_job (j : Job) : Prop :=
  (∃ c m a, handler j = Some (SendCall c m a)) ∧ target j = None.

(** A disposal under way: the dispose task [t], the promise [p1] of
    [.then(killWorker)] and the promise [p2] of [.catch(killWorker)],
    which is what [dispose()] returned. *)
Definition chain (h : list Promise) (t p1 p2 : ref) : Prop :=
  h !! t = Some {| settled := None; reactions := [then_kill p1] |} ∧
  h !! p1 = Some {| settled := None; reactions := [catch_kill p2] |} ∧
  h !! p2 = Some pending.

Definition disposing (s : Proxy) (t p1 p2 : ref) : Prop :=
  chain (heap s) t p1 p2 ∧ (0 < p2)%nat ∧ Some p2 ∉ workerTasks s.

(** A promise nothing inside the class waits for: those of the worker
    tasks. *)
Definition quiet (h : list Promise) (p : ref) : Prop :=
  ∃ c, h !! p = Some c ∧ reactions c = [].

Definition dispose_phase (pf : Platform) (s : Proxy) : Prop :=
  match disposeTask s with
  | None => killed s = []
  | Some t =>
      exitListener s = false ∧
      if isDisposed s
      then killed s = [pid pf] ∧ is_settled (heap s) t = true
      else killed s = [] ∧ ∃ p1 p2, disposing s t p1 p2
  end.

(** What holds of a proxy between two events. *)
Record inv (pf : Platform) (s : Proxy) : Prop := {
  inv_init : initTask s = 0%nat;
  inv_cell0 : ∃ c0, heap s !! 0%nat = Some c0 ∧
                Forall is_call_reaction (reactions c0) ∧
                (∀ o, settled c0 = Some o → reactions c0 = [] ∧ ∃ v, o = Fulfilled v);
  inv_queue : Forall is_call_job (microtasks s);
  inv_tasks : ∀ r, Some r ∈ workerTasks s → (0 < r)%nat ∧ quiet (heap s) r;
  inv_dispose : dispose_phase pf s;
  inv_ids : scheduled s = seqZ 0 (Z.of_nat (length (workerTasks s)));
  inv_gate : is_settled (heap s) 0%nat = false →
             microtasks s = [] ∧ omap message_call (sent s) = []
}.

(** *** Which event settles which promise, and what a step leaves alone *)

(** [settles s ev p o]: event [ev], arriving in state [s], settles the
    promise [p] with [o], should [p] still be pending. *)
Inductive settles (s : Proxy) : Event → ref → Settlement → Prop :=
| settles_init :
    settles s (Emit (message Initialized)) 0%nat (Fulfilled undefined)
| settles_result c v p :
    task_at (workerTasks s) c = Some p →
    settles s (Emit (message (Result c v))) p (Fulfilled v)
| settles_rejection c err p :
    task_at (workerTasks s) c = Some p →
    settles s (Emit (message (Rejection c err))) p (Rejected (Error err))
| settles_exit code signal p :
    exitListener s = true → Some p ∈ workerTasks s →
    settles s (Emit (exit code signal)) p (Rejected (crash_error code))
| settles_dispose t p1 p2 p :
    disposeTask s = Some t → isDisposed s = false → disposing s t p1 p2 →
    p ∈ [t; p1; p2] →
    settles s (Emit (message DisposeCompleted)) p (Fulfilled undefined).

(** What one step does to the fields the statements below look at. *)
Definition framed (ev : Event) (s s' : Proxy) : Prop :=
  (ev ≠ CallDispose → disposeTask s' = disposeTask s) ∧
  (∀ r, Some r ∈ workerTasks s' → Some r ∈ workerTasks s ∨ r = length (heap s)) ∧
  (length (workerTasks s) ≤ length (workerTasks s'))%nat ∧
  (length (heap s) ≤ length (heap s'))%nat ∧
  (∃ l, sent s' = sent s ++ l ∧
        (Forall (fun m => is_Call m = true) l ∨
         (ev = CallDispose ∧ isDisposed s = false ∧ l = [Dispose]))) ∧
  (isDisposed s = true → isDisposed s' = true) ∧
  lastMessagesQueue s' =
    match ev with
    | Emit (stdio chunk) => remember chunk (lastMessagesQueue s)
    | _ => lastMessagesQueue s
    end ∧
  (∀ e, currentError s = Some e → ∃ e', currentError s' = Some e').

(** The promises the invocations of a run returned from the store, that
    is, the calls that were forwarded to the worker. *)
Definition forwarded (ev : Event) (s : Proxy) : list ref :=
  match ev with
  | Invoke methodName args =>
      match snd (forward methodName args s) with
      | Stored p => [p]
      | Settled _ => []
      end
  | _ => []
  end.

Fixpoint calls (pf : Platform) (s : Proxy) (evs : list Event) : list ref :=
  match evs with
  | [] => []
  | ev :: evs =>
      match step pf s ev with
      | inr s' => forwarded ev s ++ calls pf s' evs
      | inl _ => []
      end
  end.

(** Every one of these calls has its record in the table or is settled. *)
Definition accounted (s : Proxy) (ps : list ref) : Prop :=
  ∀ p, p ∈ ps → Some p ∈ workerTasks s ∨ is_settled (heap s) p = true.

(** *** The diagnostic output of a run *)

(** The chunks the worker wrote to its standard output and error during
    a run, oldest first, and the last [n] elements of a list. *)
Definition chunk_of (ev : Event) : option string :=
  match ev with
  | Emit (stdio chunk) => Some chunk
  | _ => None
  end.

Definition chunks (evs : list Event) : list string := omap chunk_of evs.

Definition last_n {A : Type} (n : nat) (l : list A) : list A :=
  drop (length l - n) l.

(** [occurs sub s]: the text [sub] occurs somewhere in [s]. *)
Fixpoint starts_with (sub s : string) : bool :=
  match sub, s with
  | EmptyString, _ => true
  | String a sub, String b s => if Ascii.eqb a b then starts_with sub s else false
  | String _ _, EmptyString => false
  end.

Fixpoint occurs (sub s : string) : bool :=
  starts_with sub s ||
  match s with
  | EmptyString => false
  | String _ s => occurs sub s
  end.

(** *** A concrete platform, a concrete proxy and some runs of it *)

Definition newline : string := String (Ascii.ascii_of_nat 10) EmptyString.

Definition linux : Platform := {| EOL := newline; pid := 4242; traceEnabled := false |}.

Definition fresh : Proxy :=
  create "./JestTestRunner" undefined ["stryker-jest-runner"] "/tmp/project" [data "{}"].

Definition before_init : list Event :=
  [Invoke "init" []; Emit (stdio "booting"); Invoke "run" [data "{}"]; Microtask].

Definition two_calls : list Event :=
  [Emit (message Initialized); Invoke "init" []; Invoke "run" [data "{}"];
   Emit (message (Result 0 undefined))].

Definition replies_twice : list Event :=
  [Emit (message Initialized); Invoke "run" [data "{}"];
   Emit (message (Result 0 (data "ok"))); Emit (message (Result 0 (data "ok")))].

Definition one_pending_call : list Event := [Invoke "run" [data "{}"]].

Definition crashed : list Event :=
  [Invoke "run" [data "{}"]; Emit (stdio "Segmentation fault");
   Emit (exit (Some 139) (Some "SIGSEGV"))].

Definition exits_once : list Event :=
  [Invoke "run" [data "{}"]; Emit (exit (Some 1) None)].

Definition exits_twice : list Event :=
  exits_once ++ [Emit (exit (Some 2) (Some "SIGKILL"))].

Definition unacknowledged : list Event :=
  [CallDispose; Emit (exit (Some 0) None); Emit (stdio "bye"); Microtask].

Definition disposed_twice : list Event := [CallDispose; CallDispose].

Definition disposed_cleanly : list Event :=
  [Emit (message Initialized); CallDispose; Emit (message DisposeCompleted)].

(** *** Requests, the log and replies *)

(** The [Call] a reaction waiting for the init task will send. *)
Definition reaction_message (r : Reaction) : option WorkerMessage :=
  match onFulfilled r with
  | Some (SendCall c m a) => Some (Call c m a)
  | _ => None
  end.

(** The [Call] messages of a proxy, wherever they are by now: on the
    channel, queued as a microtask, or waiting for the init task. *)
Definition requests (s : Proxy) : list WorkerMessage :=
  List.filter is_Call (sent s) ++ omap job_message (microtasks s) ++
  omap reaction_message (waiting s).

(** The [Call] an event asks for: that of an invocation on a proxy that
    has no error cached, with the index [push] gives it. *)
Definition request_of (ev : Event) (s : Proxy) : list WorkerMessage :=
  match ev with
  | Invoke methodName args =>
      match currentError s with
      | None => [Call (Z.of_nat (length (workerTasks s))) methodName args]
      | Some _ => []
      end
  | _ => []
  end.

Fixpoint invocations (pf : Platform) (s : Proxy) (evs : list Event)
  : list WorkerMessage :=
  match evs with
  | [] => []
  | ev :: evs =>
      match step pf s ev with
      | inr s' => request_of ev s ++ invocations pf s' evs
      | inl _ => []
      end
  end.

(** The lines an event adds to the log. *)
Definition log_of (pf : Platform) (ev : Event) (s : Proxy) : list (LogLevel * string) :=
  match ev with
  | Emit (stdio chunk) => if traceEnabled pf then [(Trace, chunk)] else []
  | Emit (message (Unidentified _)) =>
      [(LogError, "Received unidentified message [object Object]")]
  | Emit (exit code signal) =>
      if exitListener s
      then [(Debug, crash_report pf code signal (lastMessagesQueue s))]
      else []
  | _ => []
  end.

Fixpoint journal (pf : Platform) (s : Proxy) (evs : list Event)
  : list (LogLevel * string) :=
  match evs with
  | [] => []
  | ev :: evs =>
      match step pf s ev with
      | inr s' => log_of pf ev s ++ journal pf s' evs
      | inl _ => []
      end
  end.

Definition is_level (l : LogLevel) (entry : LogLevel * string) : bool :=
  match l, fst entry with
  | Trace, Trace | Debug, Debug | LogError, LogError => true
  | _, _ => false
  end.

(** The lines of a log at one level. *)
Definition at_level (l : LogLevel) (lg : list (LogLevel * string)) : list string :=
  map snd (List.filter (is_level l) lg).

Definition is_Unidentified (ev : Event) : bool :=
  match ev with
  | Emit (message (Unidentified _)) => true
  | _ => false
  end.

Definition is_exit (ev : Event) : bool :=
  match ev with
  | Emit (exit _ _) => true
  | _ => false
  end.

(** [replies_to c ev]: the event is a [Result] or a [Rejection] that
    carries the correlation id [c]. *)
Definition replies_to (c : Z) (ev : Event) : bool :=
  match ev with
  | Emit (message (Result c' _)) | Emit (message (Rejection c' _)) => c' =? c
  | _ => false
  end.

(** The records of the table point to ever later promises of the store. *)
Definition increasing (tasks : list (option ref)) : Prop :=
  ∀ (i j : nat) (r r' : ref), (i < j)%nat →
    tasks !! i = Some (Some r) → tasks !! j = Some (Some r') → (r < r')%nat.

(** What one step does to the table, the exit listener, the cached
    error, the log and the requests. *)
Definition effects (pf : Platform) (ev : Event) (s s' : Proxy) : Prop :=
  (workerTasks s' = workerTasks s ∨
   (∃ m a, ev = Invoke m a ∧ currentError s = None ∧
           workerTasks s' = workerTasks s ++ [Some (length (heap s))]) ∨
   (∃ c t, replies_to c ev = true ∧ task_at (workerTasks s) c = Some t ∧
           workerTasks s' = delete_at c (workerTasks s))) ∧
  exitListener s' = (if is_CallDispose ev then false else exitListener s) ∧
  currentError s' =
    match ev with
    | Emit (exit code _) =>
        if exitListener s then Some (crash_error code) else currentError s
    | _ => currentError s
    end ∧
  logged s' = logged s ++ log_of pf ev s ∧
  requests s' = requests s ++ request_of ev s.

(** The error a run leaves cached: that of the latest exit of the worker
    the proxy was still listening for. *)
Fixpoint latest_crash (listening : bool) (e : option JsError) (evs : list Event)
  : option JsError :=
  match evs with
  | [] => e
  | CallDispose :: evs => latest_crash false e evs
  | Emit (exit code _) :: evs =>
      latest_crash listening (if listening then Some (crash_error code) else e) evs
  | _ :: evs => latest_crash listening e evs
  end.

(** What a reply carries: the correlation id and the outcome it brings. *)
Definition answer (m : ParentMessage) : option (Z * Settlement) :=
  match m with
  | Result c v => Some (c, Fulfilled v)
  | Rejection c err => Some (c, Rejected (Error err))
  | _ => None
  end.

(** *** More runs of the concrete proxy *)

Definition chatty : Platform := {| EOL := newline; pid := 4242; traceEnabled := true |}.

Definition noisy : list Event :=
  [Emit (stdio "a"); Invoke "run" []; Emit (message (Unidentified "ping"));
   Emit (stdio "b"); Emit (exit (Some 1) None)].

Definition three_calls : list Event :=
  [Invoke "init" []; Emit (message Initialized); Invoke "run" [data "1"];
   Invoke "run" [data "2"]; Emit (message (Rejection 1 "boom"))].

Definition twelve_chunks : list Event :=
  map (fun c => Emit (stdio c))
    ["1"; "2"; "3"; "4"; "5"; "6"; "7"; "8"; "9"; "10"; "11"; "12"].

Definition dispose_then_exit : list Event :=
  [Invoke "run" []; CallDispose; Emit (exit (Some 1) None)].

(** *** Events under any scheduling *)

(** [step] lets an event of the worker find and leave an empty microtask
    queue.  The runtime promises less: the listeners of messages that
    were read together run back to back, before any promise job, and the
    promise jobs of the caller, which may invoke methods and dispose,
    run between those of the class.  [handle] is one event with nothing
    run around it (a listener alone, a call of the caller alone, one
    microtask alone), and [play] is a run of such events in any order.
    Every run of [step]s is one of them. *)
Definition handle (pf : Platform) (s : Proxy) (ev : Event) : Thrown + Proxy :=
  match ev with
  | Invoke methodName args => inr (fst (forward methodName args s))
  | CallDispose => inr (fst (dispose s))
  | Microtask => inr (tick pf s)
  | Emit e => listener pf e s
  end.

Fixpoint play (pf : Platform) (s : Proxy) (evs : list Event) : Thrown + Proxy :=
  match evs with
  | [] => inr s
  | ev :: evs =>
      match handle pf s ev with
      | inr s => play pf s evs
      | inl err => inl err
      end
  end.

(** The proxies that exist under any scheduling. *)
Definition possible (pf : Platform) (s : Proxy) : Prop :=
  ∃ requirePath loggingContext plugins workingDirectory constructorParams evs,
    play pf (create requirePath loggingContext plugins workingDirectory
               constructorParams) evs = inr s.

Definition reached (pf : Platform) (s : Proxy) (evs : list Event) : Proxy :=
  match play pf s evs with
  | inr s' => s'
  | inl (_, s') => s'
  end.

(** *** Kills done and kills to come *)

Definition is_kill (cb : option Callback) : bool :=
  match cb with
  | Some KillWorker => true
  | _ => false
  end.

(** The queued jobs that will kill the worker, and the reactions that
    will once their promise is fulfilled. *)
Definition kill_jobs (q : list Job) : nat :=
  length (List.filter (fun j => is_kill (handler j)) q).

Definition kill_reactions_of (c : Promise) : nat :=
  length (List.filter (fun r => is_kill (onFulfilled r)) (reactions c)).

Definition kill_reactions (h : list Promise) : nat :=
  sum_list (map kill_reactions_of h).

Definition pending_kills (s : Proxy) : nat :=
  (kill_jobs (microtasks s) + kill_reactions (heap s))%nat.

(** The Dispose messages sent. *)
Definition disposals (s : Proxy) : nat := length (List.filter is_Dispose (sent s)).

(** *** What holds of a proxy under any scheduling *)

(** The store and the queue: the tasks of the class are promises of the
    store, those of the calls have no reaction inside the class, every
    queued job carries a fulfilment, and nothing refers to a promise
    that does not exist yet. *)
Record tidy (s : Proxy) : Prop := {
  ti_init : (initTask s < length (heap s))%nat;
  ti_tasks : ∀ r, Some r ∈ workerTasks s →
               (r < length (heap s))%nat ∧ r ≠ initTask s ∧ quiet (heap s) r;
  ti_jobs : ∀ j, j ∈ microtasks s →
              (∃ v, argument j = Fulfilled v) ∧
              ∀ q, target j = Some q → (q < length (heap s))%nat;
  ti_reactions : ∀ k c r q, heap s !! k = Some c → r ∈ reactions c →
                   derived r = Some q → (q < length (heap s))%nat;
  ti_ready : ∀ c o, heap s !! initTask s = Some c → settled c = Some o →
               ∃ v, o = Fulfilled v
}.

(** The flags and the counts: kills done and kills to come are covered
    by the Dispose messages sent, none of which was sent while the exit
    listener was in place or after a crash; the handle is marked
    disposed exactly when it has crashed or has killed. *)
Record measured (pf : Platform) (s : Proxy) : Prop := {
  me_kills : (length (killed s) + pending_kills s ≤ disposals s)%nat;
  me_listener : exitListener s = true → disposals s = 0%nat;
  me_error : is_Some (currentError s) → disposals s = 0%nat ∧ isDisposed s = true;
  me_disposed : isDisposed s = true ↔ is_Some (currentError s) ∨ killed s ≠ [];
  me_pid : Forall (fun p => p = pid pf) (killed s)
}.

(** [unmoved s s']: the flags of the proxy, what it sent and what it
    killed are the same in both states, and so are the kills to come. *)
Definition unmoved (s s' : Proxy) : Prop :=
  killed s' = killed s ∧ sent s' = sent s ∧ exitListener s' = exitListener s ∧
  currentError s' = currentError s ∧ isDisposed s' = isDisposed s ∧
  pending_kills s' = pending_kills s.

(** *** A disposal, step by step *)

(** [private s q]: no listener and no method settles [q] directly. *)
Definition shielded (s : Proxy) (q : ref) : Prop :=
  q ≠ initTask s ∧ (Some q ∉ workerTasks s) ∧ (q < length (heap s))%nat.

Definition private (s : Proxy) (q : ref) : Prop :=
  shielded s q ∧ disposeTask s ≠ Some q.

Definition unaimed (q : ref) (l : list Job) : Prop :=
  ∀ j, j ∈ l → target j ≠ Some q.

Definition unnamed (s : Proxy) (q : ref) : Prop :=
  ∀ k c r, heap s !! k = Some c → r ∈ reactions c → derived r ≠ Some q.

(** [held s q c]: the promise [q] is [c], and no queued job and no
    reaction will settle it. *)
Definition held (s : Proxy) (q : ref) (c : Promise) : Prop :=
  heap s !! q = Some c ∧ shielded s q ∧ unnamed s q ∧ unaimed q (microtasks s).

(** [armed s i q c]: the promise [q] is [c], and only a reaction of the
    promise [i] will settle it. *)
Definition armed (s : Proxy) (i q : ref) (c : Promise) : Prop :=
  heap s !! q = Some c ∧ private s q ∧ shielded s i ∧
  (∀ k ck r, heap s !! k = Some ck → r ∈ reactions ck → derived r = Some q → k = i) ∧
  unaimed q (microtasks s).

(** [queued s q c j]: the promise [q] is [c], and only the job [j],
    which is in the queue, will settle it. *)
Definition queued (s : Proxy) (q : ref) (c : Promise) (j : Job) : Prop :=
  heap s !! q = Some c ∧ private s q ∧ unnamed s q ∧
  ∃ q1 q2, microtasks s = q1 ++ j :: q2 ∧ unaimed q (q1 ++ q2).

Definition waits_then (p1 : ref) : Promise :=
  {| settled := None; reactions := [then_kill p1] |}.

Definition waits_catch (p2 : ref) : Promise :=
  {| settled := None; reactions := [catch_kill p2] |}.

(** The dispose task [t] is pending: nothing but settling [t] moves the
    disposal on. *)
Definition awaiting (s : Proxy) (t p1 p2 : ref) : Prop :=
  held s t (waits_then p1) ∧ armed s t p1 (waits_catch p2) ∧ armed s p1 p2 pending.

(** The worker has been killed and the handle is marked disposed. *)
Definition kill_done (pf : Platform) (s : Proxy) : Prop :=
  pid pf ∈ killed s ∧ isDisposed s = true.

(** The dispose task has been settled with [o]: the job of
    [.then(killWorker)] is queued. *)
Definition then_queued (s : Proxy) (p1 p2 : ref) (o : Settlement) : Prop :=
  queued s p1 (waits_catch p2) (reaction_job o (then_kill p1)) ∧
  armed s p1 p2 pending.

(** That job has run: the job of [.catch(killWorker)] is queued, and the
    worker is killed already unless the task was rejected. *)
Definition catch_queued (pf : Platform) (s : Proxy) (p2 : ref) (o : Settlement) : Prop :=
  queued s p2 pending (reaction_job o (catch_kill p2)) ∧
  match o with
  | Fulfilled v => v = undefined ∧ kill_done pf s
  | Rejected _ => True
  end.

(** The promise [dispose()] returned is fulfilled. *)
Definition completed (pf : Platform) (s : Proxy) (p2 : ref) : Prop :=
  outcome s p2 = Some (Some (Fulfilled undefined)) ∧ kill_done pf s.

Definition closing (pf : Platform) (s : Proxy) (p1 p2 : ref) : Prop :=
  (∃ o, then_queued s p1 p2 o) ∨ (∃ o, catch_queued pf s p2 o) ∨ completed pf s p2.

(** What the methods and the listeners are made of, as far as a property
    [P] of the proxy goes: [P] survives each of these, where [allowed k o]
    says which promises may be settled, and how. *)
Record stable (pf : Platform) (P : Proxy → Prop)
    (allowed : Proxy → ref → Settlement → Prop) : Prop := {
  st_send : ∀ s c m a, P s → P (send (Call c m a) s);
  st_send_dispose : ∀ s, P s → isDisposed s = false → P (send Dispose s);
  st_log : ∀ s l text, P s → P (log l text s);
  st_kill : ∀ s, P s → P (killWorker pf s);
  st_error : ∀ s e, P s → P (set_currentError e s);
  st_disposed : ∀ s, P s → P (set_isDisposed true s);
  st_unlisten : ∀ s, P s → P (set_exitListener false s);
  st_buffer : ∀ s q, P s → P (set_lastMessagesQueue q s);
  st_settle : ∀ s k o, P s → allowed s k o → P (settle k o s);
  st_init : ∀ s v, P s → allowed s (initTask s) (Fulfilled v);
  st_task : ∀ s k o, P s → Some k ∈ workerTasks s → allowed s k o;
  st_call : ∀ s, P s →
    P (set_workerTasks (workerTasks s ++ [Some (length (heap s))])
         (set_heap (heap s ++ [pending]) s));
  st_attach : ∀ s r, P s → derived r = None →
    (∀ o, is_kill (handler (reaction_job o r)) = false) →
    P (attach (initTask s) r s);
  st_renew : ∀ s, P s →
    P (set_heap (heap s ++ [waits_then (S (length (heap s)));
                            waits_catch (S (S (length (heap s))));
                            pending])
         (set_disposeTask (Some (length (heap s))) s));
  st_delete : ∀ s c, P s → P (set_workerTasks (delete_at c (workerTasks s)) s)
}.

(** The disposal is under way or done. *)
Definition on_course (pf : Platform) (s : Proxy) (t p1 p2 : ref) : Prop :=
  awaiting s t p1 p2 ∨ closing pf s p1 p2.

(** *** A run under another scheduling *)

(** The reply to a call and DisposeCompleted come in one after the
    other while a disposal is under way, and the caller, woken by the
    reply, calls [dispose()] again before the kill that DisposeCompleted
    queued has run; the second disposal is acknowledged as well. *)
Definition back_to_back : list Event :=
  [Emit (message Initialized); Invoke "run" []; Microtask; CallDispose;
   Emit (message (Result 0 undefined)); Emit (message DisposeCompleted);
   CallDispose; Microtask; Microtask;
   Emit (message DisposeCompleted); Microtask; Microtask].

(** *** Tactics *)

(** Closes the goal that a step added only calls to the channel, by the
    lemma that says so of the messages of queued jobs. *)
Ltac frame_calls_by lem :=
  eexists; split; [reflexivity|]; left; apply lem.

(** ** The runtime terminates: draining empties the queue *)

Lemma sum_list_insert_reactions (h : list Promise) (p : ref) (c c' : Promise) :
  h !! p = Some c →
  (sum_list (map (fun q => length (reactions q)) (<[p := c']> h)) + length (reactions c)
   = sum_list (map (fun q => length (reactions q)) h) + length (reactions c'))%nat.
Proof.
  revert p. induction h as [|x h IH]; intros [|p] Hp; simpl in *; try discriminate.
  - injection Hp as ->. lia.
  - specialize (IH p Hp). lia.
Qed.

Lemma backlog_settle (p : ref) (o : Settlement) (s : Proxy) :
  backlog (settle p o s) = backlog s.
Proof.
  unfold settle. destruct (heap s !! p) as [[[o'|] rs]|] eqn:Hp; try reflexivity.
  unfold backlog; simpl. rewrite length_app, length_map.
  pose proof (sum_list_insert_reactions (heap s) p _
                {| settled := Some o; reactions := [] |} Hp) as H.
  simpl in H. lia.
Qed.

Lemma backlog_settle_target (d : option ref) (o : Settlement) (s : Proxy) :
  backlog (settle_target d o s) = backlog s.
Proof. destruct d; simpl; [apply backlog_settle | reflexivity]. Qed.

Lemma backlog_run_callback (pf : Platform) (cb : Callback) (s : Proxy) :
  backlog (run_callback pf cb s) = backlog s.
Proof. destruct cb; reflexivity. Qed.

Lemma backlog_tick (pf : Platform) (s : Proxy) (j : Job) (q : list Job) :
  microtasks s = j :: q → S (backlog (tick pf s)) = backlog s.
Proof.
  intros Hq. unfold tick, run_job. rewrite Hq.
  destruct (handler j);
    rewrite backlog_settle_target, ?backlog_run_callback;
    unfold backlog; simpl; rewrite Hq; reflexivity.
Qed.

Lemma drain_nil (pf : Platform) (s : Proxy) :
  microtasks s = [] → drain pf s = s.
Proof.
  intros Hq. unfold drain. destruct (backlog s); simpl; [reflexivity|].
  rewrite Hq. reflexivity.
Qed.

Lemma drain_cons (pf : Platform) (s : Proxy) (j : Job) (q : list Job) :
  microtasks s = j :: q → drain pf s = drain pf (tick pf s).
Proof.
  intros Hq. unfold drain. rewrite <- (backlog_tick pf s j q Hq). simpl.
  rewrite Hq. reflexivity.
Qed.

Lemma drain_n_ind (pf : Platform) (P : Proxy → Prop) :
  (∀ s, P s → P (tick pf s)) → ∀ n s, P s → P (drain_n pf n s).
Proof.
  intros Htick. induction n as [|n IH]; intros s Hs; simpl; [exact Hs|].
  destruct (microtasks s); [exact Hs|]. apply IH, Htick, Hs.
Qed.

(** Whatever every tick preserves, draining preserves. *)
Lemma drain_ind (pf : Platform) (P : Proxy → Prop) :
  (∀ s, P s → P (tick pf s)) → ∀ s, P s → P (drain pf s).
Proof. intros Htick s. apply drain_n_ind, Htick. Qed.

Lemma drain_n_empties (pf : Platform) (n : nat) :
  ∀ s, (backlog s ≤ n)%nat → microtasks (drain_n pf n s) = [].
Proof.
  induction n as [|n IH]; intros s Hn; simpl.
  - unfold backlog in Hn. destruct (microtasks s); [reflexivity | simpl in Hn; lia].
  - destruct (microtasks s) as [|j q] eqn:Hq; [exact Hq|].
    apply IH. pose proof (backlog_tick pf s j q Hq). lia.
Qed.

(** The drain is total and leaves no microtask behind. *)
Lemma drain_empties (pf : Platform) (s : Proxy) : microtasks (drain pf s) = [].
Proof. apply drain_n_empties. reflexivity. Qed.

Lemma run_app (pf : Platform) (evs1 evs2 : list Event) (s : Proxy) :
  run pf s (evs1 ++ evs2) =
  match run pf s evs1 with
  | inr s' => run pf s' evs2
  | inl err => inl err
  end.
Proof.
  revert s. induction evs1 as [|ev evs1 IH]; intros s; simpl; [reflexivity|].
  destruct (step pf s ev); [reflexivity | apply IH].
Qed.

(** ** The invariant *)

Lemma create_inv (pf : Platform) rp lc pl wd cp : inv pf (create rp lc pl wd cp).
Proof.
  constructor; simpl; try done.
  - exists pending; simpl; repeat split; auto; discriminate.
  - intros r Hr. inversion Hr.
Qed.

Lemma tick_call (pf : Platform) (s : Proxy) (j : Job) (q : list Job) c m a :
  microtasks s = j :: q → handler j = Some (SendCall c m a) → target j = None →
  tick pf s = send (Call c m a) (set_microtasks q s).
Proof.
  intros Hq Hh Ht. unfold tick, run_job. rewrite Hq, Hh, Ht. reflexivity.
Qed.

Lemma tick_inv (pf : Platform) (s : Proxy) : inv pf s → inv pf (tick pf s).
Proof.
  intros Hs. destruct (microtasks s) as [|j q] eqn:Hq.
  { unfold tick. rewrite Hq. exact Hs. }
  pose proof (inv_queue _ _ Hs) as Hjobs. rewrite Hq in Hjobs.
  apply Forall_cons in Hjobs as [[(c & m & a & Hh) Ht] Hjobs].
  rewrite (tick_call pf s j q c m a Hq Hh Ht).
  destruct Hs as [H1 H2 H3 H4 H5 H6 H7].
  constructor; simpl; auto.
  - unfold scheduled, waiting in *; simpl in *.
    rewrite <- H6, Hq, omap_app. simpl. unfold job_call at 2. rewrite Hh. simpl.
    rewrite <- app_assoc. reflexivity.
  - intros Hgate. destruct (H7 Hgate) as [Hnil _]. congruence.
Qed.

Lemma drain_inv (pf : Platform) (s : Proxy) : inv pf s → inv pf (drain pf s).
Proof. apply drain_ind, tick_inv. Qed.

(** With nothing but calls in the queue, draining sends them in order and
    touches nothing else. *)
Lemma drain_calls (pf : Platform) (s : Proxy) :
  Forall is_call_job (microtasks s) →
  drain pf s = set_microtasks [] (set_sent (sent s ++ omap job_message (microtasks s)) s).
Proof.
  remember (microtasks s) as q eqn:Hq. revert s Hq.
  induction q as [|j q IH]; intros s Hq Hjobs.
  - rewrite drain_nil by done. destruct s; simpl in *. subst.
    rewrite app_nil_r. reflexivity.
  - apply Forall_cons in Hjobs as [[(c & m & a & Hh) Ht] Hjobs].
    rewrite (drain_cons pf s j q) by done.
    rewrite (tick_call pf s j q c m a) by done.
    rewrite IH by done. simpl. unfold job_message at 2. rewrite Hh.
    unfold send. simpl. rewrite <- app_assoc. reflexivity.
Qed.

(** *** The store under extension and under updates elsewhere *)

Lemma is_settled_app (h l : list Promise) (p : ref) :
  is_settled h p = true → is_settled (h ++ l) p = true.
Proof.
  unfold is_settled. destruct (h !! p) as [c|] eqn:Hp; [|discriminate].
  rewrite (lookup_app_l_Some _ _ _ _ Hp). auto.
Qed.

Lemma is_settled_insert (h : list Promise) (p q : ref) (o : Settlement) rs :
  is_settled h p = true →
  is_settled (<[q := {| settled := Some o; reactions := rs |}]> h) p = true.
Proof.
  unfold is_settled. intros Hp. destruct (decide (q = p)) as [->|Hne].
  - destruct (h !! p) eqn:Hl; [|discriminate].
    rewrite list_lookup_insert_eq by (eapply lookup_lt_Some; eauto). reflexivity.
  - rewrite list_lookup_insert_ne by done. exact Hp.
Qed.

Lemma is_settled_insert_ne (h : list Promise) (p q : ref) (c : Promise) :
  q ≠ p → is_settled (<[q := c]> h) p = is_settled h p.
Proof. intros Hne. unfold is_settled. rewrite list_lookup_insert_ne by done. done. Qed.

Lemma chain_app (h l : list Promise) (t p1 p2 : ref) :
  chain h t p1 p2 → chain (h ++ l) t p1 p2.
Proof. intros (H1 & H2 & H3). repeat split; apply lookup_app_l_Some; done. Qed.

Lemma chain_insert (h : list Promise) (q t p1 p2 : ref) (c : Promise) :
  chain h t p1 p2 → q ≠ t → q ≠ p1 → q ≠ p2 → chain (<[q := c]> h) t p1 p2.
Proof.
  intros (H1 & H2 & H3) ? ? ?. repeat split; rewrite list_lookup_insert_ne; done.
Qed.

Lemma chain_distinct (h : list Promise) (t p1 p2 : ref) :
  chain h t p1 p2 → t ≠ p1 ∧ t ≠ p2 ∧ p1 ≠ p2.
Proof.
  intros (H1 & H2 & H3). repeat split; intros ->; rewrite H1 in *|| rewrite H2 in *;
    discriminate.
Qed.

Lemma chain_not_quiet (h : list Promise) (t p1 p2 r : ref) :
  chain h t p1 p2 → quiet h r → r ≠ t ∧ r ≠ p1.
Proof.
  intros (H1 & H2 & H3) (c & Hc & Hr).
  split; intros ->; rewrite Hc in *; simplify_eq; discriminate.
Qed.

Lemma quiet_app (h l : list Promise) (p : ref) : quiet h p → quiet (h ++ l) p.
Proof. intros (c & Hc & Hr). exists c. split; [apply lookup_app_l_Some|]; done. Qed.

Lemma quiet_insert_ne (h : list Promise) (p q : ref) (c : Promise) :
  q ≠ p → quiet h p → quiet (<[q := c]> h) p.
Proof. intros Hne (c' & Hc & Hr). exists c'. rewrite list_lookup_insert_ne; done. Qed.

Lemma quiet_insert (h : list Promise) (p q : ref) (c : Promise) :
  reactions c = [] → quiet h p → quiet (<[q := c]> h) p.
Proof.
  intros Hc Hp. destruct (decide (q = p)) as [->|Hne].
  - destruct Hp as (c' & Hc' & _). exists c.
    rewrite list_lookup_insert_eq by (eapply lookup_lt_Some; eauto). done.
  - apply quiet_insert_ne; done.
Qed.

(** *** Method invocations *)

Lemma attach_pending (p : ref) (r : Reaction) (s : Proxy) rs :
  heap s !! p = Some {| settled := None; reactions := rs |} →
  attach p r s =
  set_heap (<[p := {| settled := None; reactions := rs ++ [r] |}]> (heap s)) s.
Proof. intros Hp. unfold attach. rewrite Hp. reflexivity. Qed.

Lemma attach_settled (p : ref) (r : Reaction) (s : Proxy) o rs :
  heap s !! p = Some {| settled := Some o; reactions := rs |} →
  attach p r s = set_microtasks (microtasks s ++ [reaction_job o r]) s.
Proof. intros Hp. unfold attach. rewrite Hp. reflexivity. Qed.


Lemma forward_healthy (m : string) (a : list Value) (s : Proxy) :
  currentError s = None →
  forward m a s =
  (attach (initTask s) (call_reaction (Z.of_nat (length (workerTasks s))) m a)
     (set_workerTasks (workerTasks s ++ [Some (length (heap s))])
        (set_heap (heap s ++ [pending]) s)),
   Stored (length (heap s))).
Proof.
  intros He. unfold forward. rewrite He. simpl.
  rewrite length_app. simpl.
  replace (Z.of_nat (length (workerTasks s) + 1) - 1)
    with (Z.of_nat (length (workerTasks s))) by lia.
  reflexivity.
Qed.

Lemma forward_crashed (m : string) (a : list Value) (s : Proxy) (e : JsError) :
  currentError s = Some e → forward m a s = (s, Settled (Rejected e)).
Proof. intros He. unfold forward. rewrite He. reflexivity. Qed.

Lemma forward_inv (pf : Platform) (m : string) (a : list Value) (s : Proxy) :
  inv pf s → inv pf (fst (forward m a s)).
Proof.
  intros Hs. destruct (currentError s) as [e|] eqn:He.
  { rewrite (forward_crashed m a s e He). exact Hs. }
  rewrite forward_healthy by done. simpl.
  destruct Hs as [H1 (c0 & Hc0 & Hcall & Hset) H3 H4 H5 H6 H7].
  pose proof (lookup_lt_Some _ _ _ Hc0) as Hlen.
  assert (Htasks : ∀ r h', Some r ∈ workerTasks s ++ [Some (length (heap s))] →
             (∀ p, (0 < p)%nat → quiet (heap s) p → quiet h' p) →
             h' !! length (heap s) = Some pending →
             (0 < r)%nat ∧ quiet h' r).
  { intros r h' [Hr|Hr%list_elem_of_singleton]%elem_of_app Hq Hnew.
    - destruct (H4 r Hr). auto.
    - injection Hr as ->. split; [lia|]. exists pending. done. }
  assert (Hphase : ∀ h', (∀ t, is_settled (heap s) t = true → is_settled h' t = true) →
             (∀ t p1 p2 : nat, 0%nat ≠ t → 0%nat ≠ p1 → (0 < p2)%nat →
                         chain (heap s) t p1 p2 → chain h' t p1 p2) →
             match disposeTask s with
             | None => killed s = []
             | Some t =>
                 exitListener s = false ∧
                 if isDisposed s
                 then killed s = [pid pf] ∧ is_settled h' t = true
                 else killed s = [] ∧ ∃ p1 p2,
                        chain h' t p1 p2 ∧ (0 < p2)%nat ∧
                        Some p2 ∉ workerTasks s ++ [Some (length (heap s))]
             end).
  { intros h' Hres Hch. unfold dispose_phase, disposing in H5.
    destruct (disposeTask s) as [t|]; [|done].
    destruct H5 as [Hex H5]. split; [done|].
    destruct (isDisposed s).
    - destruct H5. auto.
    - destruct H5 as (Hk & p1 & p2 & Hc & Hp2 & Hnot). split; [done|].
      exists p1, p2. split; [|split; [done|]].
      + apply Hch; auto.
        * intros <-. destruct Hc as (Hc & _). rewrite Hc0 in Hc. simplify_eq.
          simpl in Hcall. apply Forall_cons in Hcall as [[_ Hd] _]. discriminate.
        * intros <-. destruct Hc as (_ & Hc & _). rewrite Hc0 in Hc. simplify_eq.
          simpl in Hcall. apply Forall_cons in Hcall as [[(?&?&?&Hd) _] _]. discriminate.
      + intros [Hin|Hin%list_elem_of_singleton]%elem_of_app; [done|].
        destruct Hc as (_ & _ & Hc). apply lookup_lt_Some in Hc.
        injection Hin as ->. lia. }
  rewrite H1. destruct c0 as [[o|] rs].
  - rewrite (attach_settled _ _ _ o rs) by (simpl; apply lookup_app_l_Some; done).
    destruct (Hset o eq_refl) as [Hrs [v ->]]. simpl in Hrs. subst rs.
    constructor; simpl; auto.
    + exists {| settled := Some (Fulfilled v); reactions := [] |}.
      split; [apply lookup_app_l_Some; done | split; [done|]]. exact Hset.
    + apply Forall_app. split; [done|]. constructor; [|constructor].
      split; simpl; eauto.
    + intros r Hr. apply (Htasks r _ Hr).
      * intros p _. apply quiet_app.
      * apply list_lookup_middle. reflexivity.
    + unfold dispose_phase, disposing. simpl. apply Hphase.
      * intros t. apply is_settled_app.
      * intros. apply chain_app. done.
    + unfold scheduled, waiting in *. simpl in *. rewrite H1 in *.
      rewrite (lookup_app_l_Some _ _ _ _ Hc0). rewrite Hc0 in H6. simpl in *.
      rewrite omap_app. simpl. rewrite length_app. simpl.
      replace (length (workerTasks s) + 1)%nat with (S (length (workerTasks s))) by lia.
      rewrite seqZ_S, Z.add_0_l, <- H6. simpl.
      rewrite ?app_nil_r, <- ?app_assoc. reflexivity.
    + unfold is_settled. rewrite (lookup_app_l_Some _ _ _ _ Hc0). discriminate.
  - rewrite (attach_pending _ _ _ rs) by (simpl; apply lookup_app_l_Some; done).
    constructor; simpl; auto.
    + eexists. split; [apply list_lookup_insert_eq; rewrite length_app; lia|].
      simpl. split; [|discriminate].
      apply Forall_app. split; [done|]. constructor; [|constructor].
      split; simpl; eauto.
    + intros r Hr. apply (Htasks r _ Hr).
      * intros p Hpos Hp. apply quiet_insert_ne; [lia|]. apply quiet_app. done.
      * rewrite list_lookup_insert_ne by lia. apply list_lookup_middle. reflexivity.
    + unfold dispose_phase, disposing. simpl. apply Hphase.
      * intros t Ht. rewrite is_settled_insert_ne; [apply is_settled_app; done|].
        intros <-. unfold is_settled in Ht. rewrite Hc0 in Ht. discriminate.
      * intros. apply chain_insert; try done; [apply chain_app; done|lia].
    + unfold scheduled, waiting in *. simpl in *. rewrite H1 in *.
      rewrite list_lookup_insert_eq by (rewrite length_app; lia).
      rewrite Hc0 in H6. simpl in *.
      rewrite omap_app. simpl. rewrite length_app. simpl.
      replace (length (workerTasks s) + 1)%nat with (S (length (workerTasks s))) by lia.
      rewrite seqZ_S, Z.add_0_l, <- H6. simpl.
      rewrite ?app_nil_r, <- ?app_assoc. reflexivity.
    + intros _. apply H7. unfold is_settled. rewrite Hc0. reflexivity.
Qed.

(** *** Disposal *)

Lemma dispose_disposed (s : Proxy) :
  isDisposed s = true →
  dispose s = (set_exitListener false s, Settled (Fulfilled undefined)).
Proof. intros Hd. unfold dispose. simpl. rewrite Hd. reflexivity. Qed.

Lemma dispose_active (s : Proxy) :
  isDisposed s = false →
  dispose s =
  (set_heap (heap s ++
               [ {| settled := None; reactions := [then_kill (S (length (heap s)))] |};
                 {| settled := None;
                    reactions := [catch_kill (S (S (length (heap s))))] |};
                 pending ])
     (set_sent (sent s ++ [Dispose])
        (set_disposeTask (Some (length (heap s))) (set_exitListener false s))),
   Stored (S (S (length (heap s))))).
Proof.
  intros Hd. unfold dispose. simpl. rewrite Hd.
  unfold new_Task, new_promise, send. simpl.
  rewrite <- !app_assoc. simpl.
  rewrite (attach_pending (length (heap s)) _ _ [])
    by (simpl; apply list_lookup_middle; reflexivity).
  simpl. rewrite insert_app_r_alt, Nat.sub_diag by lia. simpl.
  rewrite <- !app_assoc. simpl.
  rewrite length_app. simpl. rewrite Nat.add_1_r.
  rewrite (attach_pending (S (length (heap s))) _ _ []).
  2:{ simpl. rewrite lookup_app_r by lia.
      replace (S (length (heap s)) - length (heap s))%nat with 1%nat by lia.
      reflexivity. }
  simpl. rewrite insert_app_r_alt by lia.
  replace (S (length (heap s)) - length (heap s))%nat with 1%nat by lia.
  simpl. rewrite !length_app. simpl.
  replace (length (heap s) + 2)%nat with (S (S (length (heap s)))) by lia.
  reflexivity.
Qed.

Lemma quiet_lt (h : list Promise) (p : ref) : quiet h p → (p < length h)%nat.
Proof. intros (c & Hc & _). eapply lookup_lt_Some; eauto. Qed.

Lemma chain_fresh (h : list Promise) :
  chain (h ++ [ {| settled := None; reactions := [then_kill (S (length h))] |};
                {| settled := None; reactions := [catch_kill (S (S (length h)))] |};
                pending ])
        (length h) (S (length h)) (S (S (length h))).
Proof.
  repeat split.
  - apply list_lookup_middle. reflexivity.
  - rewrite lookup_app_r by lia.
    replace (S (length h) - length h)%nat with 1%nat by lia. reflexivity.
  - rewrite lookup_app_r by lia.
    replace (S (S (length h)) - length h)%nat with 2%nat by lia. reflexivity.
Qed.

Lemma dispose_inv (pf : Platform) (s : Proxy) : inv pf s → inv pf (fst (dispose s)).
Proof.
  intros [H1 (c0 & Hc0 & Hcall & Hset) H3 H4 H5 H6 H7].
  destruct (isDisposed s) eqn:Hd.
  - rewrite dispose_disposed by done. simpl.
    constructor; simpl; eauto.
    unfold dispose_phase, disposing in *. simpl. rewrite Hd in *.
    destruct (disposeTask s); [|done]. destruct H5. auto.
  - rewrite dispose_active by done. simpl.
    constructor; simpl; auto.
    + exists c0. split; [apply lookup_app_l_Some; done|]. auto.
    + intros r Hr. destruct (H4 r Hr). split; [done|]. apply quiet_app. done.
    + unfold dispose_phase, disposing in *. simpl. rewrite Hd in *.
      split; [done|]. split.
      * destruct (disposeTask s); [|done]. destruct H5 as (_ & ? & _). done.
      * exists (S (length (heap s))), (S (S (length (heap s)))).
        split; [apply chain_fresh|]. split; [lia|].
        intros Hin. destruct (H4 _ Hin) as [_ Hq%quiet_lt]. lia.
    + unfold scheduled, waiting in *. simpl in *. rewrite H1 in *.
      rewrite (lookup_app_l_Some _ _ _ _ Hc0). rewrite Hc0 in H6.
      rewrite omap_app. simpl. rewrite app_nil_r. exact H6.
    + unfold is_settled in *. rewrite (lookup_app_l_Some _ _ _ _ Hc0).
      rewrite Hc0 in H7. rewrite omap_app. simpl. rewrite app_nil_r. exact H7.
Qed.

(** *** Settling *)

Lemma settle_settled (p : ref) (o : Settlement) (s : Proxy) :
  is_settled (heap s) p = true → settle p o s = s.
Proof.
  unfold is_settled, settle. destruct (heap s !! p) as [[[o'|] rs]|]; done.
Qed.

Lemma settle_pending (p : ref) (o : Settlement) (s : Proxy) rs :
  heap s !! p = Some {| settled := None; reactions := rs |} →
  settle p o s =
  set_microtasks (microtasks s ++ map (reaction_job o) rs)
    (set_heap (<[p := {| settled := Some o; reactions := [] |}]> (heap s)) s).
Proof. intros Hp. unfold settle. rewrite Hp. reflexivity. Qed.

Lemma heap_settle (p : ref) (o : Settlement) (s : Proxy) :
  heap (settle p o s) = settle_heap p o (heap s).
Proof.
  unfold settle, settle_heap. destruct (heap s !! p) as [[[o'|] rs]|]; reflexivity.
Qed.

(** Settling a promise nobody inside the class waits for changes the
    store and nothing else. *)
Lemma settle_quiet (p : ref) (o : Settlement) (s : Proxy) :
  quiet (heap s) p → settle p o s = set_heap (settle_heap p o (heap s)) s.
Proof.
  intros (c & Hc & Hr). unfold settle, settle_heap. rewrite Hc.
  destruct c as [[o'|] rs]; simpl in *; subst; destruct s; simpl;
    rewrite ?app_nil_r; reflexivity.
Qed.

Lemma length_settle_heap (p : ref) (o : Settlement) (h : list Promise) :
  length (settle_heap p o h) = length h.
Proof.
  unfold settle_heap. destruct (h !! p) as [[[o'|] rs]|]; rewrite ?length_insert; done.
Qed.

Lemma settle_heap_ne (p q : ref) (o : Settlement) (h : list Promise) :
  p ≠ q → settle_heap p o h !! q = h !! q.
Proof.
  intros Hne. unfold settle_heap.
  destruct (h !! p) as [[[o'|] rs]|]; rewrite ?list_lookup_insert_ne; done.
Qed.

Lemma settle_heap_eq (p : ref) (o : Settlement) (h : list Promise) (c : Promise) :
  h !! p = Some c →
  settle_heap p o h !! p =
  Some (match settled c with
        | None => {| settled := Some o; reactions := [] |}
        | Some _ => c
        end).
Proof.
  intros Hp. unfold settle_heap. rewrite Hp. destruct c as [[o'|] rs]; simpl; [done|].
  apply list_lookup_insert_eq. eapply lookup_lt_Some; eauto.
Qed.

Lemma settle_heap_quiet (p r : ref) (o : Settlement) (h : list Promise) :
  quiet h r → quiet (settle_heap p o h) r.
Proof.
  intros Hr. unfold settle_heap.
  destruct (h !! p) as [[[o'|] rs]|]; [done | | done]. apply quiet_insert; done.
Qed.

Lemma settle_heap_settled (p t : ref) (o : Settlement) (h : list Promise) :
  is_settled h t = true → is_settled (settle_heap p o h) t = true.
Proof.
  intros Ht. unfold settle_heap.
  destruct (h !! p) as [[[o'|] rs]|]; [done | | done]. apply is_settled_insert; done.
Qed.

Lemma settle_heap_settles (p : ref) (o : Settlement) (h : list Promise) :
  (p < length h)%nat → is_settled (settle_heap p o h) p = true.
Proof.
  intros Hlt. destruct (lookup_lt_is_Some_2 h p Hlt) as [c Hc].
  unfold is_settled. rewrite (settle_heap_eq p o h c Hc).
  destruct c as [[o'|] rs]; reflexivity.
Qed.

Lemma settle_heap_chain (p t p1 p2 : ref) (o : Settlement) (h : list Promise) :
  chain h t p1 p2 → p ≠ t → p ≠ p1 → p ≠ p2 → chain (settle_heap p o h) t p1 p2.
Proof.
  intros (H1 & H2 & H3) ? ? ?. repeat split; rewrite settle_heap_ne; done.
Qed.

Lemma settle_task_inv (pf : Platform) (r : ref) (o : Settlement) (s : Proxy) :
  inv pf s → Some r ∈ workerTasks s → inv pf (settle r o s).
Proof.
  intros [H1 (c0 & Hc0 & Hcall & Hset) H3 H4 H5 H6 H7] Hr.
  destruct (H4 r Hr) as [Hpos Hq].
  rewrite settle_quiet by done.
  constructor; simpl; auto.
  - exists c0. rewrite settle_heap_ne by lia. auto.
  - intros r' Hr'. destruct (H4 r' Hr'). split; [done|]. apply settle_heap_quiet; done.
  - unfold dispose_phase, disposing in *. simpl.
    destruct (disposeTask s) as [t|]; [|done]. destruct H5 as [Hex H5].
    split; [done|]. destruct (isDisposed s).
    + destruct H5. split; [done|]. apply settle_heap_settled; done.
    + destruct H5 as (Hk & p1 & p2 & Hc & Hp2 & Hnot). split; [done|].
      exists p1, p2. split; [|done].
      destruct (chain_not_quiet _ _ _ _ _ Hc Hq).
      apply settle_heap_chain; try done. intros ->. done.
  - unfold scheduled, waiting in *. simpl. rewrite H1 in *.
    rewrite settle_heap_ne by lia. exact H6.
  - unfold is_settled in *. rewrite settle_heap_ne by lia. exact H7.
Qed.

Lemma elem_of_delete_at (c : Z) (tasks : list (option ref)) (r : ref) :
  Some r ∈ delete_at c tasks → Some r ∈ tasks.
Proof.
  unfold delete_at. destruct (c <? 0); [done|].
  intros (j & Hj)%list_elem_of_lookup.
  apply list_lookup_insert_Some in Hj as [(_ & ? & _)|[_ Hj]]; [done|].
  eapply list_elem_of_lookup_2; eauto.
Qed.

Lemma length_delete_at (c : Z) (tasks : list (option ref)) :
  length (delete_at c tasks) = length tasks.
Proof. unfold delete_at. destruct (c <? 0); rewrite ?length_insert; done. Qed.

Lemma task_at_elem (c : Z) (tasks : list (option ref)) (r : ref) :
  task_at tasks c = Some r → Some r ∈ tasks.
Proof.
  unfold task_at. destruct (c <? 0); [done|].
  destruct (tasks !! Z.to_nat c) as [[r'|]|] eqn:Hl; simpl; try done.
  intros [= ->]. eapply list_elem_of_lookup_2; eauto.
Qed.

Lemma delete_inv (pf : Platform) (c : Z) (s : Proxy) :
  inv pf s → inv pf (set_workerTasks (delete_at c (workerTasks s)) s).
Proof.
  intros [H1 H2 H3 H4 H5 H6 H7].
  constructor; simpl; auto.
  - intros r Hr%elem_of_delete_at. auto.
  - unfold dispose_phase, disposing in *. simpl.
    destruct (disposeTask s) as [t|]; [|done]. destruct H5 as [Hex H5].
    split; [done|]. destruct (isDisposed s); [done|].
    destruct H5 as (Hk & p1 & p2 & Hc & Hp2 & Hnot). split; [done|].
    exists p1, p2. split; [done|]. split; [done|].
    intros Hin. apply elem_of_delete_at in Hin. done.
  - unfold scheduled, waiting in *. simpl. rewrite length_delete_at. exact H6.
Qed.

(** Once the dispose task is settled, either way, two microtasks later
    the worker has been killed, the handle is marked disposed and the
    promise [dispose()] returned is fulfilled. *)
Lemma dispose_chain_runs (pf : Platform) (s : Proxy) (t p1 p2 : ref) (o : Settlement) :
  chain (heap s) t p1 p2 → microtasks s = [] →
  drain pf (settle t o s) =
  set_microtasks []
    (set_isDisposed true
       (set_killed (killed s ++ [pid pf])
          (set_heap (<[p2 := done_with (Fulfilled undefined)]>
                       (<[p1 := done_with (relay o)]>
                          (<[t := done_with o]> (heap s)))) s))).
Proof.
  intros Hc Hq. destruct (chain_distinct _ _ _ _ Hc) as (Ht1 & Ht2 & H12).
  destruct Hc as (Ht & Hp1 & Hp2).
  rewrite (settle_pending t o s _ Ht). rewrite Hq. simpl.
  erewrite drain_cons by (simpl; reflexivity).
  unfold tick. simpl. unfold run_job. simpl.
  destruct o as [v|e]; simpl.
  - erewrite settle_pending
      by (simpl; rewrite list_lookup_insert_ne by done; exact Hp1).
    simpl. erewrite drain_cons by (simpl; reflexivity).
    unfold tick. simpl. unfold run_job. simpl.
    erewrite settle_pending
      by (simpl; rewrite !list_lookup_insert_ne by done; exact Hp2).
    simpl. rewrite drain_nil by reflexivity. reflexivity.
  - erewrite settle_pending
      by (simpl; rewrite list_lookup_insert_ne by done; exact Hp1).
    simpl. erewrite drain_cons by (simpl; reflexivity).
    unfold tick. simpl. unfold run_job. simpl.
    erewrite settle_pending
      by (simpl; rewrite !list_lookup_insert_ne by done; exact Hp2).
    simpl. rewrite drain_nil by reflexivity. reflexivity.
Qed.

(** *** The listeners *)

Lemma job_call_reaction (v : Value) (rs : list Reaction) :
  omap job_call (map (reaction_job (Fulfilled v)) rs) = omap reaction_call rs.
Proof.
  induction rs as [|r rs IH]; [done|].
  change (map (reaction_job (Fulfilled v)) (r :: rs))
    with (reaction_job (Fulfilled v) r :: map (reaction_job (Fulfilled v)) rs).
  change (omap job_call (reaction_job (Fulfilled v) r ::
                         map (reaction_job (Fulfilled v)) rs))
    with (match reaction_call r with
          | Some c => c :: omap job_call (map (reaction_job (Fulfilled v)) rs)
          | None => omap job_call (map (reaction_job (Fulfilled v)) rs)
          end).
  rewrite IH. reflexivity.
Qed.

Lemma chain_not_init (h : list Promise) (t p1 p2 : ref) (c0 : Promise) :
  chain h t p1 p2 → h !! 0%nat = Some c0 → Forall is_call_reaction (reactions c0) →
  0%nat ≠ t ∧ 0%nat ≠ p1.
Proof.
  intros (Ht & Hp1 & _) Hc0 Hcall.
  split; intros <-; rewrite Hc0 in *; simplify_eq; simpl in Hcall;
    apply Forall_cons in Hcall as [[(? & ? & ? & Hf) Hd] _]; discriminate.
Qed.

Lemma settle_init_inv (pf : Platform) (v : Value) (s : Proxy) :
  inv pf s → inv pf (settle 0%nat (Fulfilled v) s).
Proof.
  intros Hs. pose proof Hs as [H1 (c0 & Hc0 & Hcall & Hset) H3 H4 H5 H6 H7].
  destruct c0 as [[o|] rs].
  { rewrite settle_settled; [done|]. unfold is_settled. rewrite Hc0. done. }
  rewrite (settle_pending _ _ _ _ Hc0).
  pose proof (lookup_lt_Some _ _ _ Hc0) as Hlen.
  constructor; simpl; auto.
  - exists (done_with (Fulfilled v)). split; [apply list_lookup_insert_eq; done|].
    simpl. split; [done|]. intros o [= <-]. eauto.
  - apply Forall_app. split; [done|]. apply Forall_fmap.
    eapply Forall_impl; [exact Hcall|]. intros r [Hf Hd]. split; simpl; done.
  - intros r Hr. destruct (H4 r Hr). split; [done|]. apply quiet_insert; done.
  - unfold dispose_phase, disposing in *. simpl.
    destruct (disposeTask s) as [t|]; [|done]. destruct H5 as [Hex H5].
    split; [done|]. destruct (isDisposed s).
    + destruct H5. split; [done|]. apply is_settled_insert; done.
    + destruct H5 as (Hk & p1 & p2 & Hc & Hp2 & Hnot). split; [done|].
      exists p1, p2. split; [|done].
      destruct (chain_not_init _ _ _ _ _ Hc Hc0 Hcall).
      apply chain_insert; try done. lia.
  - unfold scheduled, waiting in *. simpl. rewrite H1 in *.
    rewrite list_lookup_insert_eq by done. rewrite Hc0 in H6. simpl in *.
    rewrite omap_app, job_call_reaction, app_nil_r. exact H6.
  - unfold is_settled. rewrite list_lookup_insert_eq by done. discriminate.
Qed.

Lemma dispose_completed_inv (pf : Platform) (s : Proxy) (t p1 p2 : ref) (o : Settlement) :
  inv pf s → microtasks s = [] → disposeTask s = Some t → isDisposed s = false →
  chain (heap s) t p1 p2 → (0 < p2)%nat →
  inv pf (drain pf (settle t o s)).
Proof.
  intros [H1 (c0 & Hc0 & Hcall & Hset) H3 H4 H5 H6 H7] Hq Ht Hd Hc Hpos.
  rewrite (dispose_chain_runs pf s t p1 p2 o Hc Hq).
  destruct (chain_not_init _ _ _ _ _ Hc Hc0 Hcall) as [H0t H0p1].
  destruct (chain_distinct _ _ _ _ Hc) as (Ht1 & Ht2 & H12).
  unfold dispose_phase in H5. rewrite Ht, Hd in H5. destruct H5 as (Hex & Hk & _).
  constructor; simpl; auto.
  - exists c0. rewrite !list_lookup_insert_ne by lia. auto.
  - intros r Hr. destruct (H4 r Hr). split; [done|].
    repeat apply quiet_insert; done.
  - unfold dispose_phase. simpl. rewrite Ht. split; [done|]. rewrite Hk. split; [done|].
    rewrite !is_settled_insert_ne by done.
    unfold is_settled. destruct Hc as (Hc & _).
    rewrite list_lookup_insert_eq by (eapply lookup_lt_Some; eauto). done.
  - unfold scheduled, waiting in *. simpl. rewrite H1 in *.
    rewrite !list_lookup_insert_ne by lia. rewrite Hq in H6. exact H6.
  - unfold is_settled in *. rewrite !list_lookup_insert_ne by lia.
    intros Hgate. destruct (H7 Hgate). done.
Qed.

Lemma reject_all_quiet (e : JsError) (l : list ref) :
  ∀ s, (∀ r, r ∈ l → quiet (heap s) r) →
  foldl (fun s task => Task_reject task e s) s l =
  set_heap (reject_all e l (heap s)) s.
Proof.
  induction l as [|r l IH]; intros s Hl; simpl.
  - destruct s; reflexivity.
  - unfold Task_reject at 2. rewrite settle_quiet by (apply Hl; left).
    rewrite IH.
    + reflexivity.
    + intros r' Hr'. simpl. apply settle_heap_quiet, Hl. right. done.
Qed.

Lemma elem_of_entries (tasks : list (option ref)) (r : ref) :
  r ∈ entries tasks ↔ Some r ∈ tasks.
Proof.
  unfold entries. rewrite list_elem_of_omap. split.
  - intros (x & Hx & Heq). simpl in Heq. subst. done.
  - intros Hr. exists (Some r). done.
Qed.

Lemma elem_of_unresolved (s : Proxy) (r : ref) :
  r ∈ unresolved s ↔ Some r ∈ workerTasks s ∧ is_settled (heap s) r = false.
Proof.
  unfold unresolved. rewrite list_elem_of_In, filter_In, <- list_elem_of_In.
  rewrite elem_of_entries, negb_true_iff. done.
Qed.

Lemma handleUnexpectedExit_quiet (pf : Platform) code signal (s : Proxy) :
  (∀ r, Some r ∈ workerTasks s → quiet (heap s) r) →
  handleUnexpectedExit pf code signal s =
  set_isDisposed true
    (set_heap (reject_all (crash_error code) (unresolved s) (heap s))
       (set_currentError (Some (crash_error code))
          (log Debug (crash_report pf code signal (lastMessagesQueue s)) s))).
Proof.
  intros Hq. unfold handleUnexpectedExit.
  change (List.filter _ _) with (unresolved s).
  rewrite reject_all_quiet.
  - reflexivity.
  - intros r [Hr _]%elem_of_unresolved. simpl. auto.
Qed.

Lemma reject_all_inv (pf : Platform) (e : JsError) (l : list ref) :
  ∀ s, inv pf s → (∀ r, r ∈ l → Some r ∈ workerTasks s) →
  inv pf (set_heap (reject_all e l (heap s)) s).
Proof.
  induction l as [|r l IH]; intros s Hs Hl; simpl.
  - destruct s; exact Hs.
  - assert (Hr : Some r ∈ workerTasks s) by (apply Hl; left).
    pose proof (settle_task_inv pf r (Rejected e) s Hs Hr) as Hs'.
    rewrite settle_quiet in Hs' by (apply (inv_tasks _ _ Hs); done).
    apply IH in Hs'.
    + exact Hs'.
    + intros r' Hr'. simpl. apply Hl. right. done.
Qed.

Lemma handleUnexpectedExit_inv (pf : Platform) code signal (s : Proxy) :
  inv pf s → exitListener s = true → inv pf (handleUnexpectedExit pf code signal s).
Proof.
  intros Hs Hex.
  rewrite handleUnexpectedExit_quiet by (intros r Hr; apply (inv_tasks _ _ Hs); done).
  pose proof (reject_all_inv pf (crash_error code) (unresolved s) s Hs) as Hs'.
  destruct Hs' as [H1 H2 H3 H4 H5 H6 H7].
  { intros r [Hr _]%elem_of_unresolved. done. }
  constructor; simpl in *; auto.
  unfold dispose_phase in *. simpl in *.
  destruct (disposeTask s); [|done]. destruct H5 as [Hex' _]. congruence.
Qed.

Lemma inv_log (pf : Platform) (l : LogLevel) (text : string) (s : Proxy) :
  inv pf s → inv pf (log l text s).
Proof. intros [H1 H2 H3 H4 H5 H6 H7]. constructor; auto. Qed.

Lemma handleData_inv (pf : Platform) (chunk : string) (s : Proxy) :
  inv pf s → inv pf (handleData pf chunk s).
Proof.
  intros [H1 H2 H3 H4 H5 H6 H7]. unfold handleData.
  destruct (traceEnabled pf); constructor; auto.
Qed.

Lemma routed_inv (pf : Platform) (c : Z) (t : ref) (o : Settlement) (s : Proxy) :
  inv pf s → task_at (workerTasks s) c = Some t →
  inv pf (set_workerTasks (delete_at c (workerTasks (settle t o s))) (settle t o s)).
Proof.
  intros Hs Ht%task_at_elem.
  pose proof (settle_task_inv pf t o s Hs Ht) as Hs'.
  apply (delete_inv pf c) in Hs'. exact Hs'.
Qed.

Lemma onMessage_inv (pf : Platform) (m : ParentMessage) (s s' : Proxy) :
  inv pf s → microtasks s = [] → onMessage m s = inr s' → inv pf (drain pf s').
Proof.
  intros Hs Hq Hm. destruct m as [|c v|c err| |kind]; simpl in Hm.
  - injection Hm as <-. apply drain_inv. rewrite (inv_init _ _ Hs).
    apply settle_init_inv. done.
  - destruct (task_at (workerTasks s) c) as [t|] eqn:Ht; [|discriminate].
    injection Hm as <-. apply drain_inv, routed_inv; done.
  - destruct (task_at (workerTasks s) c) as [t|] eqn:Ht; [|discriminate].
    injection Hm as <-. apply drain_inv, routed_inv; done.
  - destruct (disposeTask s) as [t|] eqn:Ht.
    2:{ injection Hm as <-. apply drain_inv. done. }
    injection Hm as <-.
    pose proof (inv_dispose _ _ Hs) as Hph. unfold dispose_phase in Hph.
    rewrite Ht in Hph. destruct Hph as [Hex Hph].
    destruct (isDisposed s) eqn:Hd.
    + destruct Hph as [_ Hset]. unfold Task_resolve.
      rewrite settle_settled by done. apply drain_inv. done.
    + destruct Hph as (_ & p1 & p2 & Hc & Hpos & _).
      eapply dispose_completed_inv; eauto.
  - injection Hm as <-. apply drain_inv, inv_log. done.
Qed.

Lemma listener_inv (pf : Platform) (e : WorkerEvent) (s s' : Proxy) :
  inv pf s → microtasks s = [] → listener pf e s = inr s' → inv pf (drain pf s').
Proof.
  intros Hs Hq He. destruct e as [m|chunk|code signal]; simpl in He.
  - eapply onMessage_inv; eauto.
  - injection He as <-. apply drain_inv, handleData_inv. done.
  - injection He as <-. apply drain_inv. destruct (exitListener s) eqn:Hex; [|done].
    apply handleUnexpectedExit_inv; done.
Qed.

Lemma step_inv (pf : Platform) (ev : Event) (s s' : Proxy) :
  inv pf s → step pf s ev = inr s' → inv pf s'.
Proof.
  intros Hs Hstep. destruct ev as [m a| | |e]; simpl in Hstep.
  - injection Hstep as <-. apply forward_inv. done.
  - injection Hstep as <-. apply dispose_inv. done.
  - injection Hstep as <-. apply tick_inv. done.
  - destruct (listener pf e (drain pf s)) as [err|s1] eqn:He; [discriminate|].
    injection Hstep as <-.
    eapply listener_inv; [apply drain_inv, Hs | apply drain_empties | exact He].
Qed.

Lemma run_inv (pf : Platform) (evs : list Event) :
  ∀ s s', inv pf s → run pf s evs = inr s' → inv pf s'.
Proof.
  induction evs as [|ev evs IH]; intros s s' Hs Hrun; simpl in Hrun.
  - injection Hrun as <-. done.
  - destruct (step pf s ev) as [err|s1] eqn:Hstep; [discriminate|].
    eapply IH; [|exact Hrun]. eapply step_inv; eauto.
Qed.

(** Every proxy that exists satisfies the invariant. *)
Lemma reachable_inv (pf : Platform) (s : Proxy) : reachable pf s → inv pf s.
Proof.
  intros (rp & lc & pl & wd & cp & evs & Hrun).
  eapply run_inv; [apply create_inv | exact Hrun].
Qed.

Lemma reachable_run (pf : Platform) (s s' : Proxy) (evs : list Event) :
  reachable pf s → run pf s evs = inr s' → reachable pf s'.
Proof.
  intros (rp & lc & pl & wd & cp & evs0 & Hrun) Hrun'.
  exists rp, lc, pl, wd, cp, (evs0 ++ evs). rewrite run_app, Hrun. exact Hrun'.
Qed.

(** ** Events of the worker, in closed form *)

Lemma drain_calm (pf : Platform) (s : Proxy) : inv pf s → drain pf s = calm s.
Proof. intros Hs. apply drain_calls, (inv_queue _ _ Hs). Qed.

Lemma calm_inv (pf : Platform) (s : Proxy) : inv pf s → inv pf (calm s).
Proof. intros Hs. rewrite <- (drain_calm pf s Hs). apply drain_inv, Hs. Qed.

Lemma calm_quiet (s : Proxy) : microtasks s = [] → calm s = s.
Proof.
  intros Hq. unfold calm. rewrite Hq. simpl. rewrite app_nil_r.
  destruct s; simpl in *; subst; reflexivity.
Qed.

Lemma step_emit (pf : Platform) (e : WorkerEvent) (s : Proxy) :
  inv pf s →
  step pf s (Emit e) =
  match listener pf e (calm s) with
  | inr s1 => inr (drain pf s1)
  | inl err => inl err
  end.
Proof. intros Hs. simpl. rewrite (drain_calm pf s Hs). reflexivity. Qed.

Lemma reject_all_lookup (e : JsError) (l : list ref) :
  ∀ (h : list Promise) (p : ref) (c : Promise),
  h !! p = Some c →
  reject_all e l h !! p =
  Some (if decide (p ∈ l)
        then match settled c with
             | None => done_with (Rejected e)
             | Some _ => c
             end
        else c).
Proof.
  induction l as [|r l IH]; intros h p c Hp.
  - simpl. rewrite Hp. f_equal.
  - change (reject_all e (r :: l) h) with (reject_all e l (settle_heap r (Rejected e) h)).
    destruct (decide (r = p)) as [->|Hne].
    + rewrite (IH _ p _ (settle_heap_eq p (Rejected e) h c Hp)). f_equal.
      rewrite (decide_True (P := p ∈ p :: l)) by left.
      destruct c as [[o|] rs]; simpl; case_decide; reflexivity.
    + rewrite (IH _ p c) by (rewrite settle_heap_ne; done). f_equal.
      destruct (decide (p ∈ l)) as [Hin|Hin].
      * rewrite decide_True by (right; done). reflexivity.
      * rewrite decide_False; [reflexivity|].
        intros [?|?]%elem_of_cons; congruence.
Qed.

Lemma heap_drain (pf : Platform) (s : Proxy) : inv pf s → heap (drain pf s) = heap s.
Proof. intros Hs. rewrite (drain_calm pf s Hs). reflexivity. Qed.

Lemma heap_handleData (pf : Platform) (chunk : string) (s : Proxy) :
  heap (handleData pf chunk s) = heap s.
Proof. unfold handleData. destruct (traceEnabled pf); reflexivity. Qed.

Lemma heap_forward (pf : Platform) (m : string) (a : list Value) (s : Proxy) p c :
  inv pf s → heap s !! p = Some c →
  heap (fst (forward m a s)) !! p = Some c ∨
  (p = 0%nat ∧ settled c = None ∧
   ∃ r, heap (fst (forward m a s)) !! p =
        Some {| settled := None; reactions := reactions c ++ [r] |}).
Proof.
  intros Hs Hc. destruct (currentError s) as [e|] eqn:He.
  { rewrite (forward_crashed m a s e He). eauto. }
  rewrite forward_healthy by done. simpl. rewrite (inv_init _ _ Hs).
  destruct (inv_cell0 _ _ Hs) as ([[o|] rs] & Hc0 & _).
  - rewrite (attach_settled _ _ _ o rs) by (simpl; apply lookup_app_l_Some; done).
    simpl. left. apply lookup_app_l_Some. done.
  - rewrite (attach_pending _ _ _ rs) by (simpl; apply lookup_app_l_Some; done).
    simpl. destruct (decide (p = 0%nat)) as [->|Hne].
    + right. pose proof (lookup_lt_Some _ _ _ Hc0) as Hlen.
      simplify_eq. simpl. repeat split. eexists.
      apply list_lookup_insert_eq. rewrite length_app. lia.
    + left. rewrite list_lookup_insert_ne by done. apply lookup_app_l_Some. done.
Qed.

Lemma heap_dispose (s : Proxy) p c :
  heap s !! p = Some c → heap (fst (dispose s)) !! p = Some c.
Proof.
  intros Hc. destruct (isDisposed s) eqn:Hd.
  - rewrite dispose_disposed by done. done.
  - rewrite dispose_active by done. simpl. apply lookup_app_l_Some. done.
Qed.

Lemma heap_tick (pf : Platform) (s : Proxy) : inv pf s → heap (tick pf s) = heap s.
Proof.
  intros Hs. destruct (microtasks s) as [|j q] eqn:Hq.
  { unfold tick. rewrite Hq. reflexivity. }
  pose proof (inv_queue _ _ Hs) as Hjobs. rewrite Hq in Hjobs.
  apply Forall_cons in Hjobs as [[(c & m & a & Hh) Ht] Hjobs].
  rewrite (tick_call pf s j q c m a Hq Hh Ht). reflexivity.
Qed.

(** The settlement table: a step leaves every promise of the store as it
    was, except that an invocation may add a reaction to the init task
    and that the event settles the promises [settles] lists. *)
Lemma step_cell (pf : Platform) (ev : Event) (s s' : Proxy) (p : ref) (c : Promise) :
  inv pf s → step pf s ev = inr s' → heap s !! p = Some c →
  heap s' !! p = Some c ∨
  (p = 0%nat ∧ settled c = None ∧ (∃ m a, ev = Invoke m a) ∧
   ∃ r, heap s' !! p = Some {| settled := None; reactions := reactions c ++ [r] |}) ∨
  (settled c = None ∧ ∃ o, heap s' !! p = Some (done_with o) ∧ settles s ev p o).
Proof.
  intros Hs Hstep Hc.
  assert (Hsettle : ∀ (t : ref) (o : Settlement) (s1 : Proxy),
             inv pf s1 → heap s1 = settle_heap t o (heap s) →
             (t = p → settles s ev p o) →
             heap (drain pf s1) !! p = Some c ∨
             (p = 0%nat ∧ settled c = None ∧ (∃ m a, ev = Invoke m a) ∧
              ∃ r, heap (drain pf s1) !! p =
                   Some {| settled := None; reactions := reactions c ++ [r] |}) ∨
             (settled c = None ∧ ∃ o', heap (drain pf s1) !! p = Some (done_with o')
                                        ∧ settles s ev p o')).
  { intros t o s1 Hs1 Hheap Hev. rewrite (heap_drain pf s1 Hs1), Hheap.
    destruct (decide (t = p)) as [->|Hne].
    - rewrite (settle_heap_eq p o _ c Hc).
      destruct (settled c) eqn:Hsc; simpl; [left; done|].
      right. right. split; [done|]. exists o. auto.
    - rewrite settle_heap_ne by done. left. done. }
  destruct ev as [m a| | |e].
  - injection Hstep as <-.
    destruct (heap_forward pf m a s p c Hs Hc) as [Hc'|(-> & Hsc & r & Hc')]; [auto|].
    right. left. eauto 10.
  - injection Hstep as <-. left. apply heap_dispose. done.
  - injection Hstep as <-. left. rewrite (heap_tick pf s Hs). done.
  - rewrite (step_emit pf e s Hs) in Hstep. pose proof (calm_inv pf s Hs) as Hcalm.
    destruct e as [[|cid v|cid err| |kind]|chunk|code signal]; simpl in Hstep;
      unfold Task_resolve, Task_reject in Hstep.
    + injection Hstep as <-. rewrite (inv_init _ _ Hs).
      apply (Hsettle 0%nat (Fulfilled undefined)).
      * apply settle_init_inv. done.
      * rewrite heap_settle. reflexivity.
      * intros <-. constructor.
    + destruct (task_at (workerTasks s) cid) as [t|] eqn:Ht; [|discriminate].
      injection Hstep as <-. apply (Hsettle t (Fulfilled v)).
      * apply routed_inv; done.
      * simpl. rewrite heap_settle. reflexivity.
      * intros <-. constructor. done.
    + destruct (task_at (workerTasks s) cid) as [t|] eqn:Ht; [|discriminate].
      injection Hstep as <-. apply (Hsettle t (Rejected (Error err))).
      * apply routed_inv; done.
      * simpl. rewrite heap_settle. reflexivity.
      * intros <-. constructor. done.
    + destruct (disposeTask s) as [t|] eqn:Ht.
      2:{ injection Hstep as <-. left. rewrite (heap_drain pf _ Hcalm). done. }
      injection Hstep as <-.
      pose proof (inv_dispose _ _ Hs) as Hph. unfold dispose_phase in Hph.
      rewrite Ht in Hph. destruct Hph as [Hex Hph].
      destruct (isDisposed s) eqn:Hd.
      * destruct Hph as [_ Hset].
        rewrite settle_settled by done. left.
        rewrite (heap_drain pf _ Hcalm). done.
      * destruct Hph as (_ & p1 & p2 & Hdg). pose proof Hdg as (Hch & Hpos & _).
        rewrite (dispose_chain_runs pf (calm s) t p1 p2 _ Hch eq_refl). simpl.
        destruct (chain_distinct _ _ _ _ Hch) as (Ht1 & Ht2 & H12).
        assert (Hlt : (p < length (heap s))%nat) by (eapply lookup_lt_Some; eauto).
        destruct (decide (p = p2)) as [->|Hn2].
        { right. right. pose proof Hch as (_ & _ & Hp2). rewrite Hc in Hp2. simplify_eq.
          split; [done|]. exists (Fulfilled undefined).
          rewrite list_lookup_insert_eq by (rewrite !length_insert; done).
          split; [done|]. eapply settles_dispose; eauto. rewrite !elem_of_cons; auto. }
        rewrite list_lookup_insert_ne by done.
        destruct (decide (p = p1)) as [->|Hn1].
        { right. right. pose proof Hch as (_ & Hp1 & _). rewrite Hc in Hp1. simplify_eq.
          split; [done|]. exists (Fulfilled undefined).
          rewrite list_lookup_insert_eq by (rewrite !length_insert; done).
          split; [done|]. eapply settles_dispose; eauto. rewrite !elem_of_cons; auto. }
        rewrite list_lookup_insert_ne by done.
        destruct (decide (p = t)) as [->|Hnt].
        { right. right. pose proof Hch as (Hpt & _ & _). rewrite Hc in Hpt. simplify_eq.
          split; [done|]. exists (Fulfilled undefined).
          rewrite list_lookup_insert_eq by done.
          split; [done|]. eapply settles_dispose; eauto. rewrite !elem_of_cons; auto. }
        rewrite list_lookup_insert_ne by done. left. done.
    + injection Hstep as <-. left.
      rewrite (heap_drain pf _ (inv_log pf _ _ _ Hcalm)). done.
    + injection Hstep as <-. left.
      rewrite (heap_drain pf _ (handleData_inv pf _ _ Hcalm)), heap_handleData.
      done.
    + injection Hstep as <-. destruct (exitListener s) eqn:Hex.
      2:{ left. rewrite (heap_drain pf _ Hcalm). done. }
      rewrite (heap_drain pf _ (handleUnexpectedExit_inv pf code signal _ Hcalm Hex)).
      rewrite handleUnexpectedExit_quiet
        by (intros r Hr; apply (inv_tasks _ _ Hcalm); done).
      simpl. rewrite (reject_all_lookup _ _ _ p c Hc).
      case_decide as Hin; [|left; done].
      apply elem_of_unresolved in Hin as [Hin Hun]. simpl in Hin, Hun.
      unfold is_settled in Hun. rewrite Hc in Hun.
      destruct c as [[o|] rs]; [discriminate|]. simpl. right. right.
      split; [done|]. eexists. split; [reflexivity|]. constructor; done.
Qed.

Lemma step_outcome (pf : Platform) (ev : Event) (s s' : Proxy) (p : ref) x :
  inv pf s → step pf s ev = inr s' → outcome s p = Some x →
  outcome s' p = Some x ∨
  (x = None ∧ ∃ o, outcome s' p = Some (Some o) ∧ settles s ev p o).
Proof.
  intros Hs Hstep Hp. unfold outcome in *.
  destruct (heap s !! p) as [c|] eqn:Hc; simpl in Hp; [|discriminate].
  injection Hp as <-.
  destruct (step_cell pf ev s s' p c Hs Hstep Hc)
    as [->|[(_ & Hsc & _ & r & ->)|(Hsc & o & -> & Hset)]]; simpl.
  - left. done.
  - left. rewrite Hsc. done.
  - right. split; [done|]. exists o. done.
Qed.

(** ** What a step leaves alone *)

Lemma job_messages_calls (q : list Job) :
  Forall (fun m => is_Call m = true) (omap job_message q).
Proof.
  apply Forall_forall. intros m (j & _ & Hj)%list_elem_of_omap.
  unfold job_message in Hj. destruct (handler j) as [[c n a|]|]; simplify_eq. done.
Qed.

Lemma settle_frame (p : ref) (o : Settlement) (s : Proxy) :
  ∃ h q, settle p o s = set_microtasks q (set_heap h s) ∧ length h = length (heap s).
Proof.
  unfold settle. destruct (heap s !! p) as [[[o'|] rs]|].
  - exists (heap s), (microtasks s). destruct s; done.
  - eexists _, _. split; [reflexivity|]. apply length_insert.
  - exists (heap s), (microtasks s). destruct s; done.
Qed.

Lemma lastMessagesQueue_handleData (pf : Platform) (chunk : string) (s : Proxy) :
  lastMessagesQueue (handleData pf chunk s) = remember chunk (lastMessagesQueue s).
Proof. unfold handleData, remember. destruct (traceEnabled pf); reflexivity. Qed.

Lemma handleData_frame (pf : Platform) (chunk : string) (s : Proxy) :
  ∃ q l, handleData pf chunk s = set_logged l (set_lastMessagesQueue q s).
Proof.
  unfold handleData. destruct (traceEnabled pf).
  - eexists _, _. reflexivity.
  - exists (remember chunk (lastMessagesQueue s)), (logged s). destruct s; reflexivity.
Qed.

Lemma step_framed (pf : Platform) (ev : Event) (s s' : Proxy) :
  inv pf s → step pf s ev = inr s' → framed ev s s'.
Proof.
  intros Hs Hstep. unfold framed.
  assert (Hnone : ∃ l : list WorkerMessage,
            sent s = sent s ++ l ∧
            (Forall (fun m => is_Call m = true) l ∨
             (ev = CallDispose ∧ isDisposed s = false ∧ l = [Dispose]))).
  { exists []. rewrite app_nil_r. auto. }
  destruct ev as [m a| | |e].
  - injection Hstep as <-. destruct (currentError s) as [e|] eqn:He.
    { rewrite (forward_crashed m a s e He). simpl. rewrite He. repeat split; eauto. }
    rewrite forward_healthy by done. simpl. rewrite (inv_init _ _ Hs).
    destruct (inv_cell0 _ _ Hs) as ([[o|] rs] & Hc0 & _).
    + rewrite (attach_settled _ _ _ o rs) by (simpl; apply lookup_app_l_Some; done).
      simpl. rewrite !length_app. repeat split; auto; try lia; try congruence.
      intros r [?|[= ->]%list_elem_of_singleton]%elem_of_app; auto.
    + rewrite (attach_pending _ _ _ rs) by (simpl; apply lookup_app_l_Some; done).
      simpl. rewrite length_insert, !length_app.
      repeat split; auto; try lia; try congruence.
      intros r [?|[= ->]%list_elem_of_singleton]%elem_of_app; auto.
  - injection Hstep as <-. destruct (isDisposed s) eqn:Hd.
    + rewrite dispose_disposed by done. simpl. repeat split; eauto.
    + rewrite dispose_active by done. simpl. rewrite length_app.
      repeat split; eauto; try lia; try congruence.
      exists [Dispose]. auto.
  - injection Hstep as <-. destruct (microtasks s) as [|j q] eqn:Hq.
    { unfold tick. rewrite Hq. repeat split; eauto. }
    pose proof (inv_queue _ _ Hs) as Hjobs. rewrite Hq in Hjobs.
    apply Forall_cons in Hjobs as [[(c & m & a & Hh) Ht] Hjobs].
    rewrite (tick_call pf s j q c m a Hq Hh Ht). simpl.
    repeat split; eauto.
  - rewrite (step_emit pf e s Hs) in Hstep. pose proof (calm_inv pf s Hs) as Hcalm.
    destruct e as [[|cid v|cid err| |kind]|chunk|code signal]; simpl in Hstep;
      unfold Task_resolve, Task_reject in Hstep.
    + injection Hstep as <-.
      assert (HX : inv pf (settle (initTask s) (Fulfilled undefined) (calm s))).
      { rewrite (inv_init _ _ Hs). apply settle_init_inv. done. }
      rewrite (drain_calm pf _ HX).
      destruct (settle_frame (initTask s) (Fulfilled undefined) (calm s))
        as (h & q & -> & Hlen).
      simpl in *. rewrite Hlen, <- app_assoc.
      repeat split; eauto. eexists. split; [reflexivity|]. left.
      apply Forall_app. split; apply job_messages_calls.
    + destruct (task_at (workerTasks s) cid) as [t|] eqn:Ht; [|discriminate].
      injection Hstep as <-.
      rewrite (drain_calm pf _ (routed_inv pf cid t _ _ Hcalm Ht)).
      destruct (settle_frame t (Fulfilled v) (calm s)) as (h & q & -> & Hlen).
      simpl in *. rewrite Hlen, length_delete_at, <- app_assoc.
      repeat split; eauto.
      * intros r Hr%elem_of_delete_at. auto.
      * eexists. split; [reflexivity|]. left.
        apply Forall_app. split; apply job_messages_calls.
    + destruct (task_at (workerTasks s) cid) as [t|] eqn:Ht; [|discriminate].
      injection Hstep as <-.
      rewrite (drain_calm pf _ (routed_inv pf cid t _ _ Hcalm Ht)).
      destruct (settle_frame t (Rejected (Error err)) (calm s)) as (h & q & -> & Hlen).
      simpl in *. rewrite Hlen, length_delete_at, <- app_assoc.
      repeat split; eauto.
      * intros r Hr%elem_of_delete_at. auto.
      * eexists. split; [reflexivity|]. left.
        apply Forall_app. split; apply job_messages_calls.
    + destruct (disposeTask s) as [t|] eqn:Ht.
      2:{ injection Hstep as <-. rewrite (drain_calm pf _ Hcalm). simpl.
          rewrite app_nil_r. repeat split; eauto; try frame_calls_by job_messages_calls. }
      injection Hstep as <-.
      pose proof (inv_dispose _ _ Hs) as Hph. unfold dispose_phase in Hph.
      rewrite Ht in Hph. destruct Hph as [Hex Hph].
      destruct (isDisposed s) eqn:Hd.
      * destruct Hph as [_ Hset].
        rewrite settle_settled by done. rewrite (drain_calm pf _ Hcalm). simpl.
        rewrite app_nil_r. repeat split; eauto; try frame_calls_by job_messages_calls.
      * destruct Hph as (_ & p1 & p2 & Hch & _).
        rewrite (dispose_chain_runs pf (calm s) t p1 p2 _ Hch eq_refl). simpl.
        rewrite !length_insert. repeat split; eauto; try frame_calls_by job_messages_calls.
    + injection Hstep as <-.
      rewrite (drain_calm pf _ (inv_log pf _ _ _ Hcalm)). simpl.
      rewrite app_nil_r. repeat split; eauto; try frame_calls_by job_messages_calls.
    + injection Hstep as <-.
      rewrite (drain_calm pf _ (handleData_inv pf _ _ Hcalm)).
      pose proof (lastMessagesQueue_handleData pf chunk (calm s)) as Hlast.
      destruct (handleData_frame pf chunk (calm s)) as (q & l & Heq).
      rewrite Heq in *. simpl in *. rewrite app_nil_r.
      repeat split; eauto; try frame_calls_by job_messages_calls.
    + injection Hstep as <-. destruct (exitListener s) eqn:Hex.
      2:{ rewrite (drain_calm pf _ Hcalm). simpl.
          rewrite app_nil_r. repeat split; eauto; try frame_calls_by job_messages_calls. }
      rewrite (drain_calm pf _ (handleUnexpectedExit_inv pf code signal _ Hcalm Hex)).
      rewrite handleUnexpectedExit_quiet
        by (intros r Hr; apply (inv_tasks _ _ Hcalm); done).
      simpl. rewrite app_nil_r. repeat split; eauto.
      * unfold reject_all. generalize (unresolved (calm s)). intros l.
        generalize (heap s). induction l as [|r l IH]; intros h; simpl; [done|].
        rewrite <- IH, length_settle_heap. done.
      * frame_calls_by job_messages_calls.
Qed.

(** ** Closed forms of single events *)

Lemma emit_routed (pf : Platform) (s : Proxy) (c : Z) (t : ref) (m : ParentMessage)
    (o : Settlement) :
  inv pf s → task_at (workerTasks s) c = Some t →
  (∃ v, m = Result c v ∧ o = Fulfilled v) ∨
  (∃ err, m = Rejection c err ∧ o = Rejected (Error err)) →
  step pf s (Emit (message m)) =
  inr (set_workerTasks (delete_at c (workerTasks s))
         (set_heap (settle_heap t o (heap s)) (calm s))).
Proof.
  intros Hs Ht Hm. rewrite (step_emit pf _ s Hs).
  assert (Hq : quiet (heap (calm s)) t)
    by (apply (inv_tasks _ _ Hs), task_at_elem with c; done).
  destruct Hm as [(v & -> & ->)|(err & -> & ->)]; simpl; rewrite Ht;
    unfold Task_resolve, Task_reject; rewrite (settle_quiet _ _ _ Hq); simpl;
    rewrite drain_nil by reflexivity; reflexivity.
Qed.

Lemma emit_unmatched (pf : Platform) (s : Proxy) (c : Z) (m : ParentMessage) :
  inv pf s → task_at (workerTasks s) c = None →
  (∃ v, m = Result c v) ∨ (∃ err, m = Rejection c err) →
  step pf s (Emit (message m)) = inl (TypeError, calm s).
Proof.
  intros Hs Ht Hm. rewrite (step_emit pf _ s Hs).
  destruct Hm as [(v & ->)|(err & ->)]; simpl; rewrite Ht; reflexivity.
Qed.

Lemma emit_exit (pf : Platform) (s : Proxy) code signal :
  inv pf s → exitListener s = true →
  step pf s (Emit (exit code signal)) =
  inr (set_isDisposed true
         (set_heap (reject_all (crash_error code) (unresolved s) (heap s))
            (set_currentError (Some (crash_error code))
               (log Debug (crash_report pf code signal (lastMessagesQueue s))
                  (calm s))))).
Proof.
  intros Hs Hex. rewrite (step_emit pf _ s Hs). simpl. rewrite Hex.
  rewrite handleUnexpectedExit_quiet
    by (intros r Hr; apply (inv_tasks _ _ Hs); done).
  rewrite drain_nil by reflexivity. reflexivity.
Qed.

Lemma emit_initialized (pf : Platform) (s : Proxy) :
  inv pf s →
  step pf s (Emit (message Initialized)) =
  inr (calm (settle 0%nat (Fulfilled undefined) (calm s))).
Proof.
  intros Hs. rewrite (step_emit pf _ s Hs). simpl. unfold Task_resolve.
  rewrite (inv_init _ _ Hs).
  rewrite (drain_calm pf _ (settle_init_inv pf undefined _ (calm_inv pf s Hs))).
  reflexivity.
Qed.

Lemma emit_dispose_completed_idle (pf : Platform) (s : Proxy) :
  inv pf s → disposeTask s = None ∨ isDisposed s = true →
  step pf s (Emit (message DisposeCompleted)) = inr (calm s).
Proof.
  intros Hs Hidle. rewrite (step_emit pf _ s Hs). simpl.
  destruct (disposeTask s) as [t|] eqn:Ht.
  - destruct Hidle as [|Hd]; [discriminate|].
    pose proof (inv_dispose _ _ Hs) as Hph. unfold dispose_phase in Hph.
    rewrite Ht, Hd in Hph. destruct Hph as (_ & _ & Hset).
    unfold Task_resolve. rewrite settle_settled by done.
    rewrite drain_nil by reflexivity. reflexivity.
  - rewrite drain_nil by reflexivity. reflexivity.
Qed.

Lemma emit_dispose_completed (pf : Platform) (s : Proxy) (t p1 p2 : ref) :
  inv pf s → disposeTask s = Some t → chain (heap s) t p1 p2 →
  step pf s (Emit (message DisposeCompleted)) =
  inr (set_microtasks []
         (set_isDisposed true
            (set_killed (killed s ++ [pid pf])
               (set_heap (<[p2 := done_with (Fulfilled undefined)]>
                            (<[p1 := done_with (Fulfilled undefined)]>
                               (<[t := done_with (Fulfilled undefined)]> (heap s))))
                  (calm s))))).
Proof.
  intros Hs Ht Hch. rewrite (step_emit pf _ s Hs). simpl. rewrite Ht.
  unfold Task_resolve.
  rewrite (dispose_chain_runs pf (calm s) t p1 p2 _ Hch eq_refl). reflexivity.
Qed.

(** ** The init handshake gates every call *)

Lemma nothing_else_settles_init (pf : Platform) (s : Proxy) (ev : Event) (o : Settlement) :
  inv pf s → settles s ev 0%nat o → ev = Emit (message Initialized).
Proof.
  intros Hs Hset. inversion Hset as [|c v p Ht|c err p Ht|code signal p Hex Hin
                                     |t p1 p2 p Ht Hd Hdg Hin]; subst; try done.
  - apply task_at_elem, (inv_tasks _ _ Hs) in Ht as [Hpos _]. lia.
  - apply task_at_elem, (inv_tasks _ _ Hs) in Ht as [Hpos _]. lia.
  - apply (inv_tasks _ _ Hs) in Hin as [Hpos _]. lia.
  - destruct Hdg as (Hch & Hpos & _).
    destruct (inv_cell0 _ _ Hs) as (c0 & Hc0 & Hcall & _).
    destruct (chain_not_init _ _ _ _ _ Hch Hc0 Hcall).
    rewrite !elem_of_cons in Hin. destruct Hin as [?|[?|[?|Hin]]]; try lia.
    inversion Hin.
Qed.

Lemma init_pending_run (pf : Platform) (evs : list Event) :
  ∀ s s', inv pf s → outcome s 0%nat = Some None →
  Emit (message Initialized) ∉ evs → run pf s evs = inr s' →
  outcome s' 0%nat = Some None.
Proof.
  induction evs as [|ev evs IH]; intros s s' Hs Hp Hnot Hrun; simpl in Hrun.
  - injection Hrun as <-. done.
  - destruct (step pf s ev) as [err|s1] eqn:Hstep; [discriminate|].
    apply not_elem_of_cons in Hnot as [Hne Hnot].
    apply (IH s1 s'); try done.
    + eapply step_inv; eauto.
    + destruct (step_outcome pf ev s s1 0%nat None Hs Hstep Hp)
        as [Hsame|(_ & o & _ & Hset)]; [done|].
      apply (nothing_else_settles_init pf) in Hset; done.
Qed.

Lemma no_calls_sent (l : list WorkerMessage) :
  omap message_call l = [] → Forall (fun m => is_Call m = false) l.
Proof.
  induction l as [|m l IH]; simpl; [constructor|].
  destruct m; simpl; try discriminate; intros H; constructor; auto.
Qed.

(** C1. For every sequence of events from the construction of the proxy
    in which no Initialized message has arrived, however many methods
    were invoked: the init task is pending, no Call message is on the
    channel, none is queued as a microtask, and the calls invoked so far
    wait on the init task, in the order of their invocation.  In every
    state of the proxy, a Call message on the channel means that the init
    task has been settled; and when Initialized arrives, the Call
    messages of all invocations made so far are on the channel once its
    listener and the microtasks are done. *)
Theorem no_call_before_initialized (pf : Platform) rp lc pl wd cp
    (evs : list Event) (s : Proxy) :
  run pf (create rp lc pl wd cp) evs = inr s →
  (Emit (message Initialized) ∉ evs →
   outcome s (initTask s) = Some None ∧
   Forall (fun m => is_Call m = false) (sent s) ∧
   microtasks s = [] ∧
   omap reaction_call (waiting s) = seqZ 0 (Z.of_nat (length (workerTasks s)))) ∧
  ((∃ m, m ∈ sent s ∧ is_Call m = true) →
   is_settled (heap s) (initTask s) = true) ∧
  (∃ s', step pf s (Emit (message Initialized)) = inr s' ∧
         is_settled (heap s') (initTask s') = true ∧
         omap message_call (sent s') = seqZ 0 (Z.of_nat (length (workerTasks s)))).
Proof.
  intros Hrun.
  assert (Hs : inv pf s) by (eapply run_inv; [apply create_inv | exact Hrun]).
  pose proof (inv_init _ _ Hs) as H0. rewrite H0.
  split; [|split].
  - intros Hnot.
    assert (Hp : outcome s 0%nat = Some None).
    { eapply init_pending_run; [apply (create_inv pf)| |exact Hnot|exact Hrun].
      reflexivity. }
    assert (Hun : is_settled (heap s) 0%nat = false).
    { unfold outcome in Hp. unfold is_settled.
      destruct (heap s !! 0%nat) as [[[o|] rs]|]; simplify_eq; done. }
    destruct (inv_gate _ _ Hs Hun) as [Hq Hsent].
    repeat split; auto using no_calls_sent.
    pose proof (inv_ids _ _ Hs) as Hids. unfold scheduled in Hids.
    rewrite Hsent, Hq in Hids. exact Hids.
  - intros (m & Hm & Hcall).
    destruct (is_settled (heap s) 0%nat) eqn:Hset; [done|].
    destruct (inv_gate _ _ Hs Hset) as [_ Hsent].
    apply no_calls_sent in Hsent. rewrite Forall_forall in Hsent.
    rewrite (Hsent m Hm) in Hcall. discriminate.
  - eexists. split; [apply emit_initialized; exact Hs|].
    assert (Hs' : inv pf (calm (settle 0%nat (Fulfilled undefined) (calm s)))).
    { apply calm_inv, settle_init_inv, calm_inv, Hs. }
    assert (Hset : is_settled (heap (calm (settle 0%nat (Fulfilled undefined) (calm s))))
                     0%nat = true).
    { simpl. rewrite heap_settle. apply settle_heap_settles.
      destruct (inv_cell0 _ _ Hs) as (c0 & Hc0 & _).
      simpl. eapply lookup_lt_Some; eauto. }
    rewrite (inv_init _ _ Hs'). split; [exact Hset|].
    pose proof (inv_ids _ _ Hs') as Hids. unfold scheduled, waiting in Hids.
    rewrite (inv_init _ _ Hs') in Hids.
    destruct (inv_cell0 _ _ Hs') as (c0 & Hc0 & _ & Hnil).
    rewrite Hc0 in Hids. unfold is_settled in Hset. rewrite Hc0 in Hset.
    destruct c0 as [[o|] rs]; [|discriminate].
    destruct (Hnil o eq_refl) as [Hrs _]. simpl in Hrs. subst rs.
    change (microtasks (calm (settle 0%nat (Fulfilled undefined) (calm s)))) with (@nil Job) in Hids.
    simpl in Hids. rewrite !app_nil_r in Hids. simpl. rewrite Hids.
    destruct (settle_frame 0%nat (Fulfilled undefined) (calm s)) as (h & q & -> & _).
    reflexivity.
Qed.


Lemma no_call_before_initialized_witness :
  run linux fresh before_init = inr (final linux fresh before_init) ∧
  sent (final linux fresh before_init) =
    [Init undefined ["stryker-jest-runner"] "./JestTestRunner" [data "{}"] "/tmp/project"] ∧
  ∃ s', step linux (final linux fresh before_init) (Emit (message Initialized)) = inr s' ∧
        omap message_call (sent s') = [0; 1].
Proof.
  split; [vm_compute; reflexivity|]. split; [vm_compute; reflexivity|].
  destruct (no_call_before_initialized linux "./JestTestRunner" undefined
              ["stryker-jest-runner"] "/tmp/project" [data "{}"] before_init
              (final linux fresh before_init)) as (_ & _ & s' & Hstep & _ & Hsent).
  { vm_compute. reflexivity. }
  exists s'. split; [exact Hstep|]. rewrite Hsent. vm_compute. reflexivity.
Defined.

(** ** Calls on a crashed proxy *)

Lemma run_framed_error (pf : Platform) (evs : list Event) :
  ∀ s s' e, inv pf s → currentError s = Some e → run pf s evs = inr s' →
  ∃ e', currentError s' = Some e'.
Proof.
  induction evs as [|ev evs IH]; intros s s' e Hs He Hrun; simpl in Hrun.
  - injection Hrun as <-. eauto.
  - destruct (step pf s ev) as [err|s1] eqn:Hstep; [discriminate|].
    destruct (step_framed pf ev s s1 Hs Hstep) as (_ & _ & _ & _ & _ & _ & _ & Herr).
    destruct (Herr e He) as [e1 He1].
    eapply (IH s1 s' e1); eauto using step_inv.
Qed.

(** C2. While a fatal error is cached, a method invoked on the proxy
    returns a promise that is rejected already, with that very error,
    and leaves the proxy exactly as it was: no record is added to the
    table of worker tasks, nothing is sent and nothing is scheduled, so
    that the rest of the run is the same as without the invocation.  A
    cached error stays cached, so this holds of every later call. *)
Theorem call_after_crash_rejected (pf : Platform) (s : Proxy) (e : JsError)
    (m : string) (a : list Value) :
  reachable pf s → currentError s = Some e →
  forward m a s = (s, Settled (Rejected e)) ∧
  (∀ evs, run pf s (Invoke m a :: evs) = run pf s evs) ∧
  (∀ evs s', run pf s evs = inr s' →
     ∃ e', currentError s' = Some e' ∧
           ∀ m' a', forward m' a' s' = (s', Settled (Rejected e'))).
Proof.
  intros Hreach He. split; [apply forward_crashed; done|]. split.
  - intros evs. simpl. rewrite (forward_crashed m a s e He). reflexivity.
  - intros evs s' Hrun.
    destruct (run_framed_error pf evs s s' e (reachable_inv pf s Hreach) He Hrun)
      as [e' He'].
    exists e'. split; [done|]. intros m' a'. apply forward_crashed. done.
Qed.


Lemma call_after_crash_rejected_witness :
  forward "run" [] (final linux fresh crashed) =
  (final linux fresh crashed,
   Settled (Rejected (StrykerError "Child process exited unexpectedly (code 139)"))).
Proof.
  apply (call_after_crash_rejected linux).
  - exists "./JestTestRunner", undefined, ["stryker-jest-runner"], "/tmp/project",
      [data "{}"], crashed. vm_compute. reflexivity.
  - vm_compute. reflexivity.
Defined.

(** ** Replies that match no record *)

(** C4, as the code has it.  A Result or a Rejection whose correlation
    id has no record in the table of worker tasks (the index is negative
    or out of range, or the record was deleted) is not ignored: reading
    [resolve] or [reject] of [undefined] throws a TypeError out of the
    message listener.  It is thrown before the listener changes
    anything: the proxy is left as it was when the listener started, so
    no pending call is affected. *)
Theorem unmatched_reply_throws (pf : Platform) (s : Proxy) (c : Z) :
  reachable pf s → task_at (workerTasks s) c = None →
  (∀ v, onMessage (Result c v) s = inl (TypeError, s)) ∧
  (∀ err, onMessage (Rejection c err) s = inl (TypeError, s)) ∧
  (∀ v, step pf s (Emit (message (Result c v))) = inl (TypeError, calm s)) ∧
  (∀ err, step pf s (Emit (message (Rejection c err))) = inl (TypeError, calm s)) ∧
  heap (calm s) = heap s ∧ workerTasks (calm s) = workerTasks s ∧
  (microtasks s = [] → calm s = s).
Proof.
  intros Hreach Ht. pose proof (reachable_inv pf s Hreach) as Hs.
  repeat split.
  - intros v. simpl. rewrite Ht. reflexivity.
  - intros err. simpl. rewrite Ht. reflexivity.
  - intros v. apply (emit_unmatched pf s c); eauto.
  - intros err. apply (emit_unmatched pf s c); eauto.
  - apply calm_quiet.
Qed.

Lemma unmatched_reply_throws_witness :
  step linux fresh (Emit (message (Rejection 7 "boom"))) = inl (TypeError, fresh).
Proof.
  destruct (unmatched_reply_throws linux fresh 7) as (_ & _ & _ & Hstep & _).
  - exists "./JestTestRunner", undefined, ["stryker-jest-runner"], "/tmp/project",
      [data "{}"], []. reflexivity.
  - reflexivity.
  - apply Hstep.
Defined.

(** C4 as stated fails: on a proxy that has just been created, a Result
    for correlation id 0 matches no record, and the message listener
    throws; so does the second of two Results for the same call, whose
    record the first has deleted. *)
Lemma unmatched_result_not_ignored :
  onMessage (Result 0 (data "5")) fresh = inl (TypeError, fresh) ∧
  run linux fresh [Emit (message (Result 0 (data "5")))] = inl (TypeError, fresh) ∧
  run linux fresh replies_twice = inl (TypeError, final linux fresh replies_twice) ∧
  workerTasks (final linux fresh replies_twice) = [None].
Proof. vm_compute. repeat split. Qed.

(** ** Correlation ids *)

Lemma task_at_snoc (tasks : list (option ref)) (p : ref) :
  task_at (tasks ++ [Some p]) (Z.of_nat (length tasks)) = Some p.
Proof.
  unfold task_at. destruct (Z.of_nat (length tasks) <? 0) eqn:Hneg;
    [apply Z.ltb_lt in Hneg; lia|].
  rewrite Nat2Z.id, list_lookup_middle; done.
Qed.

Lemma task_at_deleted (tasks : list (option ref)) (c : Z) :
  task_at (delete_at c tasks) c = None.
Proof.
  unfold task_at, delete_at. destruct (c <? 0); [done|].
  destruct (decide (Z.to_nat c < length tasks)%nat) as [Hlt|Hge].
  - rewrite list_lookup_insert_eq by done. done.
  - rewrite lookup_ge_None_2; [done|]. rewrite length_insert. lia.
Qed.

Lemma workerTasks_forward (m : string) (a : list Value) (s : Proxy) :
  currentError s = None →
  workerTasks (fst (forward m a s)) = workerTasks s ++ [Some (length (heap s))].
Proof.
  intros He. rewrite forward_healthy by done. simpl. unfold attach. simpl.
  destruct ((heap s ++ [pending]) !! initTask s) as [[[o|] rs]|]; reflexivity.
Qed.

(** C9. On a healthy proxy that has handed out the correlation ids
    [0 .. n-1] (each of them once, whether its Call has been sent, is
    queued or waits for the init task), an invocation hands out [n]: the
    length of the table of worker tasks, strictly greater than every id
    handed out before.  Its record goes to position [n] of the table,
    and its promise is pending.  No step ever shortens the table, so an
    id is never handed out twice, let alone while its call is pending.
    Once a Result or a Rejection has been routed to its record, the
    record is gone from the table. *)
Theorem correlation_ids_increase (pf : Platform) (s : Proxy) (m : string)
    (a : list Value) :
  reachable pf s → currentError s = None →
  let n := Z.of_nat (length (workerTasks s)) in
  let s' := fst (forward m a s) in
  scheduled s = seqZ 0 n ∧
  scheduled s' = scheduled s ++ [n] ∧
  (∀ c, c ∈ scheduled s → 0 ≤ c < n) ∧
  NoDup (scheduled s') ∧
  (∃ p, snd (forward m a s) = Stored p ∧
        task_at (workerTasks s') n = Some p ∧ outcome s' p = Some None) ∧
  (∀ ev s2, step pf s ev = inr s2 →
     (length (workerTasks s) ≤ length (workerTasks s2))%nat) ∧
  (∀ c v, is_Some (task_at (workerTasks s) c) →
     ∃ s2, step pf s (Emit (message (Result c v))) = inr s2 ∧
           task_at (workerTasks s2) c = None ∧
           length (workerTasks s2) = length (workerTasks s)) ∧
  (∀ c err, is_Some (task_at (workerTasks s) c) →
     ∃ s2, step pf s (Emit (message (Rejection c err))) = inr s2 ∧
           task_at (workerTasks s2) c = None ∧
           length (workerTasks s2) = length (workerTasks s)).
Proof.
  intros Hreach He n s'. pose proof (reachable_inv pf s Hreach) as Hs.
  assert (Hs' : inv pf s') by (apply forward_inv; done).
  pose proof (inv_ids _ _ Hs) as Hids. pose proof (inv_ids _ _ Hs') as Hids'.
  assert (Htab : workerTasks s' = workerTasks s ++ [Some (length (heap s))])
    by (apply workerTasks_forward; done).
  rewrite Htab, length_app in Hids'. simpl in Hids'.
  replace (length (workerTasks s) + 1)%nat with (S (length (workerTasks s))) in Hids' by lia.
  rewrite seqZ_S, Z.add_0_l in Hids'. fold n in Hids, Hids'.
  split; [done|]. split; [rewrite Hids; done|]. split.
  { intros c Hc. rewrite Hids in Hc. apply elem_of_seqZ in Hc. lia. }
  split.
  { rewrite (inv_ids _ _ Hs'). apply NoDup_seqZ. }
  split.
  { exists (length (heap s)). subst s'. rewrite forward_healthy by done.
    split; [reflexivity|]. fold (fst (forward m a s)) in Htab. simpl.
    rewrite forward_healthy in Htab by done. simpl in Htab. rewrite Htab.
    split; [apply task_at_snoc|].
    destruct (inv_cell0 _ _ Hs) as (c0 & Hc0 & _).
    pose proof (lookup_lt_Some _ _ _ Hc0) as Hlen.
    unfold outcome, attach. simpl. rewrite (inv_init _ _ Hs).
    rewrite (lookup_app_l_Some _ _ _ _ Hc0).
    destruct c0 as [[o|] rs]; simpl.
    - rewrite list_lookup_middle; done.
    - rewrite list_lookup_insert_ne by lia. rewrite list_lookup_middle; done. }
  split.
  { intros ev s2 Hstep. apply (step_framed pf ev s s2 Hs Hstep). }
  split.
  - intros c v [t Ht]. eexists. split.
    + apply (emit_routed pf s c t _ (Fulfilled v)); eauto.
    + simpl. split; [apply task_at_deleted | apply length_delete_at].
  - intros c err [t Ht]. eexists. split.
    + apply (emit_routed pf s c t _ (Rejected (Error err))); eauto.
    + simpl. split; [apply task_at_deleted | apply length_delete_at].
Qed.


Lemma correlation_ids_increase_witness :
  scheduled (fst (forward "run" [] (final linux fresh two_calls))) = [0; 1; 2].
Proof.
  destruct (correlation_ids_increase linux (final linux fresh two_calls) "run" [])
    as (Hids & Hnext & _).
  - exists "./JestTestRunner", undefined, ["stryker-jest-runner"], "/tmp/project",
      [data "{}"], two_calls. vm_compute. reflexivity.
  - vm_compute. reflexivity.
  - rewrite Hnext, Hids. vm_compute. reflexivity.
Defined.

(** ** DisposeCompleted without a disposal *)

Lemma disposeTask_run (pf : Platform) (evs : list Event) :
  ∀ s s', inv pf s → CallDispose ∉ evs → run pf s evs = inr s' →
  disposeTask s' = disposeTask s.
Proof.
  induction evs as [|ev evs IH]; intros s s' Hs Hnot Hrun; simpl in Hrun.
  - injection Hrun as <-. done.
  - destruct (step pf s ev) as [err|s1] eqn:Hstep; [discriminate|].
    apply not_elem_of_cons in Hnot as [Hne Hnot].
    destruct (step_framed pf ev s s1 Hs Hstep) as (Hdt & _).
    rewrite <- Hdt by done. apply IH; eauto using step_inv.
Qed.

(** C10. As long as [dispose()] has not been called there is no dispose
    task, and a DisposeCompleted message changes nothing: its listener
    returns the proxy as it found it, without an exception.  (As with
    every event of the worker, the microtasks that were queued before it
    have run by the time its listener starts; the message adds none.) *)
Theorem unsolicited_dispose_completed_ignored (pf : Platform) rp lc pl wd cp
    (evs : list Event) (s : Proxy) :
  run pf (create rp lc pl wd cp) evs = inr s → CallDispose ∉ evs →
  disposeTask s = None ∧
  onMessage DisposeCompleted s = inr s ∧
  step pf s (Emit (message DisposeCompleted)) = inr (calm s) ∧
  (microtasks s = [] → step pf s (Emit (message DisposeCompleted)) = inr s).
Proof.
  intros Hrun Hnot.
  assert (Hs : inv pf s) by (eapply run_inv; [apply create_inv | exact Hrun]).
  assert (Hdt : disposeTask s = None).
  { rewrite (disposeTask_run pf evs _ s (create_inv pf rp lc pl wd cp) Hnot Hrun).
    reflexivity. }
  split; [done|]. split; [simpl; rewrite Hdt; reflexivity|].
  assert (Hstep : step pf s (Emit (message DisposeCompleted)) = inr (calm s))
    by (apply emit_dispose_completed_idle; auto).
  split; [done|]. intros Hq. rewrite Hstep, calm_quiet; done.
Qed.

Lemma unsolicited_dispose_completed_ignored_witness :
  step linux (final linux fresh two_calls) (Emit (message DisposeCompleted)) =
  inr (final linux fresh two_calls).
Proof.
  destruct (unsolicited_dispose_completed_ignored linux "./JestTestRunner" undefined
              ["stryker-jest-runner"] "/tmp/project" [data "{}"] two_calls
              (final linux fresh two_calls)) as (_ & _ & _ & Hstep).
  - vm_compute. reflexivity.
  - unfold two_calls. rewrite !not_elem_of_cons. repeat split; try discriminate.
    apply not_elem_of_nil.
  - apply Hstep. vm_compute. reflexivity.
Defined.

(** ** The crash handler *)

Lemma run_outcome_stable (pf : Platform) (evs : list Event) :
  ∀ s s' p o, inv pf s → outcome s p = Some (Some o) → run pf s evs = inr s' →
  outcome s' p = Some (Some o).
Proof.
  induction evs as [|ev evs IH]; intros s s' p o Hs Hp Hrun; simpl in Hrun.
  - injection Hrun as <-. done.
  - destruct (step pf s ev) as [err|s1] eqn:Hstep; [discriminate|].
    apply (IH s1 s'); eauto using step_inv.
    destruct (step_outcome pf ev s s1 p _ Hs Hstep Hp) as [Hsame|[Hx _]]; done.
Qed.

Lemma unresolved_nil (s : Proxy) :
  (∀ r, Some r ∈ workerTasks s → is_settled (heap s) r = true) → unresolved s = [].
Proof.
  intros Hall. destruct (unresolved s) as [|r l] eqn:Hun; [done|].
  assert (Hr : r ∈ unresolved s) by (rewrite Hun; left).
  apply elem_of_unresolved in Hr as [Hin Hset]. rewrite (Hall r Hin) in Hset.
  discriminate.
Qed.

Lemma crash_settles_all (pf : Platform) (s : Proxy) (e : JsError) (r : ref) :
  inv pf s → Some r ∈ workerTasks s →
  is_settled (reject_all e (unresolved s) (heap s)) r = true.
Proof.
  intros Hs Hr. destruct (inv_tasks _ _ Hs r Hr) as [_ (c & Hc & _)].
  unfold is_settled. rewrite (reject_all_lookup e _ _ r c Hc).
  case_decide as Hin.
  - destruct c as [[o|] rs]; done.
  - rewrite elem_of_unresolved in Hin. unfold is_settled in Hin. rewrite Hc in Hin.
    destruct c as [[o|] rs]; [done|]. exfalso. apply Hin. done.
Qed.

Lemma delete_at_keeps (tasks : list (option ref)) (c : Z) (t p : ref) :
  task_at tasks c = Some t → Some p ∈ tasks → Some p ∈ delete_at c tasks ∨ p = t.
Proof.
  unfold task_at, delete_at. destruct (c <? 0); [discriminate|].
  destruct (tasks !! Z.to_nat c) as [[t'|]|] eqn:Hc; simpl; try discriminate.
  intros [= ->] (i & Hi)%list_elem_of_lookup.
  destruct (decide (i = Z.to_nat c)) as [->|Hne].
  - right. congruence.
  - left. apply list_elem_of_lookup. exists i.
    rewrite list_lookup_insert_ne by done. done.
Qed.

Lemma step_settled_stays (pf : Platform) (ev : Event) (s s' : Proxy) (p : ref) :
  inv pf s → step pf s ev = inr s' →
  is_settled (heap s) p = true → is_settled (heap s') p = true.
Proof.
  intros Hs Hstep Hp. unfold is_settled in *.
  destruct (heap s !! p) as [c|] eqn:Hc; [|discriminate].
  destruct (step_cell pf ev s s' p c Hs Hstep Hc)
    as [->|[(_ & Hsc & _)|(Hsc & _)]]; [done| |];
    destruct c as [[o|] rs]; simpl in *; discriminate.
Qed.

Lemma step_accounted (pf : Platform) (ev : Event) (s s' : Proxy) (ps : list ref) :
  inv pf s → step pf s ev = inr s' → accounted s ps →
  accounted s' (ps ++ forwarded ev s).
Proof.
  intros Hs Hstep Hacc p [Hp|Hp]%elem_of_app.
  - destruct (Hacc p Hp) as [Hin|Hset];
      [|right; eapply step_settled_stays; eauto].
    destruct ev as [m a| | |e].
    + injection Hstep as <-. left. destruct (currentError s) as [e|] eqn:He.
      * rewrite (forward_crashed m a s e He). done.
      * rewrite workerTasks_forward by done. apply elem_of_app. auto.
    + injection Hstep as <-. left. destruct (isDisposed s) eqn:Hd.
      * rewrite dispose_disposed by done. done.
      * rewrite dispose_active by done. done.
    + injection Hstep as <-. left. destruct (microtasks s) as [|j q] eqn:Hq.
      { unfold tick. rewrite Hq. done. }
      pose proof (inv_queue _ _ Hs) as Hjobs. rewrite Hq in Hjobs.
      apply Forall_cons in Hjobs as [[(c & m & a & Hh) Ht] Hjobs].
      rewrite (tick_call pf s j q c m a Hq Hh Ht). done.
    + assert (Hkeep : workerTasks s' = workerTasks s → Some p ∈ workerTasks s' ∨
                        is_settled (heap s') p = true)
        by (intros ->; auto).
      assert (Hrouted : ∀ c t o,
                task_at (workerTasks s) c = Some t →
                s' = set_workerTasks (delete_at c (workerTasks s))
                       (set_heap (settle_heap t o (heap s)) (calm s)) →
                Some p ∈ workerTasks s' ∨ is_settled (heap s') p = true).
      { intros c t o Ht ->. simpl.
        destruct (delete_at_keeps _ c t p Ht Hin) as [?| ->]; [auto|].
        right. apply settle_heap_settles.
        destruct (inv_tasks _ _ Hs t Hin) as [_ Hq]. apply quiet_lt. done. }
      destruct e as [[|c v|c err| |kind]|chunk|code signal].
      * rewrite (emit_initialized pf s Hs) in Hstep. injection Hstep as <-.
        apply Hkeep. simpl.
        destruct (settle_frame 0%nat (Fulfilled undefined) (calm s)) as (h & q & -> & _).
        reflexivity.
      * destruct (task_at (workerTasks s) c) as [t|] eqn:Ht.
        -- rewrite (emit_routed pf s c t _ (Fulfilled v) Hs Ht) in Hstep by eauto.
           injection Hstep as <-. eapply Hrouted; eauto.
        -- rewrite (emit_unmatched pf s c _ Hs Ht) in Hstep by eauto. discriminate.
      * destruct (task_at (workerTasks s) c) as [t|] eqn:Ht.
        -- rewrite (emit_routed pf s c t _ (Rejected (Error err)) Hs Ht) in Hstep
             by eauto.
           injection Hstep as <-. eapply Hrouted; eauto.
        -- rewrite (emit_unmatched pf s c _ Hs Ht) in Hstep by eauto. discriminate.
      * apply Hkeep. destruct (step_framed pf _ s s' Hs Hstep) as (_ & Htab & Hlen & _).
        clear Hkeep Hrouted. rewrite (step_emit pf _ s Hs) in Hstep. simpl in Hstep.
        destruct (disposeTask s) as [t|] eqn:Ht.
        -- injection Hstep as <-. unfold Task_resolve.
           assert (Hfr : ∀ x, workerTasks (drain pf x) = workerTasks x).
           { intros x. apply (drain_ind pf (fun y => workerTasks y = workerTasks x));
               [|done].
             intros y <-. unfold tick. destruct (microtasks y) as [|j q]; [done|].
             unfold run_job. destruct (handler j) as [[]|], (target j); simpl;
               try reflexivity;
               match goal with |- context [settle ?a ?b ?c] =>
                 destruct (settle_frame a b c) as (h' & q' & -> & _)
               end; reflexivity. }
           rewrite Hfr.
           destruct (settle_frame t (Fulfilled undefined) (calm s)) as (h & q & -> & _).
           reflexivity.
        -- injection Hstep as <-. rewrite drain_nil by reflexivity. reflexivity.
      * rewrite (step_emit pf _ s Hs) in Hstep. simpl in Hstep.
        injection Hstep as <-. apply Hkeep. rewrite drain_nil by reflexivity. reflexivity.
      * rewrite (step_emit pf _ s Hs) in Hstep. simpl in Hstep.
        injection Hstep as <-. apply Hkeep.
        destruct (handleData_frame pf chunk (calm s)) as (q & l & ->).
        rewrite drain_nil by reflexivity. reflexivity.
      * destruct (exitListener s) eqn:Hex.
        -- rewrite (emit_exit pf s code signal Hs Hex) in Hstep. injection Hstep as <-.
           apply Hkeep. reflexivity.
        -- rewrite (step_emit pf _ s Hs) in Hstep. simpl in Hstep. rewrite Hex in Hstep.
           injection Hstep as <-. apply Hkeep. rewrite drain_nil by reflexivity.
           reflexivity.
  - left. destruct ev as [m a| | |e]; simpl in Hp; try (inversion Hp; fail).
    injection Hstep as <-. destruct (currentError s) as [e|] eqn:He.
    + rewrite (forward_crashed m a s e He) in Hp. inversion Hp.
    + rewrite workerTasks_forward by done.
      rewrite forward_healthy in Hp by done. simpl in Hp.
      apply list_elem_of_singleton in Hp as ->. apply elem_of_app. right. left.
Qed.

Lemma run_accounted (pf : Platform) (evs : list Event) :
  ∀ s s' ps, inv pf s → accounted s ps → run pf s evs = inr s' →
  accounted s' (ps ++ calls pf s evs).
Proof.
  induction evs as [|ev evs IH]; intros s s' ps Hs Hacc Hrun; simpl in *.
  - injection Hrun as <-. rewrite app_nil_r. done.
  - destruct (step pf s ev) as [err|s1] eqn:Hstep; [discriminate|].
    rewrite app_assoc. apply (IH s1 s'); eauto using step_inv, step_accounted.
Qed.

Lemma reject_all_pending (e : JsError) (s : Proxy) (r : ref) :
  Some r ∈ workerTasks s → outcome s r = Some None →
  settled <$> reject_all e (unresolved s) (heap s) !! r = Some (Some (Rejected e)).
Proof.
  intros Hr Hp. unfold outcome in Hp.
  destruct (heap s !! r) as [c|] eqn:Hc; [|discriminate].
  rewrite (reject_all_lookup _ _ _ r c Hc).
  destruct c as [[o|] rs]; [discriminate|]. simpl.
  rewrite decide_True; [done|]. apply elem_of_unresolved. split; [done|].
  unfold is_settled. rewrite Hc. done.
Qed.

Lemma reject_all_settled (e : JsError) (l : list ref) :
  ∀ h p, is_settled h p = true → is_settled (reject_all e l h) p = true.
Proof.
  induction l as [|r l IH]; intros h p Hp; [done|].
  apply IH, settle_heap_settled, Hp.
Qed.

(** C3, as the code has it.  When the worker exits while the exit
    listener is in place, the handler completes (also with no call
    pending), caches the fatal error and marks the handle disposed;
    every record of the table whose call is pending is rejected with
    that error, a call that was settled before keeps its outcome, no
    call of the table and no call that was ever forwarded is left
    pending, and no later event changes the outcome of a settled call:
    every call settles exactly once.  The handler is not guarded to run
    once: should the exit event fire again, it runs again; that run
    rejects nothing and leaves the store and the table as they are, but
    it logs again and replaces the cached error by a new one made from
    the new exit code. *)
Theorem crash_rejects_pending_calls (pf : Platform) rp lc pl wd cp
    (evs : list Event) (s : Proxy) code signal :
  run pf (create rp lc pl wd cp) evs = inr s → exitListener s = true →
  ∃ s', step pf s (Emit (exit code signal)) = inr s' ∧
    currentError s' = Some (crash_error code) ∧
    isDisposed s' = true ∧
    workerTasks s' = workerTasks s ∧
    (∀ r, Some r ∈ workerTasks s → outcome s r = Some None →
          outcome s' r = Some (Some (Rejected (crash_error code)))) ∧
    (∀ p o, outcome s p = Some (Some o) → outcome s' p = Some (Some o)) ∧
    (∀ r, Some r ∈ workerTasks s' → is_settled (heap s') r = true) ∧
    (∀ p, p ∈ calls pf (create rp lc pl wd cp) evs → is_settled (heap s') p = true) ∧
    (unresolved s = [] → heap s' = heap s) ∧
    (∀ evs s2 p o, run pf s' evs = inr s2 → outcome s' p = Some (Some o) →
                   outcome s2 p = Some (Some o)) ∧
    (∀ code2 signal2,
       ∃ s2, step pf s' (Emit (exit code2 signal2)) = inr s2 ∧
         heap s2 = heap s' ∧ workerTasks s2 = workerTasks s' ∧
         isDisposed s2 = true ∧
         currentError s2 = Some (crash_error code2) ∧
         logged s2 = logged s' ++
           [(Debug, crash_report pf code2 signal2 (lastMessagesQueue s'))]).
Proof.
  intros Hrun Hex.
  assert (Hs : inv pf s) by (eapply run_inv; [apply create_inv | exact Hrun]).
  pose proof (emit_exit pf s code signal Hs Hex) as Hstep.
  eexists. split; [exact Hstep|].
  pose proof (step_inv pf _ _ _ Hs Hstep) as Hs'.
  simpl. repeat split.
  - intros r Hr Hp. apply reject_all_pending; done.
  - intros p o Hp. unfold outcome in *. simpl.
    destruct (heap s !! p) as [c|] eqn:Hc; [|discriminate].
    rewrite (reject_all_lookup _ _ _ p c Hc).
    destruct c as [[o'|] rs]; [|discriminate]. simpl in *.
    case_decide; done.
  - intros r Hr. apply crash_settles_all with pf; done.
  - intros p Hp.
    assert (Hacc : accounted s ([] ++ calls pf (create rp lc pl wd cp) evs)).
    { apply (run_accounted pf evs (create rp lc pl wd cp)); [apply create_inv| |done].
      intros q Hq. inversion Hq. }
    destruct (Hacc p Hp) as [Hin|Hset].
    + apply crash_settles_all with pf; done.
    + apply reject_all_settled. done.
  - intros ->. reflexivity.
  - intros evs' s2 p o Hrun' Hp. eapply run_outcome_stable; eauto.
  - intros code2 signal2.
    eexists. split; [apply emit_exit; [exact Hs'|exact Hex]|].
    simpl.
    match goal with |- context [unresolved ?x] =>
      assert (Hnil : unresolved x = [])
    end.
    { apply unresolved_nil. simpl. intros r Hr. apply crash_settles_all with pf; done. }
    rewrite Hnil. repeat split.
Qed.

Lemma crash_rejects_pending_calls_witness :
  ∃ s', step linux (final linux fresh one_pending_call) (Emit (exit (Some 1) None))
        = inr s' ∧
        outcome s' 1%nat =
        Some (Some (Rejected (StrykerError
                                "Child process exited unexpectedly (code 1)"))).
Proof.
  destruct (crash_rejects_pending_calls linux "./JestTestRunner" undefined
              ["stryker-jest-runner"] "/tmp/project" [data "{}"] one_pending_call
              (final linux fresh one_pending_call)
              (Some 1) None) as (s' & Hstep & _ & _ & _ & Hrej & _).
  - vm_compute. reflexivity.
  - vm_compute. reflexivity.
  - exists s'. split; [exact Hstep|]. apply Hrej.
    + vm_compute. apply list_elem_of_here.
    + vm_compute. reflexivity.
Defined.

(** C3 as stated fails: when the exit event fires twice the handler runs
    twice.  The second firing is no no-op: the handler has logged twice,
    and the error it caches is then another one than after the first
    firing, and than the error the pending call was rejected with. *)
Lemma crash_handler_runs_at_every_exit :
  run linux fresh exits_twice = inr (final linux fresh exits_twice) ∧
  map fst (logged (final linux fresh exits_once)) = [Debug] ∧
  map fst (logged (final linux fresh exits_twice)) = [Debug; Debug] ∧
  currentError (final linux fresh exits_once) =
    Some (StrykerError "Child process exited unexpectedly (code 1)") ∧
  currentError (final linux fresh exits_twice) =
    Some (StrykerError "Child process exited unexpectedly (code 2)") ∧
  final linux fresh exits_twice ≠ final linux fresh exits_once ∧
  outcome (final linux fresh exits_twice) 1%nat =
    Some (Some (Rejected (StrykerError "Child process exited unexpectedly (code 1)"))).
Proof. vm_compute. repeat split. discriminate. Qed.

(** ** What the crash reports *)

Lemma remember_last_n (cs : list string) (c : string) :
  remember c (last_n 10 cs) = last_n 10 (cs ++ [c]).
Proof.
  unfold remember, last_n. rewrite !length_app, length_drop. simpl.
  destruct (decide (length cs < 10)%nat) as [Hlt|Hge].
  - replace (length cs - 10)%nat with 0%nat by lia.
    replace (length cs + 1 - 10)%nat with 0%nat by lia. simpl.
    rewrite Nat.sub_0_r.
    destruct (10 <? length cs + 1)%nat eqn:Hcmp; [|done].
    apply Nat.ltb_lt in Hcmp. lia.
  - replace (length cs + 1 - 10)%nat with (S (length cs - 10)) by lia.
    destruct (10 <? length cs - (length cs - 10) + 1)%nat eqn:Hcmp.
    2:{ apply Nat.ltb_ge in Hcmp. lia. }
    destruct (lookup_lt_is_Some_2 cs (length cs - 10)) as [x Hx]; [lia|].
    rewrite (drop_S _ _ _ Hx). simpl.
    rewrite drop_app_le by lia. reflexivity.
Qed.

Lemma remembered_last_n (cs : list string) :
  foldl (fun q c => remember c q) [] cs = last_n 10 cs.
Proof.
  induction cs as [|c cs IH] using rev_ind; [done|].
  rewrite foldl_snoc, IH. apply remember_last_n.
Qed.

Lemma lastMessagesQueue_run (pf : Platform) (evs : list Event) :
  ∀ s s', inv pf s → run pf s evs = inr s' →
  lastMessagesQueue s' = foldl (fun q c => remember c q) (lastMessagesQueue s) (chunks evs).
Proof.
  induction evs as [|ev evs IH]; intros s s' Hs Hrun; simpl in Hrun.
  - injection Hrun as <-. done.
  - destruct (step pf s ev) as [err|s1] eqn:Hstep; [discriminate|].
    rewrite (IH s1 s') by eauto using step_inv.
    destruct (step_framed pf ev s s1 Hs Hstep) as (_ & _ & _ & _ & _ & _ & Hlast & _).
    rewrite Hlast. destruct ev as [| | |[| |]]; reflexivity.
Qed.

Lemma stdoutAndStderr_cases (pf : Platform) (messages : list string) :
  stdoutAndStderr pf messages =
  match messages with
  | [] => "Stdout and stderr were empty."
  | _ :: _ => "Last part of stdout and stderr was: " +:+ EOL pf +:+
              join (EOL pf) (map (fun msg => tab +:+ msg) messages)
  end.
Proof. destruct messages; reflexivity. Qed.

(** C7, as the code has it.  The error that is cached when the worker
    exits unexpectedly, and with which the pending calls are rejected,
    names the exit code and nothing else: its message is
    "Child process exited unexpectedly (code N)".  The description that
    names the exit code and the signal (or "without signal") and quotes
    the recent output (the last 10 chunks captured from the worker's
    standard output and error, or the note that both were empty) is
    written to the debug log. *)
Theorem crash_error_names_exit_code (pf : Platform) rp lc pl wd cp
    (evs : list Event) (s : Proxy) code signal :
  run pf (create rp lc pl wd cp) evs = inr s → exitListener s = true →
  ∃ s', step pf s (Emit (exit code signal)) = inr s' ∧
    currentError s' =
      Some (StrykerError
              ("Child process exited unexpectedly (code " +:+ show_code code +:+ ")")) ∧
    (∀ r, Some r ∈ workerTasks s → outcome s r = Some None →
          outcome s' r =
          Some (Some (Rejected
                        (StrykerError ("Child process exited unexpectedly (code "
                                       +:+ show_code code +:+ ")"))))) ∧
    logged s' = logged s ++
      [(Debug,
        "Child process exited unexpectedly with exit code " +:+ show_code code +:+
        " (" +:+ signal_or signal "without signal" +:+ "). " +:+
        match last_n 10 (chunks evs) with
        | [] => "Stdout and stderr were empty."
        | recent => "Last part of stdout and stderr was: " +:+ EOL pf +:+
                    join (EOL pf) (map (fun msg => tab +:+ msg) recent)
        end)] ∧
    lastMessagesQueue s = last_n 10 (chunks evs).
Proof.
  intros Hrun Hex.
  assert (Hs : inv pf s) by (eapply run_inv; [apply create_inv | exact Hrun]).
  assert (Hlast : lastMessagesQueue s = last_n 10 (chunks evs)).
  { rewrite (lastMessagesQueue_run pf evs _ s (create_inv pf rp lc pl wd cp) Hrun).
    apply remembered_last_n. }
  eexists. split; [apply emit_exit; done|]. simpl. repeat split.
  - intros r Hr Hp. apply reject_all_pending; done.
  - unfold crash_report. rewrite stdoutAndStderr_cases, Hlast.
    destruct (last_n 10 (chunks evs)); reflexivity.
  - exact Hlast.
Qed.

Lemma crash_error_names_exit_code_witness :
  ∃ s', step linux (final linux fresh [Emit (stdio "out"); Invoke "run" []])
             (Emit (exit None (Some "SIGTERM"))) = inr s' ∧
        currentError s' =
          Some (StrykerError "Child process exited unexpectedly (code null)").
Proof.
  destruct (crash_error_names_exit_code linux "./JestTestRunner" undefined
              ["stryker-jest-runner"] "/tmp/project" [data "{}"]
              [Emit (stdio "out"); Invoke "run" []]
              (final linux fresh [Emit (stdio "out"); Invoke "run" []])
              None (Some "SIGTERM")) as (s' & Hstep & Herr & _).
  - vm_compute. reflexivity.
  - vm_compute. reflexivity.
  - exists s'. split; [exact Hstep | exact Herr].
Defined.

(** C7 as stated fails: after the worker wrote "Segmentation fault" and
    was killed by SIGSEGV with code 139, the cached error names the code;
    neither the signal nor the output occurs in it.  They are in the
    line written to the debug log. *)
Lemma crash_error_leaves_out_signal_and_output :
  currentError (final linux fresh crashed) =
    Some (StrykerError "Child process exited unexpectedly (code 139)") ∧
  occurs "139" "Child process exited unexpectedly (code 139)" = true ∧
  occurs "SIGSEGV" "Child process exited unexpectedly (code 139)" = false ∧
  occurs "Segmentation fault" "Child process exited unexpectedly (code 139)" = false ∧
  outcome (final linux fresh crashed) 1%nat =
    Some (Some (Rejected (StrykerError "Child process exited unexpectedly (code 139)"))) ∧
  logged (final linux fresh crashed) =
    [(Debug,
      "Child process exited unexpectedly with exit code 139 (SIGSEGV). " +:+
      "Last part of stdout and stderr was: " +:+ newline +:+ tab +:+
      "Segmentation fault")].
Proof. vm_compute. repeat split. Qed.

(** ** Disposal *)

Lemma chain_settled_by (pf : Platform) (s : Proxy) (ev : Event) (t p1 p2 p : ref)
    (o : Settlement) :
  inv pf s → disposing s t p1 p2 → p ∈ [t; p1; p2] → settles s ev p o →
  ev = Emit (message DisposeCompleted).
Proof.
  intros Hs (Hch & Hpos & Hnot) Hp Hset.
  destruct (inv_cell0 _ _ Hs) as (c0 & Hc0 & Hcall & _).
  destruct (chain_not_init _ _ _ _ _ Hch Hc0 Hcall) as [H0t H0p1].
  assert (Htab : ¬ Some p ∈ workerTasks s).
  { intros Hin. destruct (inv_tasks _ _ Hs p Hin) as [_ Hq].
    destruct (chain_not_quiet _ _ _ _ _ Hch Hq).
    rewrite !elem_of_cons in Hp. destruct Hp as [?|[?|[?|Hp]]]; subst; try done.
    inversion Hp. }
  inversion Hset as [|c v q Ht|c err q Ht|code signal q Hex Hin|]; subst; try done.
  - rewrite !elem_of_cons in Hp. destruct Hp as [?|[?|[?|Hp]]]; try lia.
    inversion Hp.
  - apply task_at_elem in Ht. done.
  - apply task_at_elem in Ht. done.
Qed.

Lemma disposing_step (pf : Platform) (s s' : Proxy) (ev : Event) (t p1 p2 : ref) :
  inv pf s → disposeTask s = Some t → disposing s t p1 p2 →
  ev ≠ CallDispose → ev ≠ Emit (message DisposeCompleted) →
  step pf s ev = inr s' →
  disposeTask s' = Some t ∧ disposing s' t p1 p2 ∧
  isDisposed s' = false ∧ killed s' = [].
Proof.
  intros Hs Ht Hdg Hne1 Hne2 Hstep.
  pose proof (step_inv pf ev s s' Hs Hstep) as Hs'.
  destruct (step_framed pf ev s s' Hs Hstep) as (Hdt & Htab & _ & _).
  pose proof Hdg as (Hch & Hpos & Hnot).
  destruct (inv_cell0 _ _ Hs) as (c0 & Hc0 & Hcall & _).
  destruct (chain_not_init _ _ _ _ _ Hch Hc0 Hcall) as [H0t H0p1].
  assert (Hkeep : ∀ p c, p ∈ [t; p1; p2] → heap s !! p = Some c → heap s' !! p = Some c).
  { intros p c Hp Hc.
    destruct (step_cell pf ev s s' p c Hs Hstep Hc)
      as [Hsame|[(-> & _)|(_ & o & _ & Hset)]]; [done| |].
    - rewrite !elem_of_cons in Hp. destruct Hp as [?|[?|[?|Hp]]]; try lia.
      inversion Hp.
    - apply (chain_settled_by pf s ev t p1 p2 p o) in Hset; done. }
  assert (Hch' : chain (heap s') t p1 p2).
  { destruct Hch as (H1 & H2 & H3).
    repeat split; apply Hkeep; try done; rewrite !elem_of_cons; auto. }
  assert (Hdg' : disposing s' t p1 p2).
  { split; [done|]. split; [done|]. intros Hin.
    destruct (Htab _ Hin) as [?|Heq]; [done|].
    destruct Hch as (_ & _ & Hp2). apply lookup_lt_Some in Hp2. lia. }
  rewrite (Hdt Hne1), Ht. split; [done|]. split; [done|].
  pose proof (inv_dispose _ _ Hs') as Hph. unfold dispose_phase in Hph.
  rewrite (Hdt Hne1), Ht in Hph. destruct Hph as [_ Hph].
  destruct (isDisposed s').
  - destruct Hph as [_ Hset]. unfold is_settled in Hset.
    destruct Hch' as (Hc & _). rewrite Hc in Hset. discriminate.
  - destruct Hph. done.
Qed.

Lemma calls_are_no_disposes (l : list WorkerMessage) :
  Forall (fun m => is_Call m = true) l →
  List.filter is_Dispose l = [] ∧ Forall (fun m => is_Init m = false) l.
Proof.
  induction 1 as [|m l Hm _ [IH1 IH2]]; [split; [done|constructor]|].
  destruct m; try discriminate. simpl. split; [done|]. constructor; done.
Qed.

Lemma disposed_step (pf : Platform) (s s' : Proxy) (ev : Event) :
  inv pf s → isDisposed s = true → step pf s ev = inr s' →
  isDisposed s' = true ∧ disposeTask s' = disposeTask s ∧ killed s' = killed s ∧
  List.filter is_Dispose (sent s') = List.filter is_Dispose (sent s).
Proof.
  intros Hs Hd Hstep.
  pose proof (step_inv pf ev s s' Hs Hstep) as Hs'.
  destruct (step_framed pf ev s s' Hs Hstep)
    as (Hdt & _ & _ & _ & (l & Hsent & Hl) & Hd' & _).
  specialize (Hd' Hd).
  assert (Hdt' : disposeTask s' = disposeTask s).
  { destruct ev as [m a| | |e]; try (apply Hdt; discriminate).
    injection Hstep as <-. rewrite dispose_disposed by done. reflexivity. }
  split; [done|]. split; [done|]. split.
  - pose proof (inv_dispose _ _ Hs) as Hph. pose proof (inv_dispose _ _ Hs') as Hph'.
    unfold dispose_phase in *. rewrite Hdt', Hd' in Hph'. rewrite Hd in Hph.
    destruct (disposeTask s); [|congruence].
    destruct Hph as (_ & -> & _). destruct Hph' as (_ & -> & _). reflexivity.
  - rewrite Hsent, List.filter_app.
    destruct Hl as [Hl|(_ & Hfalse & _)]; [|congruence].
    destruct (calls_are_no_disposes l Hl) as [-> _]. apply app_nil_r.
Qed.

Lemma disposed_run (pf : Platform) (evs : list Event) :
  ∀ s s', inv pf s → isDisposed s = true → run pf s evs = inr s' →
  isDisposed s' = true ∧ killed s' = killed s ∧
  List.filter is_Dispose (sent s') = List.filter is_Dispose (sent s).
Proof.
  induction evs as [|ev evs IH]; intros s s' Hs Hd Hrun; simpl in Hrun.
  - injection Hrun as <-. done.
  - destruct (step pf s ev) as [err|s1] eqn:Hstep; [discriminate|].
    destruct (disposed_step pf s s1 ev Hs Hd Hstep) as (Hd1 & _ & Hk & Hsent).
    destruct (IH s1 s' (step_inv pf ev s s1 Hs Hstep) Hd1 Hrun) as (? & ? & ?).
    repeat split; congruence.
Qed.

(** ** Messages on the channel *)

Lemma sent_run (pf : Platform) (evs : list Event) :
  ∀ s s', inv pf s → run pf s evs = inr s' →
  ∃ l, sent s' = sent s ++ l ∧ Forall (fun m => is_Init m = false) l ∧
       (length (List.filter is_Dispose l) ≤ length (List.filter is_CallDispose evs))%nat.
Proof.
  induction evs as [|ev evs IH]; intros s s' Hs Hrun; simpl in Hrun.
  - injection Hrun as <-. exists []. rewrite app_nil_r.
    split; [done|]. split; [constructor|simpl; lia].
  - destruct (step pf s ev) as [err|s1] eqn:Hstep; [discriminate|].
    destruct (step_framed pf ev s s1 Hs Hstep) as (_ & _ & _ & _ & (l & Hsent & Hl) & _).
    destruct (IH s1 s' (step_inv pf ev s s1 Hs Hstep) Hrun) as (l' & Hsent' & Hni & Hcount).
    exists (l ++ l'). rewrite Hsent', Hsent, <- app_assoc. split; [done|].
    rewrite List.filter_app, length_app.
    destruct Hl as [Hl|(-> & _ & ->)].
    + destruct (calls_are_no_disposes l Hl) as [-> Hni'].
      split; [apply Forall_app; done|]. simpl.
      destruct (is_CallDispose ev); simpl; lia.
    + split; [apply Forall_app; split; [repeat constructor|done]|]. simpl. lia.
Qed.

(** C8, as the code has it.  Exactly one Init message is sent, and it is
    the first message on the channel, hence before every Call.  A
    Dispose message is sent by a call of [dispose()], and only by a call
    made while the handle is not marked disposed: there are at most as
    many Dispose messages as calls of [dispose()] (at most one when it is
    called once), and once the handle is marked disposed no further
    Dispose is sent. *)
Theorem one_init_first_and_disposes (pf : Platform) rp lc pl wd cp
    (evs : list Event) (s : Proxy) :
  run pf (create rp lc pl wd cp) evs = inr s →
  (∃ rest, sent s = Init lc pl rp cp wd :: rest ∧
           Forall (fun m => is_Init m = false) rest) ∧
  (length (List.filter is_Dispose (sent s)) ≤
   length (List.filter is_CallDispose evs))%nat ∧
  (isDisposed s = false → sent (fst (dispose s)) = sent s ++ [Dispose]) ∧
  (isDisposed s = true → sent (fst (dispose s)) = sent s) ∧
  (isDisposed s = true → ∀ evs' s', run pf s evs' = inr s' →
     List.filter is_Dispose (sent s') = List.filter is_Dispose (sent s)).
Proof.
  intros Hrun.
  assert (Hs : inv pf s) by (eapply run_inv; [apply create_inv | exact Hrun]).
  destruct (sent_run pf evs _ s (create_inv pf rp lc pl wd cp) Hrun)
    as (l & Hsent & Hni & Hcount).
  simpl in Hsent. split; [eauto|]. split; [|split; [|split]].
  - rewrite Hsent. simpl. exact Hcount.
  - intros Hd. rewrite dispose_active by done. reflexivity.
  - intros Hd. rewrite dispose_disposed by done. reflexivity.
  - intros Hd evs' s' Hrun'. apply (disposed_run pf evs' s s' Hs Hd Hrun').
Qed.

Lemma one_init_first_and_disposes_witness :
  (length (List.filter is_Dispose (sent (final linux fresh disposed_cleanly))) ≤ 1)%nat.
Proof.
  destruct (one_init_first_and_disposes linux "./JestTestRunner" undefined
              ["stryker-jest-runner"] "/tmp/project" [data "{}"] disposed_cleanly
              (final linux fresh disposed_cleanly)) as (_ & Hcount & _).
  - vm_compute. reflexivity.
  - exact Hcount.
Defined.

(** C8 as stated fails: two calls of [dispose()] in a row send two
    Dispose messages. *)
Lemma two_disposes_two_messages :
  run linux fresh disposed_twice = inr (final linux fresh disposed_twice) ∧
  List.filter is_Dispose (sent (final linux fresh disposed_twice)) = [Dispose; Dispose].
Proof. vm_compute. repeat split. Qed.

(** ** More closed forms, and what a step does to the rest of the proxy *)

Lemma emit_unidentified (pf : Platform) (s : Proxy) (kind : string) :
  inv pf s →
  step pf s (Emit (message (Unidentified kind))) =
  inr (log LogError "Received unidentified message [object Object]" (calm s)).
Proof.
  intros Hs. rewrite (step_emit pf _ s Hs). simpl.
  rewrite drain_nil by reflexivity. reflexivity.
Qed.

Lemma emit_stdio (pf : Platform) (s : Proxy) (chunk : string) :
  inv pf s → step pf s (Emit (stdio chunk)) = inr (handleData pf chunk (calm s)).
Proof.
  intros Hs. rewrite (step_emit pf _ s Hs). simpl.
  rewrite drain_nil; [reflexivity|].
  unfold handleData. destruct (traceEnabled pf); reflexivity.
Qed.

Lemma emit_exit_unsubscribed (pf : Platform) (s : Proxy) code signal :
  inv pf s → exitListener s = false →
  step pf s (Emit (exit code signal)) = inr (calm s).
Proof.
  intros Hs Hex. rewrite (step_emit pf _ s Hs). simpl. rewrite Hex.
  rewrite drain_nil by reflexivity. reflexivity.
Qed.

Lemma filter_calls (l : list WorkerMessage) :
  Forall (fun m => is_Call m = true) l → List.filter is_Call l = l.
Proof.
  induction 1 as [|m l Hm _ IH]; simpl; [reflexivity|]. rewrite Hm, IH. reflexivity.
Qed.

Lemma requests_calm (s : Proxy) : requests (calm s) = requests s.
Proof.
  unfold requests, calm, waiting. simpl.
  rewrite List.filter_app, (filter_calls _ (job_messages_calls _)), <- app_assoc.
  reflexivity.
Qed.

Lemma requests_eq (s s' : Proxy) :
  sent s' = sent s → microtasks s' = microtasks s → initTask s' = initTask s →
  heap s' !! initTask s = heap s !! initTask s →
  requests s' = requests s.
Proof.
  intros H1 H2 H3 H4. unfold requests, waiting. rewrite H1, H2, H3, H4. reflexivity.
Qed.

Lemma reaction_job_message (v : Value) (rs : list Reaction) :
  omap job_message (map (reaction_job (Fulfilled v)) rs) = omap reaction_message rs.
Proof.
  induction rs as [|r rs IH]; [reflexivity|].
  change (omap job_message (map (reaction_job (Fulfilled v)) (r :: rs)))
    with (match reaction_message r with
          | Some m => m :: omap job_message (map (reaction_job (Fulfilled v)) rs)
          | None => omap job_message (map (reaction_job (Fulfilled v)) rs)
          end).
  rewrite IH. reflexivity.
Qed.

Lemma step_effects (pf : Platform) (ev : Event) (s s' : Proxy) :
  inv pf s → step pf s ev = inr s' → effects pf ev s s'.
Proof.
  intros Hs Hstep. unfold effects.
  pose proof (inv_init _ _ Hs) as H0.
  destruct (inv_cell0 _ _ Hs) as (c0 & Hc0 & Hcall & Hset).
  pose proof (calm_inv pf s Hs) as Hcalm.
  destruct ev as [m a| | |e].
  - injection Hstep as <-. destruct (currentError s) as [e|] eqn:He.
    { rewrite (forward_crashed m a s e He). simpl. rewrite He, !app_nil_r. auto. }
    rewrite forward_healthy by done. simpl. rewrite ?H0.
    destruct c0 as [[o|] rs].
    + rewrite (attach_settled _ _ _ o rs) by (simpl; apply lookup_app_l_Some; done).
      destruct (Hset o eq_refl) as [Hrs [v ->]]. simpl in Hrs. subst rs.
      simpl. rewrite He, !app_nil_r. split; [right; left; eauto|]. repeat split.
      unfold requests, waiting. simpl. rewrite ?H0.
      rewrite (lookup_app_l_Some _ _ _ _ Hc0), Hc0. simpl.
      rewrite omap_app, !app_nil_r, <- app_assoc. reflexivity.
    + rewrite (attach_pending _ _ _ rs) by (simpl; apply lookup_app_l_Some; done).
      simpl. rewrite He, !app_nil_r. split; [right; left; eauto|]. repeat split.
      unfold requests, waiting. simpl. rewrite ?H0.
      rewrite list_lookup_insert_eq
        by (rewrite length_app; apply lookup_lt_Some in Hc0; lia).
      rewrite Hc0. simpl. rewrite omap_app, <- !app_assoc. reflexivity.
  - injection Hstep as <-. destruct (isDisposed s) eqn:Hd.
    + rewrite dispose_disposed by done. simpl. rewrite !app_nil_r. auto.
    + rewrite dispose_active by done. simpl. rewrite !app_nil_r.
      split; [auto|]. repeat split.
      unfold requests, waiting. simpl. rewrite ?H0.
      rewrite (lookup_app_l_Some _ _ _ _ Hc0), Hc0, List.filter_app. simpl.
      rewrite !app_nil_r. reflexivity.
  - injection Hstep as <-. destruct (microtasks s) as [|j q] eqn:Hq.
    { unfold tick. rewrite Hq. simpl. rewrite !app_nil_r. auto. }
    pose proof (inv_queue _ _ Hs) as Hjobs. rewrite Hq in Hjobs.
    apply Forall_cons in Hjobs as [[(c & m & a & Hh) Ht] Hjobs].
    rewrite (tick_call pf s j q c m a Hq Hh Ht). simpl. rewrite !app_nil_r.
    split; [auto|]. repeat split.
    unfold requests, waiting. simpl. rewrite Hq, List.filter_app. simpl.
    unfold job_message at 2. rewrite Hh, <- app_assoc. reflexivity.
  - assert (Hsame : ∀ s1, sent s1 = sent (calm s) → microtasks s1 = [] →
               initTask s1 = initTask s → heap s1 !! 0%nat = heap s !! 0%nat →
               requests s1 = requests s).
    { intros s1 E1 E2 E3 E4. rewrite <- (requests_calm s).
      apply requests_eq; simpl; rewrite ?H0; try done. congruence. }
    destruct e as [[|cid v|cid err| |kind]|chunk|code signal].
    + rewrite (emit_initialized pf s Hs) in Hstep. injection Hstep as <-.
      rewrite requests_calm. simpl. rewrite !app_nil_r.
      split; [left|]; [|repeat split].
      * destruct (settle_frame 0%nat (Fulfilled undefined) (calm s)) as (h & q & -> & _).
        reflexivity.
      * destruct (settle_frame 0%nat (Fulfilled undefined) (calm s)) as (h & q & -> & _).
        reflexivity.
      * destruct (settle_frame 0%nat (Fulfilled undefined) (calm s)) as (h & q & -> & _).
        reflexivity.
      * destruct (settle_frame 0%nat (Fulfilled undefined) (calm s)) as (h & q & -> & _).
        reflexivity.
      * rewrite <- (requests_calm s). destruct c0 as [[o|] rs].
        { rewrite settle_settled; [done|]. unfold is_settled. simpl. rewrite Hc0. done. }
        rewrite (settle_pending _ _ _ rs) by exact Hc0.
        unfold requests, waiting. simpl. rewrite ?H0.
        rewrite list_lookup_insert_eq by (apply lookup_lt_Some in Hc0; done).
        rewrite Hc0. simpl. rewrite reaction_job_message, !app_nil_r. reflexivity.
    + destruct (task_at (workerTasks s) cid) as [t|] eqn:Ht.
      2:{ rewrite (emit_unmatched pf s cid) in Hstep by eauto. discriminate. }
      rewrite (emit_routed pf s cid t _ (Fulfilled v) Hs Ht) in Hstep by eauto.
      injection Hstep as <-. simpl. rewrite !app_nil_r.
      split; [right; right; exists cid, t; rewrite Z.eqb_refl; auto|]. repeat split.
      apply Hsame; try done. simpl. apply settle_heap_ne.
      apply task_at_elem, (inv_tasks _ _ Hs) in Ht. lia.
    + destruct (task_at (workerTasks s) cid) as [t|] eqn:Ht.
      2:{ rewrite (emit_unmatched pf s cid) in Hstep by eauto. discriminate. }
      rewrite (emit_routed pf s cid t _ (Rejected (Error err)) Hs Ht) in Hstep by eauto.
      injection Hstep as <-. simpl. rewrite !app_nil_r.
      split; [right; right; exists cid, t; rewrite Z.eqb_refl; auto|]. repeat split.
      apply Hsame; try done. simpl. apply settle_heap_ne.
      apply task_at_elem, (inv_tasks _ _ Hs) in Ht. lia.
    + pose proof (inv_dispose _ _ Hs) as Hph. unfold dispose_phase in Hph.
      destruct (disposeTask s) as [t|] eqn:Ht.
      2:{ rewrite (emit_dispose_completed_idle pf s Hs) in Hstep by auto.
          injection Hstep as <-. simpl. rewrite !app_nil_r.
          split; [auto|]. repeat split. apply Hsame; done. }
      destruct Hph as [Hex Hph]. destruct (isDisposed s) eqn:Hd.
      { rewrite (emit_dispose_completed_idle pf s Hs) in Hstep by auto.
        injection Hstep as <-. simpl. rewrite !app_nil_r.
        split; [auto|]. repeat split. apply Hsame; done. }
      destruct Hph as (_ & p1 & p2 & Hch & Hpos & _).
      rewrite (emit_dispose_completed pf s t p1 p2 Hs Ht Hch) in Hstep.
      injection Hstep as <-. simpl. rewrite !app_nil_r.
      split; [auto|]. repeat split. apply Hsame; try done. simpl.
      destruct (chain_not_init _ _ _ _ _ Hch Hc0 Hcall).
      rewrite !list_lookup_insert_ne by lia. done.
    + rewrite (emit_unidentified pf s kind Hs) in Hstep. injection Hstep as <-.
      simpl. rewrite !app_nil_r. split; [auto|]. repeat split. apply Hsame; done.
    + rewrite (emit_stdio pf s chunk Hs) in Hstep. injection Hstep as <-.
      unfold handleData. destruct (traceEnabled pf) eqn:Htr; simpl;
        rewrite ?Htr, ?app_nil_r;
        (split; [auto|]); repeat split; apply Hsame; done.
    + destruct (exitListener s) eqn:Hex.
      2:{ rewrite (emit_exit_unsubscribed pf s code signal Hs Hex) in Hstep.
          injection Hstep as <-. simpl. rewrite Hex, !app_nil_r.
          split; [auto|]. repeat split. apply Hsame; done. }
      rewrite (emit_exit pf s code signal Hs Hex) in Hstep. injection Hstep as <-.
      simpl. rewrite Hex, !app_nil_r. split; [auto|]. repeat split.
      apply Hsame; try done. simpl.
      rewrite (reject_all_lookup _ _ _ _ c0 Hc0), Hc0. f_equal.
      case_decide as Hin; [|done].
      apply elem_of_unresolved in Hin as [Hin _].
      apply (inv_tasks _ _ Hs) in Hin. lia.
Qed.

(** ** The table of pending calls *)

Lemma task_at_Some (tasks : list (option ref)) (c : Z) (p : ref) :
  task_at tasks c = Some p ↔ 0 ≤ c ∧ tasks !! Z.to_nat c = Some (Some p).
Proof.
  unfold task_at. destruct (c <? 0) eqn:Hc.
  - apply Z.ltb_lt in Hc. split; [discriminate | lia].
  - apply Z.ltb_ge in Hc.
    destruct (tasks !! Z.to_nat c) as [[r|]|]; simpl;
      (split; [intros Heq; split; [done|congruence] | intros [_ Heq]; congruence]).
Qed.

Lemma task_at_app (tasks l : list (option ref)) (c : Z) (p : ref) :
  task_at tasks c = Some p → task_at (tasks ++ l) c = Some p.
Proof.
  rewrite !task_at_Some. intros [Hc Hl]. split; [done|].
  apply lookup_app_l_Some. done.
Qed.

Lemma task_at_app_lt (tasks l : list (option ref)) (c : Z) :
  c < Z.of_nat (length tasks) → task_at (tasks ++ l) c = task_at tasks c.
Proof.
  intros Hc. unfold task_at. destruct (c <? 0) eqn:Hneg; [done|].
  apply Z.ltb_ge in Hneg. rewrite lookup_app_l by lia. done.
Qed.

Lemma task_at_delete_ne (tasks : list (option ref)) (c n : Z) :
  0 ≤ c → c ≠ n → task_at (delete_at c tasks) n = task_at tasks n.
Proof.
  intros Hc Hne. unfold delete_at, task_at.
  destruct (c <? 0) eqn:Hneg; [done|].
  destruct (n <? 0) eqn:Hn; [done|]. apply Z.ltb_ge in Hn.
  rewrite list_lookup_insert_ne by lia. done.
Qed.

Lemma task_at_inj (tasks : list (option ref)) (c n : Z) (p : ref) :
  increasing tasks → task_at tasks c = Some p → task_at tasks n = Some p → c = n.
Proof.
  intros Hinc [Hc Hlc]%task_at_Some [Hn Hln]%task_at_Some.
  destruct (Nat.lt_trichotomy (Z.to_nat c) (Z.to_nat n)) as [Hlt|[Heq|Hgt]].
  - pose proof (Hinc _ _ _ _ Hlt Hlc Hln). lia.
  - lia.
  - pose proof (Hinc _ _ _ _ Hgt Hln Hlc). lia.
Qed.

Lemma increasing_step (pf : Platform) (ev : Event) (s s' : Proxy) :
  inv pf s → step pf s ev = inr s' →
  increasing (workerTasks s) → increasing (workerTasks s').
Proof.
  intros Hs Hstep Hinc.
  destruct (step_effects pf ev s s' Hs Hstep)
    as ([->|[(m & a & _ & _ & ->)|(c & t & _ & _ & ->)]] & _); [done| |].
  - intros i j r r' Hij Hi Hj.
    pose proof (lookup_lt_Some _ _ _ Hj) as Hlen. rewrite length_app in Hlen.
    simpl in Hlen.
    rewrite lookup_app_l in Hi by lia.
    destruct (decide (j < length (workerTasks s))%nat) as [Hlt|Hge].
    + rewrite lookup_app_l in Hj by lia. eauto.
    + rewrite lookup_app_r in Hj by lia.
      replace (j - length (workerTasks s))%nat with 0%nat in Hj by lia.
      injection Hj as <-.
      apply list_elem_of_lookup_2, (inv_tasks _ _ Hs) in Hi as [_ Hq%quiet_lt]. done.
  - unfold delete_at. destruct (c <? 0); [done|].
    intros i j r r' Hij Hi Hj.
    apply list_lookup_insert_Some in Hi as [(_ & ? & _)|[_ Hi]]; [done|].
    apply list_lookup_insert_Some in Hj as [(_ & ? & _)|[_ Hj]]; [done|].
    eauto.
Qed.

Lemma increasing_run (pf : Platform) (evs : list Event) :
  ∀ s s', inv pf s → increasing (workerTasks s) → run pf s evs = inr s' →
  increasing (workerTasks s').
Proof.
  induction evs as [|ev evs IH]; intros s s' Hs Hinc Hrun; simpl in Hrun.
  - injection Hrun as <-. done.
  - destruct (step pf s ev) as [err|s1] eqn:Hstep; [discriminate|].
    eapply IH; [| |exact Hrun]; eauto using step_inv, increasing_step.
Qed.

Lemma reachable_increasing (pf : Platform) (s : Proxy) :
  reachable pf s → increasing (workerTasks s).
Proof.
  intros (rp & lc & pl & wd & cp & evs & Hrun).
  eapply increasing_run; [apply create_inv| |exact Hrun].
  intros i j r r' _ Hi. discriminate.
Qed.

(** A call that is pending stays in the table, pending, through every
    event but a reply with its id and an exit the proxy still listens
    for. *)
Lemma pending_call_step (pf : Platform) (ev : Event) (s s' : Proxy) (c : Z) (p : ref) :
  inv pf s → increasing (workerTasks s) →
  task_at (workerTasks s) c = Some p → outcome s p = Some None →
  replies_to c ev = false → is_exit ev && exitListener s = false →
  step pf s ev = inr s' →
  task_at (workerTasks s') c = Some p ∧ outcome s' p = Some None.
Proof.
  intros Hs Hinc Ht Hp Hrep Hex Hstep.
  pose proof (task_at_elem _ _ _ Ht) as Hin.
  destruct (inv_tasks _ _ Hs p Hin) as [Hpos Hq].
  split.
  - destruct (step_effects pf ev s s' Hs Hstep)
      as ([->|[(m & a & _ & _ & ->)|(c' & t & Hc' & Ht' & ->)]] & _).
    + done.
    + apply task_at_app. done.
    + rewrite task_at_delete_ne; [done|apply task_at_Some in Ht'; tauto|].
      intros ->. congruence.
  - destruct (step_outcome pf ev s s' p None Hs Hstep Hp) as [?|(_ & o & _ & Hset)];
      [done|].
    exfalso. destruct Hset as [|c' v q Hq'|c' err q Hq'|code signal q Hl _|t p1 p2 q _ _ Hdg Hel].
    + lia.
    + rewrite (task_at_inj _ _ _ _ Hinc Hq' Ht) in Hrep. simpl in Hrep.
      rewrite Z.eqb_refl in Hrep. discriminate.
    + rewrite (task_at_inj _ _ _ _ Hinc Hq' Ht) in Hrep. simpl in Hrep.
      rewrite Z.eqb_refl in Hrep. discriminate.
    + simpl in Hex. rewrite Hl in Hex. discriminate.
    + destruct Hdg as (Hch & _ & Hnot).
      destruct (chain_not_quiet _ _ _ _ _ Hch Hq).
      rewrite !elem_of_cons in Hel. destruct Hel as [->|[->|[->|Hel]]]; try done.
      inversion Hel.
Qed.

Lemma unsubscribed_step (pf : Platform) (ev : Event) (s s' : Proxy) :
  inv pf s → exitListener s = false → step pf s ev = inr s' →
  exitListener s' = false ∧ currentError s' = currentError s.
Proof.
  intros Hs Hex Hstep.
  destruct (step_effects pf ev s s' Hs Hstep) as (_ & -> & -> & _).
  rewrite Hex. split; [destruct (is_CallDispose ev); done|].
  destruct ev as [| | |[| |]]; reflexivity.
Qed.

Lemma pending_call_run (pf : Platform) (evs : list Event) (c : Z) (p : ref) :
  ∀ s s', inv pf s → increasing (workerTasks s) →
  task_at (workerTasks s) c = Some p → outcome s p = Some None →
  Forall (fun ev => replies_to c ev = false) evs →
  exitListener s = false ∨ Forall (fun ev => is_exit ev = false) evs →
  run pf s evs = inr s' →
  task_at (workerTasks s') c = Some p ∧ outcome s' p = Some None.
Proof.
  induction evs as [|ev evs IH]; intros s s' Hs Hinc Ht Hp Hrep Hex Hrun;
    simpl in Hrun.
  - injection Hrun as <-. done.
  - destruct (step pf s ev) as [err|s1] eqn:Hstep; [discriminate|].
    apply Forall_cons in Hrep as [Hrep Hreps].
    assert (Hnow : is_exit ev && exitListener s = false).
    { destruct Hex as [->|[-> _]%Forall_cons]; [apply andb_false_r|done]. }
    destruct (pending_call_step pf ev s s1 c p Hs Hinc Ht Hp Hrep Hnow Hstep)
      as [Ht1 Hp1].
    apply (IH s1 s'); eauto using step_inv, increasing_step.
    destruct Hex as [Hoff|[_ Hexs]%Forall_cons]; [left|right; done].
    apply (unsubscribed_step pf ev s s1 Hs Hoff Hstep).
Qed.

(** The reply with the id of a pending call settles that call. *)
Lemma reply_settles (pf : Platform) (s : Proxy) (c : Z) (p : ref) (m : ParentMessage)
    (o : Settlement) :
  inv pf s → task_at (workerTasks s) c = Some p → outcome s p = Some None →
  (∃ v, m = Result c v ∧ o = Fulfilled v) ∨
  (∃ err, m = Rejection c err ∧ o = Rejected (Error err)) →
  ∃ s', step pf s (Emit (message m)) = inr s' ∧ outcome s' p = Some (Some o) ∧
        task_at (workerTasks s') c = None.
Proof.
  intros Hs Ht Hp Hm. eexists. split; [apply (emit_routed pf s c p m o); done|].
  simpl. split; [|apply task_at_deleted].
  unfold outcome in *. simpl.
  destruct (heap s !! p) as [cell|] eqn:Hcell; [|discriminate].
  rewrite (settle_heap_eq p o _ cell Hcell). simpl in *.
  injection Hp as ->. reflexivity.
Qed.

Lemma answer_cases (m : ParentMessage) (c : Z) (o : Settlement) :
  answer m = Some (c, o) →
  (∃ v, m = Result c v ∧ o = Fulfilled v) ∨
  (∃ err, m = Rejection c err ∧ o = Rejected (Error err)).
Proof. destruct m; intros [= <- <-]; eauto. Qed.

Lemma hole_step (pf : Platform) (ev : Event) (s s' : Proxy) (c : Z) :
  inv pf s → c < Z.of_nat (length (workerTasks s)) →
  task_at (workerTasks s) c = None → step pf s ev = inr s' →
  c < Z.of_nat (length (workerTasks s')) ∧ task_at (workerTasks s') c = None.
Proof.
  intros Hs Hc Ht Hstep.
  destruct (step_framed pf ev s s' Hs Hstep) as (_ & _ & Hlen & _).
  split; [lia|].
  destruct (step_effects pf ev s s' Hs Hstep)
    as ([->|[(m & a & _ & _ & ->)|(c' & t & _ & Ht' & ->)]] & _).
  - done.
  - rewrite task_at_app_lt; done.
  - destruct (decide (c' = c)) as [->|Hne]; [apply task_at_deleted|].
    rewrite task_at_delete_ne; [done|apply task_at_Some in Ht'; tauto|done].
Qed.

Lemma hole_run (pf : Platform) (evs : list Event) (c : Z) :
  ∀ s s', inv pf s → c < Z.of_nat (length (workerTasks s)) →
  task_at (workerTasks s) c = None → run pf s evs = inr s' →
  task_at (workerTasks s') c = None.
Proof.
  induction evs as [|ev evs IH]; intros s s' Hs Hc Ht Hrun; simpl in Hrun.
  - injection Hrun as <-. done.
  - destruct (step pf s ev) as [err|s1] eqn:Hstep; [discriminate|].
    destruct (hole_step pf ev s s1 c Hs Hc Ht Hstep).
    eapply IH; [| | |exact Hrun]; eauto using step_inv.
Qed.

(** ** Requests *)

Lemma requests_run (pf : Platform) (evs : list Event) :
  ∀ s s', inv pf s → run pf s evs = inr s' →
  requests s' = requests s ++ invocations pf s evs.
Proof.
  induction evs as [|ev evs IH]; intros s s' Hs Hrun; simpl in *.
  - injection Hrun as <-. rewrite app_nil_r. done.
  - destruct (step pf s ev) as [err|s1] eqn:Hstep; [discriminate|].
    rewrite (IH s1 s') by eauto using step_inv.
    destruct (step_effects pf ev s s1 Hs Hstep) as (_ & _ & _ & _ & ->).
    rewrite app_assoc. reflexivity.
Qed.

Lemma message_call_filter (l : list WorkerMessage) :
  omap message_call (List.filter is_Call l) = omap message_call l.
Proof.
  induction l as [|m l IH]; [reflexivity|].
  destruct m; simpl; first [exact IH | f_equal; exact IH].
Qed.

Lemma message_call_jobs (q : list Job) :
  omap message_call (omap job_message q) = omap job_call q.
Proof.
  induction q as [|j q IH]; [reflexivity|].
  destruct j as [[[c m a|]|] o t]; simpl; first [exact IH | f_equal; exact IH].
Qed.

Lemma message_call_reactions (rs : list Reaction) :
  omap message_call (omap reaction_message rs) = omap reaction_call rs.
Proof.
  induction rs as [|r rs IH]; [reflexivity|].
  destruct r as [[[c m a|]|] f d]; simpl; first [exact IH | f_equal; exact IH].
Qed.

Lemma scheduled_requests (s : Proxy) : scheduled s = omap message_call (requests s).
Proof.
  unfold scheduled, requests.
  rewrite !omap_app, message_call_filter, message_call_jobs, message_call_reactions.
  reflexivity.
Qed.

(** ** The log *)

Lemma at_level_app (l : LogLevel) (lg lg' : list (LogLevel * string)) :
  at_level l (lg ++ lg') = at_level l lg ++ at_level l lg'.
Proof. unfold at_level. rewrite List.filter_app, map_app. reflexivity. Qed.

Lemma logged_run (pf : Platform) (evs : list Event) :
  ∀ s s', inv pf s → run pf s evs = inr s' →
  logged s' = logged s ++ journal pf s evs.
Proof.
  induction evs as [|ev evs IH]; intros s s' Hs Hrun; simpl in *.
  - injection Hrun as <-. rewrite app_nil_r. done.
  - destruct (step pf s ev) as [err|s1] eqn:Hstep; [discriminate|].
    rewrite (IH s1 s') by eauto using step_inv.
    destruct (step_effects pf ev s s1 Hs Hstep) as (_ & _ & _ & -> & _).
    rewrite app_assoc. reflexivity.
Qed.

Lemma journal_trace (pf : Platform) (evs : list Event) :
  ∀ s s', run pf s evs = inr s' →
  at_level Trace (journal pf s evs) = if traceEnabled pf then chunks evs else [].
Proof.
  induction evs as [|ev evs IH]; intros s s' Hrun; simpl in *.
  - destruct (traceEnabled pf); reflexivity.
  - destruct (step pf s ev) as [err|s1] eqn:Hstep; [discriminate|].
    rewrite at_level_app, (IH s1 s' Hrun). unfold chunks.
    destruct ev as [| | |[[]| |]]; simpl; try reflexivity;
      [|destruct (exitListener s); reflexivity].
    destruct (traceEnabled pf); reflexivity.
Qed.

Lemma journal_errors (pf : Platform) (evs : list Event) :
  ∀ s s', run pf s evs = inr s' →
  at_level LogError (journal pf s evs) =
  map (fun _ => "Received unidentified message [object Object]")
    (List.filter is_Unidentified evs).
Proof.
  induction evs as [|ev evs IH]; intros s s' Hrun; simpl in *; [reflexivity|].
  destruct (step pf s ev) as [err|s1] eqn:Hstep; [discriminate|].
  rewrite at_level_app, (IH s1 s' Hrun).
  destruct ev as [| | |[[]| |]]; simpl; try reflexivity;
    [destruct (traceEnabled pf)|destruct (exitListener s)]; reflexivity.
Qed.

Lemma unsubscribed_log (pf : Platform) (ev : Event) (s s' : Proxy) :
  inv pf s → exitListener s = false → step pf s ev = inr s' →
  at_level Debug (logged s') = at_level Debug (logged s).
Proof.
  intros Hs Hex Hstep.
  destruct (step_effects pf ev s s' Hs Hstep) as (_ & _ & _ & -> & _).
  rewrite at_level_app.
  destruct ev as [| | |[[]| |]]; simpl; rewrite ?Hex, ?app_nil_r; try reflexivity.
  destruct (traceEnabled pf); simpl; rewrite ?app_nil_r; reflexivity.
Qed.

Lemma unsubscribed_run (pf : Platform) (evs : list Event) :
  ∀ s s', inv pf s → exitListener s = false → run pf s evs = inr s' →
  exitListener s' = false ∧ currentError s' = currentError s ∧
  at_level Debug (logged s') = at_level Debug (logged s).
Proof.
  induction evs as [|ev evs IH]; intros s s' Hs Hex Hrun; simpl in Hrun.
  - injection Hrun as <-. done.
  - destruct (step pf s ev) as [err|s1] eqn:Hstep; [discriminate|].
    destruct (unsubscribed_step pf ev s s1 Hs Hex Hstep) as [Hex1 <-].
    rewrite <- (unsubscribed_log pf ev s s1 Hs Hex Hstep).
    apply IH; eauto using step_inv.
Qed.

(** ** Killing the worker *)

Lemma not_killed_step (pf : Platform) (ev : Event) (s s' : Proxy) :
  inv pf s → killed s = [] → ev ≠ Emit (message DisposeCompleted) →
  step pf s ev = inr s' → killed s' = [].
Proof.
  intros Hs Hk Hne Hstep.
  assert (Hdisp : ev = CallDispose → killed s' = []).
  { intros ->. injection Hstep as <-. destruct (isDisposed s) eqn:Hd.
    - rewrite dispose_disposed by done. done.
    - rewrite dispose_active by done. done. }
  pose proof (inv_dispose _ _ Hs) as Hph. unfold dispose_phase in Hph.
  destruct (disposeTask s) as [t|] eqn:Ht.
  - destruct Hph as [_ Hph]. destruct (isDisposed s).
    { destruct Hph as [Hk' _]. congruence. }
    destruct Hph as (_ & p1 & p2 & Hdg).
    destruct ev as [m a| | |e]; [|auto| |];
      eapply (disposing_step pf s s'); eauto; discriminate.
  - destruct ev as [m a| | |e]; [|auto| |].
    all: pose proof (inv_dispose _ _ (step_inv pf _ s s' Hs Hstep)) as Hph';
      unfold dispose_phase in Hph';
      destruct (step_framed pf _ s s' Hs Hstep) as (Hdt & _);
      rewrite Hdt, Ht in Hph' by discriminate; exact Hph'.
Qed.

Lemma not_killed_run (pf : Platform) (evs : list Event) :
  ∀ s s', inv pf s → killed s = [] → Emit (message DisposeCompleted) ∉ evs →
  run pf s evs = inr s' → killed s' = [].
Proof.
  induction evs as [|ev evs IH]; intros s s' Hs Hk Hnot Hrun; simpl in Hrun.
  - injection Hrun as <-. done.
  - destruct (step pf s ev) as [err|s1] eqn:Hstep; [discriminate|].
    apply not_elem_of_cons in Hnot as [Hne Hnot].
    eapply IH; [| | |exact Hrun]; eauto using step_inv.
    eapply not_killed_step; eauto.
Qed.

(** ** Rendering the recent output *)

Lemma starts_with_app (sub rest : string) : starts_with sub (sub +:+ rest) = true.
Proof.
  induction sub as [|a sub IH]; simpl; [reflexivity|].
  rewrite Ascii.eqb_refl. exact IH.
Qed.

Lemma starts_with_app_l (sub s rest : string) :
  starts_with sub s = true → starts_with sub (s +:+ rest) = true.
Proof.
  revert s. induction sub as [|a sub IH]; intros [|b s]; simpl; try done.
  destruct (Ascii.eqb a b); [apply IH|done].
Qed.

Lemma occurs_here (sub rest : string) : occurs sub (sub +:+ rest) = true.
Proof.
  destruct sub as [|a sub]; destruct rest; simpl; rewrite ?Ascii.eqb_refl;
    rewrite ?starts_with_app; reflexivity.
Qed.

Lemma occurs_app_l (sub s rest : string) :
  occurs sub s = true → occurs sub (s +:+ rest) = true.
Proof.
  induction s as [|b s IH]; intros H.
  - destruct sub; [|simpl in H; discriminate]. destruct rest; reflexivity.
  - change (occurs sub (String b s))
      with (starts_with sub (String b s) || occurs sub s) in H.
    change (occurs sub (String b s +:+ rest))
      with (starts_with sub (String b s +:+ rest) || occurs sub (s +:+ rest)).
    apply orb_true_iff in H as [H|H].
    + rewrite (starts_with_app_l _ _ rest H). reflexivity.
    + rewrite (IH H). apply orb_true_r.
Qed.

Lemma occurs_app_r (sub pre s : string) :
  occurs sub s = true → occurs sub (pre +:+ s) = true.
Proof.
  intros H. induction pre as [|b pre IH]; simpl; [exact H|].
  rewrite IH. apply orb_true_r.
Qed.

Lemma occurs_refl (x : string) : occurs x x = true.
Proof.
  assert (Hrefl : ∀ y, starts_with y y = true).
  { induction y as [|a y IH]; simpl; [reflexivity|]. rewrite Ascii.eqb_refl. exact IH. }
  destruct x; simpl; [reflexivity|]. rewrite Ascii.eqb_refl, Hrefl. reflexivity.
Qed.

Lemma occurs_join (sep x : string) (l : list string) :
  x ∈ l → occurs x (join sep l) = true.
Proof.
  induction l as [|y [|z l] IH]; intros Hin.
  - inversion Hin.
  - apply list_elem_of_singleton in Hin as ->. simpl.
    apply occurs_refl.
  - apply elem_of_cons in Hin as [->|Hin].
    + apply occurs_here.
    + change (join sep (y :: z :: l)) with (y +:+ sep +:+ join sep (z :: l)).
      apply occurs_app_r, occurs_app_r, IH, Hin.
Qed.

(** ** The cached error and the disposed flag *)

Lemma error_run (pf : Platform) (evs : list Event) :
  ∀ s s', inv pf s → run pf s evs = inr s' →
  currentError s' = latest_crash (exitListener s) (currentError s) evs ∧
  exitListener s' =
    exitListener s && forallb (fun ev => negb (is_CallDispose ev)) evs.
Proof.
  induction evs as [|ev evs IH]; intros s s' Hs Hrun; simpl in Hrun.
  - injection Hrun as <-. simpl. rewrite andb_true_r. done.
  - destruct (step pf s ev) as [err|s1] eqn:Hstep; [discriminate|].
    destruct (IH s1 s' (step_inv pf ev s s1 Hs Hstep) Hrun) as [-> ->].
    destruct (step_effects pf ev s s1 Hs Hstep) as (_ & -> & -> & _).
    destruct ev as [| | |[| |]]; simpl; rewrite ?andb_false_r; done.
Qed.

Lemma latest_crash_calm (listening : bool) (e : option JsError) (evs : list Event) :
  Forall (fun ev => is_exit ev = false) evs → latest_crash listening e evs = e.
Proof.
  intros Hevs. revert listening. induction Hevs as [|ev evs Hev _ IH]; intros b;
    [reflexivity|].
  destruct ev as [| | |[| |]]; simpl; try apply IH. discriminate.
Qed.

Lemma latest_crash_shape (evs : list Event) :
  ∀ listening e e', (∀ x, e = Some x → ∃ code, x = crash_error code) →
  latest_crash listening e evs = Some e' → ∃ code, e' = crash_error code.
Proof.
  induction evs as [|ev evs IH]; intros b e e' He Hl; simpl in Hl; [eauto|].
  destruct ev as [| | |[| |]]; try (eapply IH; [|exact Hl]; done).
  eapply IH; [|exact Hl]. destruct b; [|done]. intros x [= <-]. eauto.
Qed.

(** ** The recent output of the worker *)

(** X1.  [handleData] keeps a bounded window of the worker's output: at
    any time [lastMessagesQueue] holds the last 10 chunks that arrived on
    stdout and stderr, oldest first, and never more than 10.  No other
    event touches it, and with at most 10 chunks so far nothing has been
    dropped.  A chunk of output in turn changes the buffer (and the trace
    log) and nothing else: no promise, no record, no error, nothing
    sent. *)
Theorem recent_output_is_last_ten_chunks (pf : Platform) rp lc pl wd cp
    (evs : list Event) (s : Proxy) :
  run pf (create rp lc pl wd cp) evs = inr s →
  lastMessagesQueue s = last_n 10 (chunks evs) ∧
  (length (lastMessagesQueue s) ≤ 10)%nat ∧
  (∃ older, chunks evs = older ++ lastMessagesQueue s) ∧
  ((length (chunks evs) ≤ 10)%nat → lastMessagesQueue s = chunks evs) ∧
  ∀ chunk, ∃ s',
    step pf s (Emit (stdio chunk)) = inr s' ∧
    lastMessagesQueue s' = last_n 10 (chunks evs ++ [chunk]) ∧
    heap s' = heap s ∧ workerTasks s' = workerTasks s ∧
    currentError s' = currentError s ∧ isDisposed s' = isDisposed s ∧
    disposeTask s' = disposeTask s ∧ killed s' = killed s ∧
    exitListener s' = exitListener s ∧
    (microtasks s = [] → sent s' = sent s).
Proof.
  intros Hrun.
  pose proof (run_inv pf evs _ s (create_inv pf rp lc pl wd cp) Hrun) as Hs.
  assert (Hq : lastMessagesQueue s = last_n 10 (chunks evs)).
  { rewrite (lastMessagesQueue_run pf evs _ s (create_inv pf rp lc pl wd cp) Hrun).
    simpl. apply remembered_last_n. }
  split; [done|]. split; [rewrite Hq; unfold last_n; rewrite length_drop; lia|].
  split; [|split].
  - exists (take (length (chunks evs) - 10) (chunks evs)).
    rewrite Hq. unfold last_n. rewrite take_drop. done.
  - intros Hle. rewrite Hq. unfold last_n.
    replace (length (chunks evs) - 10)%nat with 0%nat by lia. done.
  - intros chunk. eexists. split; [apply (emit_stdio pf s chunk Hs)|].
    rewrite lastMessagesQueue_handleData. simpl. rewrite Hq, remember_last_n.
    unfold handleData. destruct (traceEnabled pf); simpl; repeat split;
      intros ->; apply app_nil_r.
Qed.

Lemma recent_output_is_last_ten_chunks_witness :
  lastMessagesQueue (final linux fresh twelve_chunks) =
  ["3"; "4"; "5"; "6"; "7"; "8"; "9"; "10"; "11"; "12"].
Proof.
  destruct (recent_output_is_last_ten_chunks linux "./JestTestRunner" undefined
              ["stryker-jest-runner"] "/tmp/project" [data "{}"] twelve_chunks
              (final linux fresh twelve_chunks)) as [-> _].
  - vm_compute. reflexivity.
  - vm_compute. reflexivity.
Defined.

(** X2.  With trace logging enabled when the proxy was built, every chunk
    of the worker's output is logged at trace level, once and in the
    order of arrival, and nothing else is; with trace logging disabled
    the log has no trace line at all. *)
Theorem output_traced_when_enabled (pf : Platform) rp lc pl wd cp
    (evs : list Event) (s : Proxy) :
  run pf (create rp lc pl wd cp) evs = inr s →
  at_level Trace (logged s) = if traceEnabled pf then chunks evs else [].
Proof.
  intros Hrun.
  rewrite (logged_run pf evs _ s (create_inv pf rp lc pl wd cp) Hrun). simpl.
  eapply journal_trace. exact Hrun.
Qed.

Lemma output_traced_when_enabled_witness :
  at_level Trace (logged (final chatty fresh noisy)) = ["a"; "b"].
Proof.
  rewrite (output_traced_when_enabled chatty "./JestTestRunner" undefined
             ["stryker-jest-runner"] "/tmp/project" [data "{}"] noisy
             (final chatty fresh noisy)).
  - vm_compute. reflexivity.
  - vm_compute. reflexivity.
Defined.

(** ** Messages of an unknown kind *)

(** X3.  A message whose kind the proxy does not know is logged as an
    error and otherwise ignored: the log of a run has one error line per
    such message and no other error line, and handling one leaves the
    store of promises, the table of pending calls, the cached error, the
    disposal state, the buffer of recent output and the exit listener as
    they were, and sends nothing. *)
Theorem unidentified_message_only_logged (pf : Platform) rp lc pl wd cp
    (evs : list Event) (s : Proxy) :
  run pf (create rp lc pl wd cp) evs = inr s →
  at_level LogError (logged s) =
    map (fun _ => "Received unidentified message [object Object]")
      (List.filter is_Unidentified evs) ∧
  ∀ kind, ∃ s',
    step pf s (Emit (message (Unidentified kind))) = inr s' ∧
    logged s' =
      logged s ++ [(LogError, "Received unidentified message [object Object]")] ∧
    heap s' = heap s ∧ workerTasks s' = workerTasks s ∧
    currentError s' = currentError s ∧ isDisposed s' = isDisposed s ∧
    disposeTask s' = disposeTask s ∧ killed s' = killed s ∧
    lastMessagesQueue s' = lastMessagesQueue s ∧ exitListener s' = exitListener s ∧
    (microtasks s = [] → sent s' = sent s).
Proof.
  intros Hrun. pose proof (run_inv pf evs _ s (create_inv pf rp lc pl wd cp) Hrun) as Hs.
  split.
  - rewrite (logged_run pf evs _ s (create_inv pf rp lc pl wd cp) Hrun). simpl.
    eapply journal_errors. exact Hrun.
  - intros kind. eexists. split; [apply (emit_unidentified pf s kind Hs)|].
    simpl. repeat split. intros ->. apply app_nil_r.
Qed.

Lemma unidentified_message_only_logged_witness :
  at_level LogError (logged (final chatty fresh noisy)) =
  ["Received unidentified message [object Object]"].
Proof.
  destruct (unidentified_message_only_logged chatty "./JestTestRunner" undefined
              ["stryker-jest-runner"] "/tmp/project" [data "{}"] noisy
              (final chatty fresh noisy)) as [-> _].
  - vm_compute. reflexivity.
  - vm_compute. reflexivity.
Defined.

(** ** Replies and the calls they belong to *)

(** X4.  A [Result] or a [Rejection] whose id has a record settles the
    promise of that record and no other: a pending call is fulfilled
    with the result, or rejected with an [Error] carrying the message;
    a call that was settled before (rejected by a crash, say) keeps its
    outcome.  The record is deleted, every other record stays, and the
    proxy is as healthy as it was: no error is cached, nothing is killed
    or logged. *)
Theorem reply_settles_only_its_call (pf : Platform) (s : Proxy) (c : Z) (p : ref)
    (m : ParentMessage) (o : Settlement) :
  reachable pf s → task_at (workerTasks s) c = Some p → answer m = Some (c, o) →
  ∃ s', step pf s (Emit (message m)) = inr s' ∧
    (outcome s p = Some None → outcome s' p = Some (Some o)) ∧
    (∀ o', outcome s p = Some (Some o') → outcome s' p = Some (Some o')) ∧
    (∀ q, q ≠ p → heap s' !! q = heap s !! q) ∧
    length (heap s') = length (heap s) ∧
    task_at (workerTasks s') c = None ∧
    (∀ c', c' ≠ c → task_at (workerTasks s') c' = task_at (workerTasks s) c') ∧
    currentError s' = currentError s ∧ isDisposed s' = isDisposed s ∧
    killed s' = killed s ∧ logged s' = logged s.
Proof.
  intros Hr Ht Ha. pose proof (reachable_inv pf s Hr) as Hs.
  apply answer_cases in Ha.
  eexists. split; [apply (emit_routed pf s c p m o Hs Ht Ha)|]. simpl.
  assert (Hcell : ∀ x, outcome s p = Some x →
            settled <$> settle_heap p o (heap s) !! p =
            Some (Some (match x with None => o | Some o' => o' end))).
  { unfold outcome. intros x Hx.
    destruct (heap s !! p) as [cell|] eqn:Hc; [|discriminate].
    rewrite (settle_heap_eq p o _ cell Hc).
    destruct cell as [[o'|] rs]; simpl in *; injection Hx as <-; reflexivity. }
  split; [intros Hp; apply (Hcell None Hp)|].
  split; [intros o' Hp; apply (Hcell (Some o') Hp)|].
  split; [intros q Hne; apply settle_heap_ne; done|].
  split; [apply length_settle_heap|].
  split; [apply task_at_deleted|].
  split; [|done].
  intros c' Hne. apply task_at_delete_ne; [|done]. apply task_at_Some in Ht. tauto.
Qed.

Lemma reply_settles_only_its_call_witness :
  ∃ s', step linux (final linux fresh [Invoke "init" []; Invoke "run" []])
             (Emit (message (Rejection 1 "boom"))) = inr s' ∧
        outcome s' 2%nat = Some (Some (Rejected (Error "boom"))) ∧
        outcome s' 1%nat = Some None.
Proof.
  destruct (reply_settles_only_its_call linux
              (final linux fresh [Invoke "init" []; Invoke "run" []]) 1 2%nat
              (Rejection 1 "boom") (Rejected (Error "boom")))
    as (s' & Hstep & Hp & _ & Hother & _).
  - exists "./JestTestRunner", undefined, ["stryker-jest-runner"], "/tmp/project",
      [data "{}"], [Invoke "init" []; Invoke "run" []]. vm_compute. reflexivity.
  - vm_compute. reflexivity.
  - reflexivity.
  - exists s'. split; [exact Hstep|]. split.
    + apply Hp. vm_compute. reflexivity.
    + unfold outcome. rewrite (Hother 1%nat) by discriminate. vm_compute. reflexivity.
Defined.

Lemma forward_pending (pf : Platform) (m : string) (a : list Value) (s : Proxy) :
  inv pf s → currentError s = None →
  outcome (fst (forward m a s)) (length (heap s)) = Some None.
Proof.
  intros Hs He. rewrite forward_healthy by done.
  destruct (inv_cell0 _ _ Hs) as (c0 & Hc0 & _).
  pose proof (lookup_lt_Some _ _ _ Hc0) as Hlen.
  unfold outcome, attach. simpl. rewrite (inv_init _ _ Hs).
  rewrite (lookup_app_l_Some _ _ _ _ Hc0).
  destruct c0 as [[o|] rs]; simpl.
  - rewrite list_lookup_middle; done.
  - rewrite list_lookup_insert_ne by lia. rewrite list_lookup_middle; done.
Qed.

(** X5.  The reply reaches the invocation it answers.  An invocation on
    a healthy proxy gets the next correlation id [n] and returns a
    pending promise.  Whatever happens next short of a reply with id [n]
    and an exit of the worker (further invocations, replies to other
    calls, output, a disposal and its acknowledgement), that promise
    stays pending under id [n]; the [Result] with id [n] then fulfils it
    with the result and the [Rejection] with id [n] rejects it with the
    error, for good. *)
Theorem reply_reaches_its_invocation (pf : Platform) (s : Proxy) (m : string)
    (a : list Value) (evs : list Event) (s2 : Proxy) :
  reachable pf s → currentError s = None →
  let n := Z.of_nat (length (workerTasks s)) in
  let p := length (heap s) in
  Forall (fun ev => replies_to n ev = false ∧ is_exit ev = false) evs →
  run pf (fst (forward m a s)) evs = inr s2 →
  snd (forward m a s) = Stored p ∧
  task_at (workerTasks s2) n = Some p ∧ outcome s2 p = Some None ∧
  ∀ reply o, answer reply = Some (n, o) →
    ∃ s3, step pf s2 (Emit (message reply)) = inr s3 ∧
          outcome s3 p = Some (Some o) ∧
          ∀ evs' s4, run pf s3 evs' = inr s4 → outcome s4 p = Some (Some o).
Proof.
  intros Hr He n p Hevs Hrun. pose proof (reachable_inv pf s Hr) as Hs.
  assert (Hs1 : inv pf (fst (forward m a s))) by (apply forward_inv; done).
  assert (Hinc1 : increasing (workerTasks (fst (forward m a s)))).
  { apply (increasing_step pf (Invoke m a) s _ Hs eq_refl).
    apply (reachable_increasing pf). done. }
  assert (Ht1 : task_at (workerTasks (fst (forward m a s))) n = Some p).
  { rewrite workerTasks_forward by done. apply task_at_snoc. }
  pose proof (forward_pending pf m a s Hs He) as Hp1. fold p in Hp1.
  destruct (pending_call_run pf evs n p _ s2 Hs1 Hinc1 Ht1 Hp1) as [Ht2 Hp2].
  { eapply Forall_impl; [exact Hevs|]. intros ev [? _]. done. }
  { right. eapply Forall_impl; [exact Hevs|]. intros ev [_ ?]. done. }
  { exact Hrun. }
  split; [rewrite forward_healthy by done; reflexivity|].
  split; [done|]. split; [done|].
  intros reply o Ha. pose proof (run_inv pf evs _ s2 Hs1 Hrun) as Hs2.
  destruct (reply_settles pf s2 n p reply o Hs2 Ht2 Hp2 (answer_cases _ _ _ Ha))
    as (s3 & Hstep & Hp3 & _).
  exists s3. split; [done|]. split; [done|].
  intros evs' s4 Hrun'. eapply run_outcome_stable; [|exact Hp3|exact Hrun'].
  eapply step_inv; eauto.
Qed.

Lemma reply_reaches_its_invocation_witness :
  ∃ s3, step linux
          (final linux (fst (forward "mutate" [] (final linux fresh two_calls)))
             [Emit (stdio "working"); Emit (message (Result 1 undefined)); CallDispose])
          (Emit (message (Result 2 (data "done")))) = inr s3 ∧
        outcome s3 3%nat = Some (Some (Fulfilled (data "done"))).
Proof.
  destruct (reply_reaches_its_invocation linux (final linux fresh two_calls) "mutate" []
              [Emit (stdio "working"); Emit (message (Result 1 undefined)); CallDispose]
              (final linux (fst (forward "mutate" [] (final linux fresh two_calls)))
                 [Emit (stdio "working"); Emit (message (Result 1 undefined));
                  CallDispose]))
    as (_ & _ & _ & Hreply).
  - exists "./JestTestRunner", undefined, ["stryker-jest-runner"], "/tmp/project",
      [data "{}"], two_calls. vm_compute. reflexivity.
  - vm_compute. reflexivity.
  - repeat constructor.
  - vm_compute. reflexivity.
  - destruct (Hreply (Result 2 (data "done")) (Fulfilled (data "done")) eq_refl)
      as (s3 & Hstep & Hp & _).
    exists s3. split; [exact Hstep|]. exact Hp.
Defined.

(** ** Calls on the channel *)

(** X6.  Calls reach the channel in the order of the invocations, each
    with the method name and the arguments of its invocation and the id
    it was given.  The [Call] messages sent so far, followed by those
    queued and those waiting for the init task, are exactly the calls
    the run invoked on a healthy proxy, in that order: none is invented,
    dropped, duplicated or reordered.  Once the worker is initialized
    and the queue is empty, all of them have been sent. *)
Theorem calls_sent_in_invocation_order (pf : Platform) rp lc pl wd cp
    (evs : list Event) (s : Proxy) :
  run pf (create rp lc pl wd cp) evs = inr s →
  let asked := invocations pf (create rp lc pl wd cp) evs in
  requests s = asked ∧
  (∃ later, asked = List.filter is_Call (sent s) ++ later) ∧
  (is_settled (heap s) (initTask s) = true → microtasks s = [] →
   List.filter is_Call (sent s) = asked) ∧
  omap message_call asked = seqZ 0 (Z.of_nat (length (workerTasks s))).
Proof.
  intros Hrun asked. pose proof (create_inv pf rp lc pl wd cp) as H0.
  pose proof (run_inv pf evs _ s H0 Hrun) as Hs.
  assert (Hreq : requests s = asked).
  { rewrite (requests_run pf evs _ s H0 Hrun). reflexivity. }
  split; [done|]. split; [|split].
  - rewrite <- Hreq. unfold requests. eauto.
  - intros Hset Hq. rewrite <- Hreq. unfold requests, waiting. rewrite Hq.
    rewrite (inv_init _ _ Hs) in *.
    destruct (inv_cell0 _ _ Hs) as (c0 & Hc0 & _ & Hdone). rewrite Hc0.
    unfold is_settled in Hset. rewrite Hc0 in Hset.
    destruct c0 as [[o|] rs]; [|discriminate].
    destruct (Hdone o eq_refl) as [Hrs _]. simpl in *. subst rs.
    simpl. rewrite app_nil_r. reflexivity.
  - rewrite <- Hreq, <- scheduled_requests. apply (inv_ids _ _ Hs).
Qed.

Lemma calls_sent_in_invocation_order_witness :
  List.filter is_Call (sent (final linux fresh three_calls)) =
  [Call 0 "init" []; Call 1 "run" [data "1"]; Call 2 "run" [data "2"]].
Proof.
  destruct (calls_sent_in_invocation_order linux "./JestTestRunner" undefined
              ["stryker-jest-runner"] "/tmp/project" [data "{}"] three_calls
              (final linux fresh three_calls)) as (_ & _ & -> & _).
  - vm_compute. reflexivity.
  - vm_compute. reflexivity.
  - vm_compute. reflexivity.
  - vm_compute. reflexivity.
Defined.

(** ** Disposal and the calls in flight *)

(** X7.  [dispose()] settles no call.  A call that is pending when the
    proxy is disposed of stays pending, with its record in the table,
    through the disposal, its acknowledgement, the kill and the exit of
    the worker: after [dispose()] only a reply with its id can settle
    it. *)
Theorem dispose_leaves_calls_pending (pf : Platform) (s : Proxy) (c : Z) (p : ref)
    (evs : list Event) (s2 : Proxy) :
  reachable pf s → task_at (workerTasks s) c = Some p → outcome s p = Some None →
  Forall (fun ev => replies_to c ev = false) evs →
  run pf (fst (dispose s)) evs = inr s2 →
  task_at (workerTasks s2) c = Some p ∧ outcome s2 p = Some None.
Proof.
  intros Hr Ht Hp Hevs Hrun. pose proof (reachable_inv pf s Hr) as Hs.
  assert (Hsame : workerTasks (fst (dispose s)) = workerTasks s ∧
                  exitListener (fst (dispose s)) = false).
  { destruct (isDisposed s) eqn:Hd.
    - rewrite dispose_disposed by done. done.
    - rewrite dispose_active by done. done. }
  destruct Hsame as [Htab Hex].
  apply (pending_call_run pf evs c p (fst (dispose s)) s2); auto.
  - apply dispose_inv. done.
  - rewrite Htab. apply (reachable_increasing pf). done.
  - rewrite Htab. done.
  - unfold outcome in *. destruct (heap s !! p) as [cell|] eqn:Hc; [|discriminate].
    rewrite (heap_dispose s p cell Hc). done.
Qed.

Lemma dispose_leaves_calls_pending_witness :
  outcome (final linux (fst (dispose (final linux fresh one_pending_call)))
             [Emit (message DisposeCompleted); Emit (exit (Some 0) None)]) 1%nat
  = Some None.
Proof.
  apply (dispose_leaves_calls_pending linux (final linux fresh one_pending_call) 0 1%nat
           [Emit (message DisposeCompleted); Emit (exit (Some 0) None)]).
  - exists "./JestTestRunner", undefined, ["stryker-jest-runner"], "/tmp/project",
      [data "{}"], one_pending_call. vm_compute. reflexivity.
  - vm_compute. reflexivity.
  - vm_compute. reflexivity.
  - repeat constructor.
  - vm_compute. reflexivity.
Defined.

(** X8.  [dispose()] takes the exit listener off for good, so from then
    on the exit of the worker is not recorded as a crash: the cached
    error stays what it was, no crash line is logged, and on a proxy
    that was healthy every later invocation is still forwarded as a new
    pending call instead of being rejected. *)
Theorem no_crash_recorded_after_dispose (pf : Platform) (s : Proxy)
    (evs : list Event) (s2 : Proxy) :
  reachable pf s → run pf (fst (dispose s)) evs = inr s2 →
  exitListener s2 = false ∧ currentError s2 = currentError s ∧
  at_level Debug (logged s2) = at_level Debug (logged s) ∧
  (currentError s = None →
   ∀ m a, snd (forward m a s2) = Stored (length (heap s2)) ∧
          outcome (fst (forward m a s2)) (length (heap s2)) = Some None).
Proof.
  intros Hr Hrun. pose proof (reachable_inv pf s Hr) as Hs.
  assert (Hsame : exitListener (fst (dispose s)) = false ∧
                  currentError (fst (dispose s)) = currentError s ∧
                  at_level Debug (logged (fst (dispose s))) = at_level Debug (logged s)).
  { destruct (isDisposed s) eqn:Hd.
    - rewrite dispose_disposed by done. done.
    - rewrite dispose_active by done. done. }
  destruct Hsame as (Hex & He & Hlog).
  pose proof (dispose_inv pf s Hs) as Hs1.
  destruct (unsubscribed_run pf evs _ s2 Hs1 Hex Hrun) as (Hex2 & He2 & Hlog2).
  split; [done|]. split; [congruence|]. split; [congruence|].
  intros Hnone m a. assert (He3 : currentError s2 = None) by congruence.
  split; [rewrite forward_healthy by done; reflexivity|].
  apply (forward_pending pf); [|done]. eapply run_inv; eauto.
Qed.

Lemma no_crash_recorded_after_dispose_witness :
  currentError (final linux (fst (dispose fresh))
                  [Emit (exit (Some 1) (Some "SIGKILL"))]) = None.
Proof.
  destruct (no_crash_recorded_after_dispose linux fresh
              [Emit (exit (Some 1) (Some "SIGKILL"))]
              (final linux (fst (dispose fresh)) [Emit (exit (Some 1) (Some "SIGKILL"))]))
    as (_ & -> & _).
  - exists "./JestTestRunner", undefined, ["stryker-jest-runner"], "/tmp/project",
      [data "{}"], []. vm_compute. reflexivity.
  - vm_compute. reflexivity.
  - reflexivity.
Defined.

(** X9.  The worker is killed only in answer to an acknowledged
    disposal: as long as [dispose()] has not been called, or no
    [DisposeCompleted] has arrived, nothing has been killed, whatever
    else happened (calls, replies, output, the exit of the worker). *)
Theorem no_kill_before_acknowledged_dispose (pf : Platform) rp lc pl wd cp
    (evs : list Event) (s : Proxy) :
  run pf (create rp lc pl wd cp) evs = inr s →
  CallDispose ∉ evs ∨ Emit (message DisposeCompleted) ∉ evs →
  killed s = [].
Proof.
  intros Hrun [Hnot|Hnot]; pose proof (create_inv pf rp lc pl wd cp) as H0.
  - pose proof (disposeTask_run pf evs _ s H0 Hnot Hrun) as Hdt. simpl in Hdt.
    pose proof (inv_dispose _ _ (run_inv pf evs _ s H0 Hrun)) as Hph.
    unfold dispose_phase in Hph. rewrite Hdt in Hph. exact Hph.
  - eapply not_killed_run; [exact H0|reflexivity|exact Hnot|exact Hrun].
Qed.

Lemma no_kill_before_acknowledged_dispose_witness :
  killed (final linux fresh unacknowledged) = [].
Proof.
  apply (no_kill_before_acknowledged_dispose linux "./JestTestRunner" undefined
           ["stryker-jest-runner"] "/tmp/project" [data "{}"] unacknowledged).
  - vm_compute. reflexivity.
  - right. unfold unacknowledged. rewrite !not_elem_of_cons.
    repeat split; try discriminate. apply not_elem_of_nil.
Defined.

(** ** The init handshake, repeated *)

(** X10.  [Initialized] is idempotent: when the init task is settled
    already, another [Initialized] message changes nothing.  The calls
    that were queued go out as they would have anyway, none is sent a
    second time, and on a proxy with an empty queue the state is exactly
    what it was. *)
Theorem repeated_initialized_is_ignored (pf : Platform) (s : Proxy) :
  reachable pf s → is_settled (heap s) (initTask s) = true →
  step pf s (Emit (message Initialized)) = inr (calm s) ∧
  requests (calm s) = requests s ∧
  (microtasks s = [] → step pf s (Emit (message Initialized)) = inr s).
Proof.
  intros Hr Hset. pose proof (reachable_inv pf s Hr) as Hs.
  assert (Hstep : step pf s (Emit (message Initialized)) = inr (calm s)).
  { rewrite (emit_initialized pf s Hs).
    rewrite settle_settled by (rewrite <- (inv_init _ _ Hs); exact Hset).
    rewrite (calm_quiet (calm s)) by reflexivity. reflexivity. }
  split; [done|]. split; [apply requests_calm|].
  intros Hq. rewrite Hstep, calm_quiet; done.
Qed.

Lemma repeated_initialized_is_ignored_witness :
  step linux (final linux fresh two_calls) (Emit (message Initialized)) =
  inr (final linux fresh two_calls).
Proof.
  destruct (repeated_initialized_is_ignored linux (final linux fresh two_calls))
    as (_ & _ & Hstep).
  - exists "./JestTestRunner", undefined, ["stryker-jest-runner"], "/tmp/project",
      [data "{}"], two_calls. vm_compute. reflexivity.
  - vm_compute. reflexivity.
  - apply Hstep. vm_compute. reflexivity.
Defined.

(** ** The crash report *)

Lemma logged_settle (p : ref) (o : Settlement) (s : Proxy) :
  logged (settle p o s) = logged s.
Proof. destruct (settle_frame p o s) as (h & q & -> & _). reflexivity. Qed.

Lemma logged_reject_each (e : JsError) (l : list ref) :
  ∀ s, logged (foldl (fun s task => Task_reject task e s) s l) = logged s.
Proof.
  induction l as [|r l IH]; intros s; simpl; [reflexivity|].
  rewrite IH. apply logged_settle.
Qed.

(** X11.  [stdoutAndStderr] says that the output was empty exactly when
    the buffer is empty; otherwise it quotes every buffered chunk, each
    behind a tab.  The crash handler logs one line at debug level, and
    that line contains this rendering of the buffer, the exit code and
    the signal (or "without signal"). *)
Theorem recent_output_is_quoted (pf : Platform) (messages : list string) :
  (stdoutAndStderr pf messages = "Stdout and stderr were empty." ↔ messages = []) ∧
  (∀ m, m ∈ messages → occurs (tab +:+ m) (stdoutAndStderr pf messages) = true) ∧
  ∀ code signal s, lastMessagesQueue s = messages →
    ∃ line,
      logged (handleUnexpectedExit pf code signal s) = logged s ++ [(Debug, line)] ∧
      occurs (stdoutAndStderr pf messages) line = true ∧
      occurs (show_code code) line = true ∧
      occurs (signal_or signal "without signal") line = true.
Proof.
  split; [|split].
  - rewrite stdoutAndStderr_cases. destruct messages; split; try done.
  - intros m Hm. rewrite stdoutAndStderr_cases.
    destruct messages as [|x l]; [inversion Hm|].
    apply occurs_app_r, occurs_app_r, occurs_join.
    apply (list_elem_of_fmap_2 (fun msg => tab +:+ msg)). exact Hm.
  - intros code signal s <-. eexists. split; [|split; [|split]].
    + unfold handleUnexpectedExit. simpl. rewrite logged_reject_each. reflexivity.
    + do 5 apply occurs_app_r. apply occurs_refl.
    + apply occurs_app_r, occurs_here.
    + do 3 apply occurs_app_r. apply occurs_here.
Qed.

Lemma recent_output_is_quoted_witness :
  occurs (tab +:+ "Segmentation fault")
    (stdoutAndStderr linux ["npm WARN"; "Segmentation fault"]) = true.
Proof.
  destruct (recent_output_is_quoted linux ["npm WARN"; "Segmentation fault"])
    as (_ & Hquoted & _).
  apply Hquoted. rewrite !elem_of_cons. auto.
Defined.

(** ** Ids that have been answered *)

(** X12.  A correlation id is used up by its reply.  Once the record of
    an id that was handed out is gone, no event brings it back: however
    the run goes on, a [Result] or a [Rejection] with that id finds no
    record and throws a TypeError. *)
Theorem answered_id_never_matches_again (pf : Platform) (s : Proxy) (c : Z)
    (evs : list Event) (s2 : Proxy) :
  reachable pf s → c < Z.of_nat (length (workerTasks s)) →
  task_at (workerTasks s) c = None → run pf s evs = inr s2 →
  task_at (workerTasks s2) c = None ∧
  (∀ v, step pf s2 (Emit (message (Result c v))) = inl (TypeError, calm s2)) ∧
  (∀ err, step pf s2 (Emit (message (Rejection c err))) = inl (TypeError, calm s2)).
Proof.
  intros Hr Hc Ht Hrun. pose proof (reachable_inv pf s Hr) as Hs.
  pose proof (hole_run pf evs c s s2 Hs Hc Ht Hrun) as Ht2.
  pose proof (run_inv pf evs s s2 Hs Hrun) as Hs2.
  split; [done|]. split.
  - intros v. apply (emit_unmatched pf s2 c); eauto.
  - intros err. apply (emit_unmatched pf s2 c); eauto.
Qed.

Lemma answered_id_never_matches_again_witness :
  step linux (final linux (final linux fresh two_calls) [Invoke "run" []; CallDispose])
    (Emit (message (Result 0 undefined))) =
  inl (TypeError,
       calm (final linux (final linux fresh two_calls) [Invoke "run" []; CallDispose])).
Proof.
  destruct (answered_id_never_matches_again linux (final linux fresh two_calls) 0
              [Invoke "run" []; CallDispose]
              (final linux (final linux fresh two_calls) [Invoke "run" []; CallDispose]))
    as (_ & Hres & _).
  - exists "./JestTestRunner", undefined, ["stryker-jest-runner"], "/tmp/project",
      [data "{}"], two_calls. vm_compute. reflexivity.
  - vm_compute. reflexivity.
  - vm_compute. reflexivity.
  - vm_compute. reflexivity.
  - apply Hres.
Defined.

(** ** When a call goes out *)

(** X13.  Once the worker is initialized, an invocation on a healthy
    proxy does not write to the channel itself: it queues a microtask
    that sends the [Call] with its id, method name and arguments.  The
    drain that follows sends the calls queued before it and then this
    one, and leaves the queue empty. *)
Theorem call_goes_out_in_a_microtask (pf : Platform) (s : Proxy) (m : string)
    (a : list Value) :
  reachable pf s → currentError s = None →
  is_settled (heap s) (initTask s) = true →
  let n := Z.of_nat (length (workerTasks s)) in
  let s1 := fst (forward m a s) in
  sent s1 = sent s ∧
  (∃ j, microtasks s1 = microtasks s ++ [j] ∧ job_message j = Some (Call n m a)) ∧
  sent (drain pf s1) = sent s ++ omap job_message (microtasks s) ++ [Call n m a] ∧
  microtasks (drain pf s1) = [] ∧
  (microtasks s = [] → sent (tick pf s1) = sent s ++ [Call n m a]).
Proof.
  intros Hr He Hset n s1. pose proof (reachable_inv pf s Hr) as Hs.
  assert (Hs1 : inv pf s1) by (apply forward_inv; done).
  destruct (inv_cell0 _ _ Hs) as (c0 & Hc0 & _ & Hdone).
  rewrite (inv_init _ _ Hs) in Hset. unfold is_settled in Hset. rewrite Hc0 in Hset.
  destruct c0 as [[o|] rs]; [|discriminate].
  assert (Hs1eq : s1 =
            set_microtasks
              (microtasks s ++ [reaction_job o (call_reaction n m a)])
              (set_workerTasks (workerTasks s ++ [Some (length (heap s))])
                 (set_heap (heap s ++ [pending]) s))).
  { unfold s1. rewrite forward_healthy by done. simpl. rewrite (inv_init _ _ Hs).
    rewrite (attach_settled _ _ _ o rs) by (simpl; apply lookup_app_l_Some; done).
    reflexivity. }
  destruct (Hdone o eq_refl) as [_ [v ->]].
  split; [rewrite Hs1eq; reflexivity|]. split.
  { eexists. rewrite Hs1eq. simpl. split; reflexivity. }
  rewrite (drain_calm pf s1 Hs1). split; [|split; [reflexivity|]].
  - rewrite Hs1eq. simpl. rewrite omap_app. reflexivity.
  - intros Hq. rewrite Hs1eq. unfold tick. simpl. rewrite Hq. reflexivity.
Qed.

Lemma call_goes_out_in_a_microtask_witness :
  sent (fst (forward "mutate" [] (final linux fresh two_calls))) =
    sent (final linux fresh two_calls) ∧
  sent (drain linux (fst (forward "mutate" [] (final linux fresh two_calls)))) =
    sent (final linux fresh two_calls) ++ [Call 2 "mutate" []].
Proof.
  destruct (call_goes_out_in_a_microtask linux (final linux fresh two_calls) "mutate" [])
    as (Hsent & _ & Hdrain & _).
  - exists "./JestTestRunner", undefined, ["stryker-jest-runner"], "/tmp/project",
      [data "{}"], two_calls. vm_compute. reflexivity.
  - vm_compute. reflexivity.
  - vm_compute. reflexivity.
  - split; [exact Hsent|]. rewrite Hdrain. vm_compute. reflexivity.
Defined.

(** ** Crashed, killed, disposed *)

(** X14.  The error a proxy has cached is that of the latest exit of the
    worker that happened before the first [dispose()]: the exit listener
    is in place until [dispose()] is first called and never again, and
    nothing but the exit handler sets the error.  So a proxy whose
    worker has not exited is healthy whatever else happened (rejected
    calls, unknown messages, output), and a cached error always is one
    of "Child process exited unexpectedly (code N)". *)
Theorem cached_error_is_latest_crash (pf : Platform) rp lc pl wd cp
    (evs : list Event) (s : Proxy) :
  run pf (create rp lc pl wd cp) evs = inr s →
  currentError s = latest_crash true None evs ∧
  exitListener s = forallb (fun ev => negb (is_CallDispose ev)) evs ∧
  (Forall (fun ev => is_exit ev = false) evs → currentError s = None) ∧
  (∀ e, currentError s = Some e → ∃ code, e = crash_error code).
Proof.
  intros Hrun.
  destruct (error_run pf evs _ s (create_inv pf rp lc pl wd cp) Hrun) as [He Hex].
  simpl in He, Hex. split; [done|]. split; [done|]. split.
  - intros Hevs. rewrite He. apply latest_crash_calm. done.
  - intros e Hsome. rewrite He in Hsome.
    eapply latest_crash_shape; [|exact Hsome]. discriminate.
Qed.

Lemma cached_error_is_latest_crash_witness :
  currentError (final linux fresh exits_twice) =
    Some (StrykerError "Child process exited unexpectedly (code 2)") ∧
  currentError (final linux fresh dispose_then_exit) = None.
Proof.
  split.
  - destruct (cached_error_is_latest_crash linux "./JestTestRunner" undefined
                ["stryker-jest-runner"] "/tmp/project" [data "{}"] exits_twice
                (final linux fresh exits_twice)) as (-> & _).
    + vm_compute. reflexivity.
    + vm_compute. reflexivity.
  - destruct (cached_error_is_latest_crash linux "./JestTestRunner" undefined
                ["stryker-jest-runner"] "/tmp/project" [data "{}"] dispose_then_exit
                (final linux fresh dispose_then_exit)) as (-> & _).
    + vm_compute. reflexivity.
    + vm_compute. reflexivity.
Defined.

(** ** Promises are never shared *)

(** X16.  Every pending call has a promise of its own: two records of
    the table never point to the same promise, a record never points to
    the init task, and the promise a later invocation or a later
    [dispose()] returns is a new one, not that of a call in the table. *)
Theorem calls_never_share_a_promise (pf : Platform) (s : Proxy) (c : Z) (p : ref) :
  reachable pf s → task_at (workerTasks s) c = Some p →
  (∀ c', task_at (workerTasks s) c' = Some p → c' = c) ∧
  p ≠ initTask s ∧ (p < length (heap s))%nat ∧
  0 ≤ c < Z.of_nat (length (workerTasks s)) ∧
  (∀ m a, snd (forward m a s) ≠ Stored p) ∧
  snd (dispose s) ≠ Stored p.
Proof.
  intros Hr Ht. pose proof (reachable_inv pf s Hr) as Hs.
  pose proof (reachable_increasing pf s Hr) as Hinc.
  destruct (inv_tasks _ _ Hs p (task_at_elem _ _ _ Ht)) as [Hpos Hlt%quiet_lt].
  split; [intros c' Ht'; eapply task_at_inj; eauto|].
  split; [rewrite (inv_init _ _ Hs); lia|]. split; [done|]. split.
  { apply task_at_Some in Ht as [Hc Hl]. apply lookup_lt_Some in Hl. lia. }
  split.
  - intros m a. destruct (currentError s) as [e|] eqn:He.
    + rewrite (forward_crashed m a s e He). discriminate.
    + rewrite forward_healthy by done. simpl. intros [= <-]. lia.
  - destruct (isDisposed s) eqn:Hd.
    + rewrite dispose_disposed by done. discriminate.
    + rewrite dispose_active by done. simpl. intros [= <-]. lia.
Qed.

Lemma calls_never_share_a_promise_witness :
  snd (forward "run" [] (final linux fresh one_pending_call)) ≠ Stored 1%nat.
Proof.
  destruct (calls_never_share_a_promise linux (final linux fresh one_pending_call)
              0 1%nat) as (_ & _ & _ & _ & Hfresh & _).
  - exists "./JestTestRunner", undefined, ["stryker-jest-runner"], "/tmp/project",
      [data "{}"], one_pending_call. vm_compute. reflexivity.
  - vm_compute. reflexivity.
  - apply Hfresh.
Defined.

(** ** Any scheduling *)

Lemma play_app (pf : Platform) (evs1 evs2 : list Event) (s : Proxy) :
  play pf s (evs1 ++ evs2) =
  match play pf s evs1 with
  | inr s' => play pf s' evs2
  | inl err => inl err
  end.
Proof.
  revert s. induction evs1 as [|ev evs1 IH]; intros s; simpl; [reflexivity|].
  destruct (handle pf s ev); [reflexivity | apply IH].
Qed.

Lemma drain_n_nil (pf : Platform) (n : nat) (s : Proxy) :
  microtasks s = [] → drain_n pf n s = s.
Proof. intros Hq. destruct n; simpl; [reflexivity|]. rewrite Hq. reflexivity. Qed.

Lemma drain_n_play (pf : Platform) (n : nat) :
  ∀ s, play pf s (replicate n Microtask) = inr (drain_n pf n s).
Proof.
  induction n as [|n IH]; intros s; simpl; [reflexivity|].
  rewrite IH. destruct (microtasks s) as [|j q] eqn:Hq; [|reflexivity].
  unfold tick. rewrite Hq. rewrite drain_n_nil by exact Hq. reflexivity.
Qed.

(** Draining is a run of microtasks. *)
Lemma drain_play (pf : Platform) (s : Proxy) :
  play pf s (replicate (backlog s) Microtask) = inr (drain pf s).
Proof. apply drain_n_play. Qed.

Lemma step_play (pf : Platform) (s : Proxy) (ev : Event) :
  ∃ evs, play pf s evs = step pf s ev.
Proof.
  destruct ev as [m a| | |e];
    [exists [Invoke m a]; reflexivity | exists [CallDispose]; reflexivity
    |exists [Microtask]; reflexivity|].
  simpl. destruct (listener pf e (drain pf s)) as [err|s1] eqn:He.
  - exists (replicate (backlog s) Microtask ++ [Emit e]).
    rewrite play_app, drain_play. simpl. rewrite He. reflexivity.
  - exists (replicate (backlog s) Microtask ++ [Emit e] ++
            replicate (backlog s1) Microtask).
    rewrite play_app, drain_play, play_app. simpl. rewrite He. apply drain_play.
Qed.

(** Every run of steps is a run under some scheduling. *)
Lemma run_play (pf : Platform) (evs : list Event) :
  ∀ s, ∃ evs', play pf s evs' = run pf s evs.
Proof.
  induction evs as [|ev evs IH]; intros s; [exists []; reflexivity|].
  destruct (step_play pf s ev) as (evs1 & H1). simpl.
  destruct (step pf s ev) as [err|s1] eqn:Hstep.
  - exists evs1. done.
  - destruct (IH s1) as (evs2 & H2). exists (evs1 ++ evs2).
    rewrite play_app, H1. exact H2.
Qed.

Lemma reachable_possible (pf : Platform) (s : Proxy) : reachable pf s → possible pf s.
Proof.
  intros (rp & lc & pl & wd & cp & evs & Hrun).
  destruct (run_play pf evs (create rp lc pl wd cp)) as (evs' & Hplay).
  exists rp, lc, pl, wd, cp, evs'. congruence.
Qed.


(** *** What settling and attaching do *)

Lemma settle_cases (k : ref) (o : Settlement) (s : Proxy) :
  settle k o s = s ∨
  ∃ rs, heap s !! k = Some {| settled := None; reactions := rs |} ∧
        settle k o s =
        set_microtasks (microtasks s ++ map (reaction_job o) rs)
          (set_heap (<[k := done_with o]> (heap s)) s).
Proof.
  unfold settle. destruct (heap s !! k) as [[[o'|] rs]|]; eauto.
Qed.

Lemma attach_cases (p : ref) (r : Reaction) (s : Proxy) :
  attach p r s = s ∨
  (∃ o rs, heap s !! p = Some {| settled := Some o; reactions := rs |} ∧
           attach p r s = set_microtasks (microtasks s ++ [reaction_job o r]) s) ∨
  (∃ rs, heap s !! p = Some {| settled := None; reactions := rs |} ∧
         attach p r s =
         set_heap (<[p := {| settled := None; reactions := rs ++ [r] |}]> (heap s)) s).
Proof.
  unfold attach. destruct (heap s !! p) as [[[o|] rs]|]; eauto 10.
Qed.

Lemma workerTasks_settle (k : ref) (o : Settlement) (s : Proxy) :
  workerTasks (settle k o s) = workerTasks s.
Proof. destruct (settle_frame k o s) as (h & q & -> & _). reflexivity. Qed.

(** *** Properties that survive every event *)

Section Stable.
Context (pf : Platform) (P : Proxy → Prop) (allowed : Proxy → ref → Settlement → Prop).
Hypothesis HP : stable pf P allowed.

Lemma stable_forward (m : string) (a : list Value) (s : Proxy) :
  P s → P (fst (forward m a s)).
Proof.
  intros Hs. destruct (currentError s) as [e|] eqn:He.
  { rewrite (forward_crashed m a s e He). exact Hs. }
  rewrite forward_healthy by done. simpl.
  apply (st_attach _ _ _ HP
           (set_workerTasks (workerTasks s ++ [Some (length (heap s))])
              (set_heap (heap s ++ [pending]) s))).
  - apply (st_call _ _ _ HP). exact Hs.
  - reflexivity.
  - intros [v|e]; reflexivity.
Qed.

Lemma stable_dispose (s : Proxy) : P s → P (fst (dispose s)).
Proof.
  intros Hs. destruct (isDisposed s) eqn:Hd.
  - rewrite dispose_disposed by done. apply (st_unlisten _ _ _ HP). exact Hs.
  - rewrite dispose_active by done. simpl.
    apply (st_send_dispose _ _ _ HP
             (set_heap (heap s ++ [waits_then (S (length (heap s)));
                                   waits_catch (S (S (length (heap s))));
                                   pending])
                (set_disposeTask (Some (length (heap s)))
                   (set_exitListener false s)))); [|exact Hd].
    apply (st_renew _ _ _ HP (set_exitListener false s)).
    apply (st_unlisten _ _ _ HP). exact Hs.
Qed.

Lemma stable_reject_each (e : JsError) (l : list ref) :
  ∀ s, P s → (∀ r, r ∈ l → Some r ∈ workerTasks s) →
  P (foldl (fun s task => Task_reject task e s) s l).
Proof.
  induction l as [|r l IH]; intros s Hs Hl; simpl; [exact Hs|].
  apply IH.
  - apply (st_settle _ _ _ HP). exact Hs.
    apply (st_task _ _ _ HP); [exact Hs|]. apply Hl. left.
  - intros r' Hr'. unfold Task_reject. rewrite workerTasks_settle.
    apply Hl. right. exact Hr'.
Qed.

Lemma stable_listener (e : WorkerEvent) (s s' : Proxy) :
  P s → listener pf e s = inr s' →
  (∀ t, e = message DisposeCompleted → disposeTask s = Some t →
        allowed s t (Fulfilled undefined)) →
  P s'.
Proof.
  intros Hs He Hdc. destruct e as [[|c v|c err| |kind]|chunk|code signal];
    simpl in He.
  - injection He as <-. apply (st_settle _ _ _ HP); [exact Hs|].
    apply (st_init _ _ _ HP). exact Hs.
  - destruct (task_at (workerTasks s) c) as [t|] eqn:Ht; [|discriminate].
    injection He as <-. apply (st_delete _ _ _ HP), (st_settle _ _ _ HP); [exact Hs|].
    apply (st_task _ _ _ HP); [exact Hs|]. eapply task_at_elem; eauto.
  - destruct (task_at (workerTasks s) c) as [t|] eqn:Ht; [|discriminate].
    injection He as <-. apply (st_delete _ _ _ HP), (st_settle _ _ _ HP); [exact Hs|].
    apply (st_task _ _ _ HP); [exact Hs|]. eapply task_at_elem; eauto.
  - destruct (disposeTask s) as [t|] eqn:Ht; injection He as <-; [|exact Hs].
    apply (st_settle _ _ _ HP); [exact Hs|]. apply Hdc; reflexivity.
  - injection He as <-. apply (st_log _ _ _ HP). exact Hs.
  - injection He as <-. unfold handleData.
    destruct (traceEnabled pf); [apply (st_log _ _ _ HP)|];
      apply (st_buffer _ _ _ HP); exact Hs.
  - injection He as <-. destruct (exitListener s); [|exact Hs].
    unfold handleUnexpectedExit.
    apply (st_disposed _ _ _ HP), stable_reject_each.
    + apply (st_error _ _ _ HP), (st_log _ _ _ HP). exact Hs.
    + intros r Hr. apply list_elem_of_In, filter_In in Hr as [Hr _].
      apply list_elem_of_In, elem_of_entries in Hr. exact Hr.
Qed.

Lemma stable_run_job (j : Job) (s : Proxy) :
  P s →
  (∀ s1 x, P s1 → target j = Some x →
           allowed s1 x (Fulfilled undefined) ∧ allowed s1 x (argument j)) →
  P (run_job pf j s).
Proof.
  intros Hs Hj. unfold run_job.
  assert (Hset : ∀ s1 o, P s1 →
            (∀ x, target j = Some x → allowed s1 x o) →
            P (settle_target (target j) o s1)).
  { intros s1 o Hs1 Ho. destruct (target j) as [x|]; simpl; [|exact Hs1].
    apply (st_settle _ _ _ HP); auto. }
  destruct (handler j) as [[c m a|]|].
  - apply Hset; [apply (st_send _ _ _ HP); exact Hs|].
    intros x Hx. apply Hj; [apply (st_send _ _ _ HP); exact Hs|exact Hx].
  - apply Hset; [apply (st_kill _ _ _ HP); exact Hs|].
    intros x Hx. apply Hj; [apply (st_kill _ _ _ HP); exact Hs|exact Hx].
  - apply Hset; [exact Hs|]. intros x Hx. apply Hj; done.
Qed.

(** [P] survives every event, given that it survives taking a job
    off the queue, that the job's target may be settled, and that the
    dispose task may be when [DisposeCompleted] arrives. *)
Lemma stable_handle (ev : Event) (s s' : Proxy) :
  P s → handle pf s ev = inr s' →
  (∀ j q, ev = Microtask → microtasks s = j :: q →
     P (set_microtasks q s) ∧
     ∀ s1 x, P s1 → target j = Some x →
             allowed s1 x (Fulfilled undefined) ∧ allowed s1 x (argument j)) →
  (∀ t, ev = Emit (message DisposeCompleted) → disposeTask s = Some t →
        allowed s t (Fulfilled undefined)) →
  P s'.
Proof.
  intros Hs Hev Hpop Hdc. destruct ev as [m a| | |e]; simpl in Hev.
  - injection Hev as <-. apply stable_forward. exact Hs.
  - injection Hev as <-. apply stable_dispose. exact Hs.
  - injection Hev as <-. unfold tick.
    destruct (microtasks s) as [|j q] eqn:Hq; [exact Hs|].
    destruct (Hpop j q eq_refl eq_refl) as [Hs0 Hj].
    apply stable_run_job; done.
  - eapply stable_listener; [exact Hs|exact Hev|].
    intros t -> Ht. apply Hdc; done.
Qed.
End Stable.

Lemma stable_and (pf : Platform) (P Q : Proxy → Prop)
    (a b : Proxy → ref → Settlement → Prop) :
  stable pf P a → stable pf Q b →
  stable pf (fun s => P s ∧ Q s) (fun s k o => a s k o ∧ b s k o).
Proof.
  intros HP HQ. constructor.
  - intros s c m args [? ?].
    split; [apply (st_send _ _ _ HP)|apply (st_send _ _ _ HQ)]; done.
  - intros s [? ?] Hd.
    split; [apply (st_send_dispose _ _ _ HP)|apply (st_send_dispose _ _ _ HQ)]; done.
  - intros s l t [? ?]. split; [apply (st_log _ _ _ HP)|apply (st_log _ _ _ HQ)]; done.
  - intros s [? ?]. split; [apply (st_kill _ _ _ HP)|apply (st_kill _ _ _ HQ)]; done.
  - intros s e [? ?]. split; [apply (st_error _ _ _ HP)|apply (st_error _ _ _ HQ)]; done.
  - intros s [? ?].
    split; [apply (st_disposed _ _ _ HP)|apply (st_disposed _ _ _ HQ)]; done.
  - intros s [? ?].
    split; [apply (st_unlisten _ _ _ HP)|apply (st_unlisten _ _ _ HQ)]; done.
  - intros s q [? ?].
    split; [apply (st_buffer _ _ _ HP)|apply (st_buffer _ _ _ HQ)]; done.
  - intros s k o [? ?] [? ?].
    split; [apply (st_settle _ _ _ HP)|apply (st_settle _ _ _ HQ)]; done.
  - intros s v [? ?]. split; [apply (st_init _ _ _ HP)|apply (st_init _ _ _ HQ)]; done.
  - intros s k o [? ?] Hk.
    split; [apply (st_task _ _ _ HP)|apply (st_task _ _ _ HQ)]; done.
  - intros s [? ?]. split; [apply (st_call _ _ _ HP)|apply (st_call _ _ _ HQ)]; done.
  - intros s r [? ?] Hr Hk.
    split; [apply (st_attach _ _ _ HP)|apply (st_attach _ _ _ HQ)]; done.
  - intros s [? ?]. split; [apply (st_renew _ _ _ HP)|apply (st_renew _ _ _ HQ)]; done.
  - intros s c [? ?].
    split; [apply (st_delete _ _ _ HP)|apply (st_delete _ _ _ HQ)]; done.
Qed.

(** *** The store under the operations of the class *)

Lemma insert_done_reactions (h : list Promise) (k k' : ref) (o : Settlement)
    (c : Promise) (r : Reaction) :
  <[k := done_with o]> h !! k' = Some c → r ∈ reactions c →
  k' ≠ k ∧ h !! k' = Some c.
Proof.
  intros Hc Hr. destruct (decide (k' = k)) as [->|Hne].
  - apply list_lookup_insert_Some in Hc as [(_ & <- & _)|[? _]]; [|done].
    inversion Hr.
  - rewrite list_lookup_insert_ne in Hc by done. done.
Qed.

Lemma insert_more_reactions (h : list Promise) (p k' : ref) (rs : list Reaction)
    (r0 r : Reaction) (c : Promise) :
  h !! p = Some {| settled := None; reactions := rs |} →
  <[p := {| settled := None; reactions := rs ++ [r0] |}]> h !! k' = Some c →
  r ∈ reactions c →
  r = r0 ∨ ∃ c', h !! k' = Some c' ∧ r ∈ reactions c'.
Proof.
  intros Hp Hc Hr. destruct (decide (k' = p)) as [->|Hne].
  - apply list_lookup_insert_Some in Hc as [(_ & <- & _)|[? _]]; [|done].
    simpl in Hr. apply elem_of_app in Hr as [Hr|Hr%list_elem_of_singleton]; eauto.
  - rewrite list_lookup_insert_ne in Hc by done. eauto.
Qed.

Lemma app_cells_lookup (h cells : list Promise) (k : ref) (c : Promise) :
  (h ++ cells) !! k = Some c →
  h !! k = Some c ∨ ((length h ≤ k)%nat ∧ c ∈ cells).
Proof.
  intros Hc. apply lookup_app_Some in Hc as [Hc|[Hle Hc]]; [auto|].
  right. split; [done|]. eapply list_elem_of_lookup_2; eauto.
Qed.

Lemma disposal_cells_derive (n : nat) (c : Promise) (r : Reaction) (x : ref) :
  c ∈ [waits_then (S n); waits_catch (S (S n)); pending] → r ∈ reactions c →
  derived r = Some x → x = S n ∨ x = S (S n).
Proof.
  rewrite !elem_of_cons. intros [->|[->|[->|Hc]]] Hr Hx; simpl in Hr.
  - apply list_elem_of_singleton in Hr as ->. simpl in Hx. left. congruence.
  - apply list_elem_of_singleton in Hr as ->. simpl in Hx. right. congruence.
  - inversion Hr.
  - inversion Hc.
Qed.

Lemma elem_of_reaction_jobs (o : Settlement) (rs : list Reaction) (j : Job) :
  j ∈ map (reaction_job o) rs → ∃ r, j = reaction_job o r ∧ r ∈ rs.
Proof.
  intros Hj. apply list_elem_of_In, in_map_iff in Hj as (r & <- & Hr).
  exists r. split; [done|]. apply list_elem_of_In. done.
Qed.

(** *** A promise nothing will settle *)

Lemma held_stable (pf : Platform) (q : ref) (c : Promise) :
  stable pf (fun s => held s q c) (fun _ k _ => k ≠ q).
Proof.
  constructor; try (intros; assumption).
  - intros s k o (Hc & (Hi & Ht & Hl) & Hn & Ha) Hk.
    destruct (settle_cases k o s) as [->|(rs & Hrs & ->)]; [done|].
    split; [simpl; rewrite list_lookup_insert_ne; done|].
    split; [split; [done|split; [done|simpl; rewrite length_insert; done]]|].
    split.
    + intros k' c' r Hc' Hr. simpl in Hc'.
      destruct (insert_done_reactions _ _ _ _ _ _ Hc' Hr). eauto.
    + intros j [Hj|Hj]%elem_of_app; [auto|].
      apply elem_of_reaction_jobs in Hj as (r & -> & Hr). simpl. eapply Hn; eauto.
  - intros s v (_ & (Hi & _) & _). done.
  - intros s k o (_ & (_ & Ht & _) & _) Hk ->. done.
  - intros s (Hc & (Hi & Ht & Hl) & Hn & Ha).
    split; [simpl; apply lookup_app_l_Some; done|].
    split; [split; [done|split; [|simpl; rewrite length_app; lia]]|].
    { simpl. intros [Hin|Hin%list_elem_of_singleton]%elem_of_app; [done|].
      injection Hin as ->. lia. }
    split; [|done].
    intros k' c' r Hc' Hr. simpl in Hc'.
    apply app_cells_lookup in Hc' as [Hc'|[_ Hc']]; [eauto|].
    apply list_elem_of_singleton in Hc' as ->. inversion Hr.
  - intros s r (Hc & (Hi & Ht & Hl) & Hn & Ha) Hr _.
    destruct (attach_cases (initTask s) r s) as [->|[(o & rs & Hrs & ->)|(rs & Hrs & ->)]].
    + done.
    + split; [done|]. split; [done|]. split; [done|].
      intros j [Hj|Hj%list_elem_of_singleton]%elem_of_app; [auto|].
      subst j. simpl. congruence.
    + split; [simpl; rewrite list_lookup_insert_ne; done|].
      split; [split; [done|split; [done|simpl; rewrite length_insert; done]]|].
      split; [|done].
      intros k' c' r' Hc' Hr'. simpl in Hc'.
      destruct (insert_more_reactions _ _ _ _ _ _ _ Hrs Hc' Hr')
        as [->|(c'' & Hc'' & Hr'')]; [congruence|eauto].
  - intros s (Hc & (Hi & Ht & Hl) & Hn & Ha).
    split; [simpl; apply lookup_app_l_Some; done|].
    split; [split; [done|split; [done|simpl; rewrite length_app; lia]]|].
    split; [|done].
    intros k' c' r Hc' Hr Hx. simpl in Hc'.
    apply app_cells_lookup in Hc' as [Hc'|[_ Hc']]; [eapply Hn; eauto|].
    destruct (disposal_cells_derive _ _ _ _ Hc' Hr Hx); lia.
  - intros s c' (Hc & (Hi & Ht & Hl) & Hn & Ha).
    split; [done|]. split; [|done]. split; [done|]. split; [|done].
    simpl. intros Hin%elem_of_delete_at. done.
Qed.

(** *** A promise only one reaction will settle *)

Lemma armed_stable (pf : Platform) (i q : ref) (c : Promise) :
  stable pf (fun s => armed s i q c) (fun _ k _ => k ≠ i ∧ k ≠ q).
Proof.
  constructor; try (intros; assumption).
  - intros s k o (Hc & ((Hi & Ht & Hl) & Hd) & (Hi' & Ht' & Hl') & Hn & Ha) [Hki Hkq].
    destruct (settle_cases k o s) as [->|(rs & Hrs & ->)]; [done|].
    split; [simpl; rewrite list_lookup_insert_ne; done|].
    split; [split; [split; [done|split; [done|simpl; rewrite length_insert; done]]|done]|].
    split; [split; [done|split; [done|simpl; rewrite length_insert; done]]|].
    split.
    + intros k' c' r Hc' Hr. simpl in Hc'.
      destruct (insert_done_reactions _ _ _ _ _ _ Hc' Hr). eauto.
    + intros j [Hj|Hj]%elem_of_app; [auto|].
      apply elem_of_reaction_jobs in Hj as (r & -> & Hr). simpl.
      intros Hx. apply Hki. eapply Hn; eauto.
  - intros s v (_ & ((Hi & _) & _) & (Hi' & _) & _). done.
  - intros s k o (_ & ((_ & Ht & _) & _) & (_ & Ht' & _) & _) Hk. split; intros ->; done.
  - intros s (Hc & ((Hi & Ht & Hl) & Hd) & (Hi' & Ht' & Hl') & Hn & Ha).
    split; [simpl; apply lookup_app_l_Some; done|].
    assert (Hfresh : ∀ x, (x < length (heap s))%nat → Some x ∉ workerTasks s →
              Some x ∉ workerTasks s ++ [Some (length (heap s))]).
    { intros x Hx Hnot [Hin|Hin%list_elem_of_singleton]%elem_of_app; [done|].
      injection Hin as ->. lia. }
    split; [split; [split; [done|split; [auto|simpl; rewrite length_app; lia]]|done]|].
    split; [split; [done|split; [auto|simpl; rewrite length_app; lia]]|].
    split; [|done].
    intros k' c' r Hc' Hr. simpl in Hc'.
    apply app_cells_lookup in Hc' as [Hc'|[_ Hc']]; [eauto|].
    apply list_elem_of_singleton in Hc' as ->. inversion Hr.
  - intros s r (Hc & ((Hi & Ht & Hl) & Hd) & (Hi' & Ht' & Hl') & Hn & Ha) Hr _.
    destruct (attach_cases (initTask s) r s) as [->|[(o & rs & Hrs & ->)|(rs & Hrs & ->)]].
    + done.
    + split; [done|]. split; [done|]. split; [done|]. split; [done|].
      intros j [Hj|Hj%list_elem_of_singleton]%elem_of_app; [auto|].
      subst j. simpl. congruence.
    + split; [simpl; rewrite list_lookup_insert_ne; done|].
      split; [split; [split; [done|split; [done|simpl; rewrite length_insert; done]]|done]|].
      split; [split; [done|split; [done|simpl; rewrite length_insert; done]]|].
      split; [|done].
      intros k' c' r' Hc' Hr'. simpl in Hc'.
      destruct (insert_more_reactions _ _ _ _ _ _ _ Hrs Hc' Hr')
        as [->|(c'' & Hc'' & Hr'')]; [congruence|eauto].
  - intros s (Hc & ((Hi & Ht & Hl) & Hd) & (Hi' & Ht' & Hl') & Hn & Ha).
    split; [simpl; apply lookup_app_l_Some; done|].
    split; [split; [split; [done|split; [done|simpl; rewrite length_app; lia]]|]|].
    { simpl. intros [= <-]. lia. }
    split; [split; [done|split; [done|simpl; rewrite length_app; lia]]|].
    split; [|done].
    intros k' c' r Hc' Hr Hx. simpl in Hc'.
    apply app_cells_lookup in Hc' as [Hc'|[_ Hc']]; [eauto|].
    destruct (disposal_cells_derive _ _ _ _ Hc' Hr Hx); lia.
  - intros s c' (Hc & ((Hi & Ht & Hl) & Hd) & (Hi' & Ht' & Hl') & Hn & Ha).
    split; [done|].
    split; [split; [split; [done|split; [|done]]|done]|].
    { simpl. intros Hin%elem_of_delete_at. done. }
    split; [split; [done|split; [|done]]|done].
    simpl. intros Hin%elem_of_delete_at. done.
Qed.

(** *** A promise one queued job will settle *)

Lemma queued_stable (pf : Platform) (q : ref) (c : Promise) (j0 : Job) :
  stable pf (fun s => queued s q c j0) (fun _ k _ => k ≠ q).
Proof.
  constructor; try (intros; assumption).
  - intros s k o (Hc & ((Hi & Ht & Hl) & Hd) & Hn & q1 & q2 & Hq & Ha) Hk.
    destruct (settle_cases k o s) as [->|(rs & Hrs & ->)];
      [split; [done|split; [done|split; [done|eauto]]]|].
    split; [simpl; rewrite list_lookup_insert_ne; done|].
    split; [split; [split; [done|split; [done|simpl; rewrite length_insert; done]]|done]|].
    split.
    + intros k' c' r Hc' Hr. simpl in Hc'.
      destruct (insert_done_reactions _ _ _ _ _ _ Hc' Hr). eauto.
    + exists q1, (q2 ++ map (reaction_job o) rs). simpl. rewrite Hq.
      split; [rewrite <- app_assoc; reflexivity|].
      rewrite app_assoc. intros j [Hj|Hj]%elem_of_app; [auto|].
      apply elem_of_reaction_jobs in Hj as (r & -> & Hr). simpl. eapply Hn; eauto.
  - intros s v (_ & ((Hi & _) & _) & _). done.
  - intros s k o (_ & ((_ & Ht & _) & _) & _) Hk ->. done.
  - intros s (Hc & ((Hi & Ht & Hl) & Hd) & Hn & Hq).
    split; [simpl; apply lookup_app_l_Some; done|].
    split; [split; [split; [done|split; [|simpl; rewrite length_app; lia]]|done]|].
    { simpl. intros [Hin|Hin%list_elem_of_singleton]%elem_of_app; [done|].
      injection Hin as ->. lia. }
    split; [|done].
    intros k' c' r Hc' Hr. simpl in Hc'.
    apply app_cells_lookup in Hc' as [Hc'|[_ Hc']]; [eauto|].
    apply list_elem_of_singleton in Hc' as ->. inversion Hr.
  - intros s r (Hc & ((Hi & Ht & Hl) & Hd) & Hn & q1 & q2 & Hq & Ha) Hr _.
    destruct (attach_cases (initTask s) r s) as [->|[(o & rs & Hrs & ->)|(rs & Hrs & ->)]].
    + split; [done|split; [done|split; [done|eauto]]].
    + split; [done|]. split; [done|]. split; [done|].
      exists q1, (q2 ++ [reaction_job o r]). simpl. rewrite Hq.
      split; [rewrite <- app_assoc; reflexivity|].
      rewrite app_assoc. intros j [Hj|Hj%list_elem_of_singleton]%elem_of_app; [auto|].
      subst j. simpl. congruence.
    + split; [simpl; rewrite list_lookup_insert_ne; done|].
      split; [split; [split; [done|split; [done|simpl; rewrite length_insert; done]]|done]|].
      split; [|eauto].
      intros k' c' r' Hc' Hr'. simpl in Hc'.
      destruct (insert_more_reactions _ _ _ _ _ _ _ Hrs Hc' Hr')
        as [->|(c'' & Hc'' & Hr'')]; [congruence|eauto].
  - intros s (Hc & ((Hi & Ht & Hl) & Hd) & Hn & Hq).
    split; [simpl; apply lookup_app_l_Some; done|].
    split; [split; [split; [done|split; [done|simpl; rewrite length_app; lia]]|]|].
    { simpl. intros [= <-]. lia. }
    split; [|done].
    intros k' c' r Hc' Hr Hx. simpl in Hc'.
    apply app_cells_lookup in Hc' as [Hc'|[_ Hc']]; [eapply Hn; eauto|].
    destruct (disposal_cells_derive _ _ _ _ Hc' Hr Hx); lia.
  - intros s c' (Hc & ((Hi & Ht & Hl) & Hd) & Hn & Hq).
    split; [done|]. split; [|done]. split; [|done]. split; [done|]. split; [|done].
    simpl. intros Hin%elem_of_delete_at. done.
Qed.

(** *** What is done stays done *)

Lemma kill_done_stable (pf : Platform) :
  stable pf (kill_done pf) (fun _ _ _ => True).
Proof.
  constructor; try (intros; assumption); try done.
  - intros s [Hk Hd]. split; [|reflexivity]. simpl. apply elem_of_app. auto.
  - intros s [Hk Hd]. split; [exact Hk|reflexivity].
  - intros s k o [Hk Hd] _. destruct (settle_frame k o s) as (h & q & -> & _). done.
  - intros s r [Hk Hd] _ _.
    destruct (attach_cases (initTask s) r s) as [->|[(o & rs & _ & ->)|(rs & _ & ->)]];
      done.
Qed.

Lemma settled_stable (pf : Platform) (p : ref) (o : Settlement) :
  stable pf (fun s => outcome s p = Some (Some o)) (fun _ _ _ => True).
Proof.
  assert (Hins : ∀ (h : list Promise) k rs c,
            h !! k = Some {| settled := None; reactions := rs |} →
            settled <$> h !! p = Some (Some o) →
            settled <$> <[k := c]> h !! p = Some (Some o)).
  { intros h k rs c Hk Hp. destruct (decide (k = p)) as [->|Hne].
    - rewrite Hk in Hp. discriminate.
    - rewrite list_lookup_insert_ne by done. exact Hp. }
  assert (Happ : ∀ (h l : list Promise),
            settled <$> h !! p = Some (Some o) →
            settled <$> (h ++ l) !! p = Some (Some o)).
  { intros h l Hp. destruct (h !! p) as [c|] eqn:Hc; [|discriminate].
    rewrite (lookup_app_l_Some _ _ _ _ Hc). exact Hp. }
  constructor; try (intros; assumption); try done; unfold outcome.
  - intros s k o' Hp _. destruct (settle_cases k o' s) as [->|(rs & Hrs & ->)]; [done|].
    simpl. eapply Hins; eauto.
  - intros s Hp. simpl. apply Happ. exact Hp.
  - intros s r Hp _ _.
    destruct (attach_cases (initTask s) r s) as [->|[(o' & rs & _ & ->)|(rs & Hrs & ->)]];
      [done|done|].
    simpl. eapply Hins; eauto.
  - intros s Hp. simpl. apply Happ. exact Hp.
Qed.

Lemma completed_stable (pf : Platform) (p2 : ref) :
  stable pf (fun s => completed pf s p2) (fun _ _ _ => True ∧ True).
Proof. apply stable_and; [apply settled_stable|apply kill_done_stable]. Qed.

(** *** The store and the queue stay tidy *)

Lemma tidy_stable (pf : Platform) :
  stable pf tidy (fun s k o => (∃ v, o = Fulfilled v) ∨ Some k ∈ workerTasks s).
Proof.
  constructor.
  - intros s c m a [H1 H2 H3 H4 H5]. constructor; done.
  - intros s [H1 H2 H3 H4 H5] _. constructor; done.
  - intros s l t [H1 H2 H3 H4 H5]. constructor; done.
  - intros s [H1 H2 H3 H4 H5]. constructor; done.
  - intros s e [H1 H2 H3 H4 H5]. constructor; done.
  - intros s [H1 H2 H3 H4 H5]. constructor; done.
  - intros s [H1 H2 H3 H4 H5]. constructor; done.
  - intros s q [H1 H2 H3 H4 H5]. constructor; done.
  - intros s k o Hs Hk. pose proof Hs as [H1 H2 H3 H4 H5].
    destruct (settle_cases k o s) as [->|(rs & Hrs & ->)]; [done|].
    assert (Hnew : rs = [] ∨ ∃ v, o = Fulfilled v).
    { destruct Hk as [?|Hk]; [auto|]. left.
      destruct (H2 k Hk) as (_ & _ & c & Hc & Hr). rewrite Hrs in Hc.
      injection Hc as <-. exact Hr. }
    constructor; simpl; rewrite ?length_insert.
    + done.
    + intros r Hr. destruct (H2 r Hr) as (? & ? & ?).
      split; [done|]. split; [done|]. apply quiet_insert; done.
    + intros j [Hj|Hj]%elem_of_app; [auto|].
      apply elem_of_reaction_jobs in Hj as (r & -> & Hr). simpl. split.
      * destruct Hnew as [->|?]; [inversion Hr|done].
      * intros q Hq. eapply H4; eauto.
    + intros k' c r q Hc Hr.
      destruct (insert_done_reactions _ _ _ _ _ _ Hc Hr). eauto.
    + intros c o' Hc Ho'. destruct (decide (initTask s = k)) as [Heq|Hne].
      * rewrite Heq in Hc.
        rewrite list_lookup_insert_eq in Hc by (eapply lookup_lt_Some; eauto).
        injection Hc as <-. simpl in Ho'. injection Ho' as <-.
        destruct Hk as [?|Hk]; [done|]. destruct (H2 k Hk) as (_ & ? & _). done.
      * rewrite list_lookup_insert_ne in Hc by done. eauto.
  - intros s v _. eauto.
  - intros s k o _ Hk. auto.
  - intros s [H1 H2 H3 H4 H5]. constructor; simpl; rewrite ?length_app; simpl.
    + lia.
    + intros r [Hr|Hr%list_elem_of_singleton]%elem_of_app.
      * destruct (H2 r Hr) as (? & ? & ?). split; [lia|]. split; [done|].
        apply quiet_app. done.
      * injection Hr as ->. split; [lia|]. split; [lia|].
        exists pending. split; [apply list_lookup_middle|]; done.
    + intros j Hj. destruct (H3 j Hj) as [? Hq]. split; [done|].
      intros q Hq'. specialize (Hq q Hq'). lia.
    + intros k c r q Hc Hr Hq.
      apply app_cells_lookup in Hc as [Hc|[_ Hc]].
      * specialize (H4 _ _ _ _ Hc Hr Hq). lia.
      * apply list_elem_of_singleton in Hc as ->. inversion Hr.
    + intros c o Hc. apply H5.
      destruct (lookup_lt_is_Some_2 _ _ H1) as [c' Hc'].
      rewrite (lookup_app_l_Some _ _ _ _ Hc') in Hc. congruence.
  - intros s r Hs Hr _. pose proof Hs as [H1 H2 H3 H4 H5].
    destruct (attach_cases (initTask s) r s) as [->|[(o & rs & Hrs & ->)|(rs & Hrs & ->)]].
    + done.
    + constructor; simpl; try done.
      intros j [Hj|Hj%list_elem_of_singleton]%elem_of_app; [auto|].
      subst j. simpl. split; [|congruence]. eapply H5; eauto.
    + constructor; simpl; rewrite ?length_insert; try done.
      * intros r' Hr'. destruct (H2 r' Hr') as (? & ? & ?).
        split; [done|]. split; [done|]. apply quiet_insert_ne; done.
      * intros k' c' r' q Hc' Hr'.
        destruct (insert_more_reactions _ _ _ _ _ _ _ Hrs Hc' Hr')
          as [->|(c'' & Hc'' & Hr'')]; [congruence|eauto].
      * intros c o Hc Ho.
        rewrite list_lookup_insert_eq in Hc by (eapply lookup_lt_Some; eauto).
        injection Hc as <-. discriminate.
  - intros s [H1 H2 H3 H4 H5]. constructor; simpl; rewrite ?length_app; simpl.
    + lia.
    + intros r Hr. destruct (H2 r Hr) as (? & ? & ?). split; [lia|]. split; [done|].
      apply quiet_app. done.
    + intros j Hj. destruct (H3 j Hj) as [? Hq]. split; [done|].
      intros q Hq'. specialize (Hq q Hq'). lia.
    + intros k c r q Hc Hr Hq.
      apply app_cells_lookup in Hc as [Hc|[_ Hc]].
      * specialize (H4 _ _ _ _ Hc Hr Hq). lia.
      * destruct (disposal_cells_derive _ _ _ _ Hc Hr Hq); lia.
    + intros c o Hc. apply H5.
      destruct (lookup_lt_is_Some_2 _ _ H1) as [c' Hc'].
      rewrite (lookup_app_l_Some _ _ _ _ Hc') in Hc. congruence.
  - intros s c [H1 H2 H3 H4 H5]. constructor; simpl; try done.
    intros r Hr%elem_of_delete_at. auto.
Qed.

Lemma tidy_create rp lc pl wd cp : tidy (create rp lc pl wd cp).
Proof.
  constructor; simpl.
  - lia.
  - intros r Hr. inversion Hr.
  - intros j Hj. inversion Hj.
  - intros k c r q Hc Hr. destruct k; simpl in Hc; [|discriminate].
    injection Hc as <-. inversion Hr.
  - intros c o [= <-]. discriminate.
Qed.

Lemma tidy_handle (pf : Platform) (ev : Event) (s s' : Proxy) :
  tidy s → handle pf s ev = inr s' → tidy s'.
Proof.
  intros Hs Hev. apply (stable_handle pf _ _ (tidy_stable pf) ev s s' Hs Hev).
  - intros j q _ Hq. pose proof Hs as [H1 H2 H3 H4 H5]. split.
    + constructor; simpl; try done. intros j' Hj'. apply H3. rewrite Hq. right. done.
    + intros s1 x _ _. destruct (H3 j) as [[v Hv] _]; [rewrite Hq; left|].
      rewrite Hv. split; left; eauto.
  - intros t _ _. left. eauto.
Qed.

Lemma tidy_play (pf : Platform) (evs : list Event) :
  ∀ s s', tidy s → play pf s evs = inr s' → tidy s'.
Proof.
  induction evs as [|ev evs IH]; intros s s' Hs Hplay; simpl in Hplay.
  - injection Hplay as <-. done.
  - destruct (handle pf s ev) as [err|s1] eqn:Hev; [discriminate|].
    eapply IH; [|exact Hplay]. eapply tidy_handle; eauto.
Qed.

Lemma possible_tidy (pf : Platform) (s : Proxy) : possible pf s → tidy s.
Proof.
  intros (rp & lc & pl & wd & cp & evs & Hplay).
  eapply tidy_play; [apply tidy_create|exact Hplay].
Qed.

(** ** Kills are covered by the Dispose messages sent *)

Lemma kill_jobs_app (a b : list Job) : kill_jobs (a ++ b) = (kill_jobs a + kill_jobs b)%nat.
Proof. unfold kill_jobs. rewrite List.filter_app, length_app. reflexivity. Qed.

Lemma kill_jobs_fulfilled (v : Value) (rs : list Reaction) :
  kill_jobs (map (reaction_job (Fulfilled v)) rs) =
  kill_reactions_of {| settled := None; reactions := rs |}.
Proof.
  unfold kill_jobs, kill_reactions_of. simpl.
  induction rs as [|r rs IH]; simpl; [reflexivity|].
  destruct (is_kill (onFulfilled r)); simpl; rewrite IH; reflexivity.
Qed.

Lemma kill_reactions_insert (h : list Promise) (p : ref) (c c' : Promise) :
  h !! p = Some c →
  (kill_reactions (<[p := c']> h) + kill_reactions_of c =
   kill_reactions h + kill_reactions_of c')%nat.
Proof.
  unfold kill_reactions. revert p.
  induction h as [|x h IH]; intros [|p] Hp; simpl in *; try discriminate.
  - injection Hp as ->. lia.
  - specialize (IH p Hp). lia.
Qed.

Lemma kill_reactions_app (h l : list Promise) :
  kill_reactions (h ++ l) = (kill_reactions h + kill_reactions l)%nat.
Proof.
  unfold kill_reactions. induction h as [|x h IH]; simpl; [reflexivity|].
  rewrite IH. lia.
Qed.

Lemma unmoved_trans (s1 s2 s3 : Proxy) : unmoved s1 s2 → unmoved s2 s3 → unmoved s1 s3.
Proof.
  intros (A1 & A2 & A3 & A4 & A5 & A6) (B1 & B2 & B3 & B4 & B5 & B6).
  repeat split; congruence.
Qed.

Lemma measured_unmoved (pf : Platform) (s s' : Proxy) :
  measured pf s → unmoved s s' → measured pf s'.
Proof.
  intros [H1 H2 H3 H4 H5] (E1 & E2 & E3 & E4 & E5 & E6).
  unfold disposals in *. constructor; unfold disposals; rewrite ?E1, ?E2, ?E3, ?E4, ?E5, ?E6;
    done.
Qed.

Lemma settle_unmoved (k : ref) (o : Settlement) (s : Proxy) :
  (∃ v, o = Fulfilled v) ∨ quiet (heap s) k → unmoved s (settle k o s).
Proof.
  intros Hk. destruct (settle_cases k o s) as [->|(rs & Hrs & ->)]; [done|].
  repeat split. unfold pending_kills. simpl. rewrite kill_jobs_app.
  pose proof (kill_reactions_insert (heap s) k _ (done_with o) Hrs) as Hins.
  assert (Hjobs : kill_jobs (map (reaction_job o) rs) =
                  kill_reactions_of {| settled := None; reactions := rs |}).
  { destruct Hk as [[v ->]|(c & Hc & Hr)]; [apply kill_jobs_fulfilled|].
    rewrite Hrs in Hc. injection Hc as <-. simpl in Hr. subst rs. reflexivity. }
  rewrite Hjobs. change (kill_reactions_of (done_with o)) with 0%nat in Hins. lia.
Qed.

Lemma attach_unmoved (p : ref) (r : Reaction) (s : Proxy) :
  (∀ o, is_kill (handler (reaction_job o r)) = false) → unmoved s (attach p r s).
Proof.
  intros Hr.
  destruct (attach_cases p r s) as [->|[(o & rs & Hrs & ->)|(rs & Hrs & ->)]]; [done| |].
  - assert (H0 : kill_jobs [reaction_job o r] = 0%nat).
    { unfold kill_jobs. cbn [List.filter]. rewrite (Hr o). reflexivity. }
    repeat split. unfold pending_kills. simpl. rewrite kill_jobs_app, H0. lia.
  - repeat split. unfold pending_kills. simpl.
    pose proof (kill_reactions_insert (heap s) p _
                  {| settled := None; reactions := rs ++ [r] |} Hrs) as Hins.
    assert (H0 : kill_reactions_of {| settled := None; reactions := rs ++ [r] |} =
                 kill_reactions_of {| settled := None; reactions := rs |}).
    { unfold kill_reactions_of. cbn [reactions].
      rewrite List.filter_app, length_app. cbn [List.filter].
      specialize (Hr (Fulfilled undefined)). cbn in Hr. rewrite Hr. simpl. lia. }
    lia.
Qed.

Lemma reject_each_unmoved (pf : Platform) (e : JsError) (l : list ref) :
  ∀ s, tidy s → (∀ r, r ∈ l → Some r ∈ workerTasks s) →
  unmoved s (foldl (fun s task => Task_reject task e s) s l).
Proof.
  induction l as [|r l IH]; intros s Hs Hl; simpl; [done|].
  assert (Hr : Some r ∈ workerTasks s) by (apply Hl; left).
  eapply unmoved_trans.
  - apply (settle_unmoved r (Rejected e) s). right. apply (ti_tasks _ Hs r Hr).
  - apply IH.
    + apply (st_settle _ _ _ (tidy_stable pf)); auto.
    + intros r' Hr'. unfold Task_reject. rewrite workerTasks_settle.
      apply Hl. right. done.
Qed.

Lemma disposals_call (l : list WorkerMessage) (c : Z) (m : string) (a : list Value) :
  List.filter is_Dispose (l ++ [Call c m a]) = List.filter is_Dispose l.
Proof. rewrite List.filter_app. simpl. apply app_nil_r. Qed.

Lemma measured_create (pf : Platform) rp lc pl wd cp : measured pf (create rp lc pl wd cp).
Proof.
  constructor; simpl; try done.
  split; [discriminate|]. intros [[e He]|Hk]; [discriminate|done].
Qed.

Lemma measured_handle (pf : Platform) (ev : Event) (s s' : Proxy) :
  tidy s → measured pf s → handle pf s ev = inr s' → measured pf s'.
Proof.
  intros Ht Hm Hev.
  assert (Hkeep : ∀ s1, unmoved s s1 → measured pf s1)
    by (intros s1; apply measured_unmoved; exact Hm).
  assert (Htask : ∀ c t o, task_at (workerTasks s) c = Some t →
            measured pf (set_workerTasks (delete_at c (workerTasks (settle t o s)))
                           (settle t o s))).
  { intros c t o Hc. apply Hkeep.
    eapply unmoved_trans; [apply (settle_unmoved t o s)|done].
    right. apply (ti_tasks _ Ht). eapply task_at_elem; eauto. }
  destruct ev as [m a| | |e]; simpl in Hev.
  - injection Hev as <-. destruct (currentError s) as [e|] eqn:He.
    { rewrite (forward_crashed m a s e He). exact Hm. }
    rewrite forward_healthy by done. simpl. apply Hkeep.
    eapply unmoved_trans; [|apply attach_unmoved; intros [v|e]; reflexivity].
    repeat split. unfold pending_kills. simpl. rewrite kill_reactions_app.
    unfold kill_reactions at 2. simpl. unfold kill_reactions_of. simpl. lia.
  - injection Hev as <-. destruct Hm as [H1 H2 H3 H4 H5].
    destruct (isDisposed s) eqn:Hd.
    + rewrite dispose_disposed by done. constructor; simpl; try done.
      all: rewrite ?Hd; try done.
    + rewrite dispose_active by done. simpl.
      constructor; unfold disposals, pending_kills in *; simpl.
      * rewrite List.filter_app, length_app, kill_reactions_app. simpl.
        unfold kill_reactions at 2. simpl. unfold kill_reactions_of. simpl. lia.
      * discriminate.
      * intros He. destruct (H3 He). congruence.
      * rewrite Hd. done.
      * done.
  - injection Hev as <-. unfold tick.
    destruct (microtasks s) as [|j q] eqn:Hq; [exact Hm|].
    destruct (ti_jobs _ Ht j) as [[v Hv] _]; [rewrite Hq; left|].
    assert (Htarget : ∀ s1 o, (∃ v, o = Fulfilled v) →
              unmoved s1 (settle_target (target j) o s1)).
    { intros s1 o Ho. destruct (target j); simpl; [|done].
      apply settle_unmoved. auto. }
    destruct Hm as [H1 H2 H3 H4 H5]. unfold run_job.
    destruct (handler j) as [[c m a|]|] eqn:Hh.
    + eapply measured_unmoved; [|apply Htarget; eauto].
      constructor; unfold disposals, pending_kills in *; simpl;
        rewrite ?disposals_call; try done.
      rewrite Hq in H1. unfold kill_jobs in H1. simpl in H1. rewrite Hh in H1.
      exact H1.
    + eapply measured_unmoved; [|apply Htarget; eauto].
      constructor; unfold disposals, pending_kills in *; simpl; try done.
      * rewrite Hq in H1. unfold kill_jobs in H1. simpl in H1. rewrite Hh in H1.
        simpl in H1. rewrite length_app. simpl. unfold kill_jobs. lia.
      * intros He. split; [apply H3; done|done].
      * split; [|done]. intros _. right. destruct (killed s); done.
      * apply Forall_app. split; [done|]. constructor; done.
    + eapply measured_unmoved; [|apply Htarget; eauto].
      constructor; unfold disposals, pending_kills in *; simpl; try done.
      rewrite Hq in H1. unfold kill_jobs in H1. simpl in H1. rewrite Hh in H1.
      exact H1.
  - destruct e as [[|c v|c err| |kind]|chunk|code signal]; simpl in Hev.
    + injection Hev as <-. apply Hkeep, settle_unmoved. eauto.
    + destruct (task_at (workerTasks s) c) as [t|] eqn:Hc; [|discriminate].
      injection Hev as <-. apply Htask. done.
    + destruct (task_at (workerTasks s) c) as [t|] eqn:Hc; [|discriminate].
      injection Hev as <-. apply Htask. done.
    + destruct (disposeTask s) as [t|]; injection Hev as <-; [|done].
      apply Hkeep, settle_unmoved. eauto.
    + injection Hev as <-. apply Hkeep. done.
    + injection Hev as <-. apply Hkeep. unfold handleData.
      destruct (traceEnabled pf); done.
    + injection Hev as <-. destruct (exitListener s) eqn:Hex; [|done].
      unfold handleUnexpectedExit. cbv zeta.
      match goal with
      | |- measured _ (set_isDisposed true
                         (foldl (fun s task => Task_reject task ?e s) ?s1 ?l)) =>
          assert (Hun : unmoved s1 (foldl (fun s task => Task_reject task e s) s1 l));
          [|set (s2 := foldl (fun s task => Task_reject task e s) s1 l) in *;
            clearbody s2]
      end.
      { apply (reject_each_unmoved pf).
        - destruct Ht as [T1 T2 T3 T4 T5]. constructor; done.
        - intros r Hr. apply list_elem_of_In, filter_In in Hr as [Hr _].
          apply list_elem_of_In, elem_of_entries in Hr. exact Hr. }
      destruct Hun as (E1 & E2 & E3 & E4 & E5 & E6). simpl in E1, E2, E3, E4, E5.
      unfold pending_kills in E6. simpl in E6.
      destruct Hm as [H1 H2 H3 H4 H5]. specialize (H2 Hex).
      constructor; unfold disposals, pending_kills in *; simpl;
        rewrite ?E1, ?E2, ?E3, ?E4, ?E6; try done.
      split; [|done]. intros _. left. eauto.
Qed.

Lemma measured_play (pf : Platform) (evs : list Event) :
  ∀ s s', tidy s → measured pf s → play pf s evs = inr s' → measured pf s'.
Proof.
  induction evs as [|ev evs IH]; intros s s' Ht Hm Hplay; simpl in Hplay.
  - injection Hplay as <-. done.
  - destruct (handle pf s ev) as [err|s1] eqn:Hev; [discriminate|].
    eapply IH; [| |exact Hplay]; eauto using tidy_handle, measured_handle.
Qed.

Lemma possible_measured (pf : Platform) (s : Proxy) : possible pf s → measured pf s.
Proof.
  intros (rp & lc & pl & wd & cp & evs & Hplay).
  eapply measured_play; [apply tidy_create|apply measured_create|exact Hplay].
Qed.

(** ** A disposal under any scheduling *)

Lemma disposeTask_settle (k : ref) (o : Settlement) (s : Proxy) :
  disposeTask (settle k o s) = disposeTask s.
Proof. destruct (settle_frame k o s) as (h & q & -> & _). reflexivity. Qed.

Lemma disposeTask_reject_each (e : JsError) (l : list ref) :
  ∀ s, disposeTask (foldl (fun s task => Task_reject task e s) s l) = disposeTask s.
Proof.
  induction l as [|r l IH]; intros s; simpl; [reflexivity|].
  rewrite IH. apply disposeTask_settle.
Qed.

(** Only [dispose()] changes the dispose task. *)
Lemma disposeTask_handle (pf : Platform) (ev : Event) (s s' : Proxy) :
  handle pf s ev = inr s' → ev ≠ CallDispose → disposeTask s' = disposeTask s.
Proof.
  intros Hev Hne. destruct ev as [m a| | |e]; simpl in Hev; [|done| |].
  - injection Hev as <-. destruct (currentError s) as [e|] eqn:He.
    { rewrite (forward_crashed m a s e He). reflexivity. }
    rewrite forward_healthy by done. simpl.
    match goal with
    | |- disposeTask (attach ?p ?r ?s1) = _ =>
        destruct (attach_cases p r s1) as [->|[(o & rs & _ & ->)|(rs & _ & ->)]]
    end; reflexivity.
  - injection Hev as <-. unfold tick. destruct (microtasks s) as [|j q]; [reflexivity|].
    unfold run_job.
    destruct (handler j) as [[c m a|]|]; destruct (target j); simpl;
      rewrite ?disposeTask_settle; reflexivity.
  - destruct e as [[|c v|c err| |kind]|chunk|code signal]; simpl in Hev.
    + injection Hev as <-. apply disposeTask_settle.
    + destruct (task_at (workerTasks s) c); [|discriminate].
      injection Hev as <-. simpl. apply disposeTask_settle.
    + destruct (task_at (workerTasks s) c); [|discriminate].
      injection Hev as <-. simpl. apply disposeTask_settle.
    + destruct (disposeTask s) as [t|] eqn:Ht; injection Hev as <-; [|done].
      rewrite <- Ht. apply disposeTask_settle.
    + injection Hev as <-. reflexivity.
    + injection Hev as <-. unfold handleData. destruct (traceEnabled pf); reflexivity.
    + injection Hev as <-. destruct (exitListener s); [|reflexivity].
      unfold handleUnexpectedExit. cbv zeta. simpl.
      rewrite disposeTask_reject_each. reflexivity.
Qed.

Lemma disposeTask_play (pf : Platform) (evs : list Event) :
  ∀ s s', CallDispose ∉ evs → play pf s evs = inr s' → disposeTask s' = disposeTask s.
Proof.
  induction evs as [|ev evs IH]; intros s s' Hnot Hplay; simpl in Hplay.
  - injection Hplay as <-. done.
  - destruct (handle pf s ev) as [err|s1] eqn:Hev; [discriminate|].
    apply not_elem_of_cons in Hnot as [Hne Hnot].
    rewrite (IH s1 s' Hnot Hplay).
    eapply disposeTask_handle; eauto.
Qed.

Lemma awaiting_stable (pf : Platform) (t p1 p2 : ref) :
  stable pf (fun s => held s t (waits_then p1) ∧
                      (armed s t p1 (waits_catch p2) ∧ armed s p1 p2 pending))
    (fun _ k _ => k ≠ t ∧ ((k ≠ t ∧ k ≠ p1) ∧ (k ≠ p1 ∧ k ≠ p2))).
Proof.
  apply stable_and; [apply held_stable|].
  apply stable_and; apply armed_stable.
Qed.

(** While the dispose task is pending nothing of the disposal moves,
    whatever happens: only [DisposeCompleted], and only on the proxy
    whose dispose task it still is, settles it. *)
Lemma awaiting_handle (pf : Platform) (ev : Event) (s s' : Proxy) (t p1 p2 : ref) :
  awaiting s t p1 p2 → handle pf s ev = inr s' →
  (ev = Emit (message DisposeCompleted) → disposeTask s ≠ Some t) →
  awaiting s' t p1 p2.
Proof.
  intros Ha Hev Hdc. unfold awaiting in *.
  assert (Hsplit : ∀ s0, held s0 t (waits_then p1) ∧
                         (armed s0 t p1 (waits_catch p2) ∧ armed s0 p1 p2 pending) →
            held s0 t (waits_then p1) ∧ armed s0 t p1 (waits_catch p2) ∧
            armed s0 p1 p2 pending) by tauto.
  apply Hsplit.
  apply (stable_handle pf _ _ (awaiting_stable pf t p1 p2) ev s s'); [tauto|exact Hev| |].
  - intros j q _ Hq.
    destruct Ha as ((Ht & Hst & Hnt & Hat) & (H1 & Hp1 & Hs1 & Hn1 & Ha1) &
                    (H2 & Hp2 & Hs2 & Hn2 & Ha2)).
    assert (Hsub : ∀ x, unaimed x (microtasks s) → unaimed x q).
    { intros x Hx j' Hj'. apply Hx. rewrite Hq. right. done. }
    split.
    + split; [split; [done|split; [done|split; [done|simpl; auto]]]|].
      split; (split; [done|split; [done|split; [done|split; [done|simpl; auto]]]]).
    + intros s1 x _ Hx.
      assert (x ≠ t) by (intros ->; apply (Hat j); [rewrite Hq; left|done]).
      assert (x ≠ p1) by (intros ->; apply (Ha1 j); [rewrite Hq; left|done]).
      assert (x ≠ p2) by (intros ->; apply (Ha2 j); [rewrite Hq; left|done]).
      done.
  - intros t' He Ht'.
    destruct Ha as (_ & (_ & (_ & Hd1) & _) & (_ & (_ & Hd2) & _)).
    assert (t' ≠ t) by (intros ->; apply (Hdc He); done).
    assert (t' ≠ p1) by (intros ->; done).
    assert (t' ≠ p2) by (intros ->; done).
    done.
Qed.

Lemma awaiting_cells (s : Proxy) (t p1 p2 : ref) :
  awaiting s t p1 p2 →
  t ≠ p1 ∧ p1 ≠ p2 ∧ t ≠ p2 ∧ (t < length (heap s))%nat ∧ outcome s p2 = Some None.
Proof.
  intros ((Ht & (_ & _ & Hl) & _) & (H1 & _) & (H2 & _)).
  unfold outcome. rewrite H2.
  repeat split; try done; intros ->; rewrite Ht in *|| rewrite H1 in *; discriminate.
Qed.

(** [dispose()] on a handle that is not marked disposed starts a
    disposal of its own, on three new promises. *)
Lemma dispose_awaiting (s : Proxy) :
  tidy s → isDisposed s = false →
  awaiting (fst (dispose s)) (length (heap s)) (S (length (heap s)))
    (S (S (length (heap s)))) ∧
  disposeTask (fst (dispose s)) = Some (length (heap s)).
Proof.
  intros [T1 T2 T3 T4 T5] Hd. rewrite dispose_active by done. simpl.
  split; [|reflexivity].
  destruct (chain_fresh (heap s)) as (C0 & C1 & C2).
  set (n := length (heap s)) in *.
  assert (Hold : ∀ k c r x, (heap s ++ [waits_then (S n); waits_catch (S (S n)); pending])
                            !! k = Some c → r ∈ reactions c → derived r = Some x →
            (x < n)%nat ∨ (k = n ∧ x = S n) ∨ (k = S n ∧ x = S (S n))).
  { intros k c r x Hc Hr Hx. apply lookup_app_Some in Hc as [Hc|[Hle Hc]].
    - left. eapply T4; eauto.
    - right. fold n in Hle, Hc.
      destruct (k - n)%nat as [|[|[|?]]] eqn:Hk; simpl in Hc; try discriminate;
        injection Hc as <-; simpl in Hr.
      + apply list_elem_of_singleton in Hr as ->. simpl in Hx. left. split; [lia|congruence].
      + apply list_elem_of_singleton in Hr as ->. simpl in Hx.
        right. split; [lia|congruence].
      + inversion Hr. }
  assert (Hshield : ∀ x, (n ≤ x < n + 3)%nat →
            shielded (set_heap (heap s ++ [waits_then (S n); waits_catch (S (S n)); pending])
                        (set_sent (sent s ++ [Dispose])
                           (set_disposeTask (Some n) (set_exitListener false s)))) x).
  { intros x Hx. split; [simpl; lia|]. split; simpl.
    - intros Hin. destruct (T2 x Hin). lia.
    - rewrite length_app. simpl. lia. }
  assert (Haim : ∀ x, (n ≤ x)%nat → unaimed x (microtasks s)).
  { intros x Hx j Hj Hjx. destruct (T3 j Hj) as [_ Hq]. specialize (Hq x Hjx). lia. }
  split; [|split].
  - split; [exact C0|]. split; [apply Hshield; lia|]. split; [|apply Haim; lia].
    intros k c r Hc Hr Hx. simpl in Hc.
    destruct (Hold k c r n Hc Hr Hx) as [?|[[_ ?]|[_ ?]]]; lia.
  - split; [exact C1|]. split; [split; [apply Hshield; lia|simpl; intros [= ?]; lia]|].
    split; [apply Hshield; lia|]. split; [|apply Haim; lia].
    intros k c r Hc Hr Hx. simpl in Hc.
    destruct (Hold k c r (S n) Hc Hr Hx) as [?|[[? _]|[_ ?]]]; lia.
  - split; [exact C2|]. split; [split; [apply Hshield; lia|simpl; intros [= ?]; lia]|].
    split; [apply Hshield; lia|]. split; [|apply Haim; lia].
    intros k c r Hc Hr Hx. simpl in Hc.
    destruct (Hold k c r (S (S n)) Hc Hr Hx) as [?|[[_ ?]|[? _]]]; lia.
Qed.

(** Settling the dispose task queues the job of [.then(killWorker)]. *)
Lemma awaiting_settle (s : Proxy) (t p1 p2 : ref) (o : Settlement) :
  awaiting s t p1 p2 → then_queued (settle t o s) p1 p2 o.
Proof.
  intros Ha. destruct (awaiting_cells s t p1 p2 Ha) as (Ht1 & H12 & Ht2 & _).
  destruct Ha as ((Ht & Hst & Hnt & Hat) & (H1 & Hp1 & Hs1 & Hn1 & Ha1) &
                  (H2 & Hp2 & Hs2 & Hn2 & Ha2)).
  rewrite (settle_pending t o s _ Ht). simpl.
  assert (Hpriv : ∀ x, private s x →
            private (set_microtasks (microtasks s ++ [reaction_job o (then_kill p1)])
                       (set_heap (<[t := {| settled := Some o; reactions := [] |}]> (heap s))
                          s)) x).
  { intros x ((? & ? & ?) & ?). split; [|done]. split; [done|]. split; [done|].
    simpl. rewrite length_insert. done. }
  split.
  - split; [simpl; rewrite list_lookup_insert_ne; done|]. split; [auto|]. split.
    + intros k c r Hc Hr Hx. simpl in Hc.
      destruct (insert_done_reactions _ _ _ _ _ _ Hc Hr) as [Hne Hc'].
      apply Hne. eapply Hn1; eauto.
    + exists (microtasks s), []. split; [reflexivity|]. rewrite app_nil_r. exact Ha1.
  - split; [simpl; rewrite list_lookup_insert_ne; done|]. split; [auto|].
    split; [apply Hpriv; done|]. split.
    + intros k c r Hc Hr Hx. simpl in Hc.
      destruct (insert_done_reactions _ _ _ _ _ _ Hc Hr) as [Hne Hc']. eauto.
    + simpl. intros j [Hj|Hj%list_elem_of_singleton]%elem_of_app; [auto|].
      subst j. simpl. congruence.
Qed.

(** *** Once the dispose task is settled *)

Lemma then_queued_stable (pf : Platform) (p1 p2 : ref) (o : Settlement) :
  stable pf (fun s => queued s p1 (waits_catch p2) (reaction_job o (then_kill p1)) ∧
                      armed s p1 p2 pending)
    (fun _ k _ => k ≠ p1 ∧ (k ≠ p1 ∧ k ≠ p2)).
Proof. apply stable_and; [apply queued_stable|apply armed_stable]. Qed.

Lemma microtask_or_not (ev : Event) : ev = Microtask ∨ ev ≠ Microtask.
Proof. destruct ev; auto; right; discriminate. Qed.

Lemma unaimed_sub (x : ref) (l l' : list Job) :
  (∀ j, j ∈ l' → j ∈ l) → unaimed x l → unaimed x l'.
Proof. intros Hsub Hx j Hj. apply Hx, Hsub, Hj. Qed.

(** The job of [.then(killWorker)] kills the worker, unless the dispose
    task was rejected, and queues the job of [.catch(killWorker)]; every
    other event leaves it in the queue. *)
Lemma then_queued_handle (pf : Platform) (ev : Event) (s s' : Proxy) (p1 p2 : ref)
    (o : Settlement) :
  then_queued s p1 p2 o → handle pf s ev = inr s' → closing pf s' p1 p2.
Proof.
  intros Hs Hev. pose proof Hs as [(H1 & Hp1 & Hn1 & q1 & q2 & Hq & Ha1)
                                    (H2 & Hp2 & Hs1 & Hn2 & Ha2)].
  assert (Hdc : ∀ t, disposeTask s = Some t → t ≠ p1 ∧ t ≠ p1 ∧ t ≠ p2).
  { intros t Ht. destruct Hp1 as [_ Hd1]. destruct Hp2 as [_ Hd2].
    repeat split; intros ->; done. }
  destruct (microtask_or_not ev) as [->|Hne].
  2:{ left. exists o.
      apply (stable_handle pf _ _ (then_queued_stable pf p1 p2 o) ev s s' Hs Hev).
      - intros j q ->. done.
      - intros t _ Ht. apply Hdc. done. }
  simpl in Hev. injection Hev as <-. unfold tick. rewrite Hq.
  destruct q1 as [|j q1]; simpl.
  - assert (H12 : p1 ≠ p2) by (intros ->; rewrite H1 in H2; discriminate).
    assert (Haim2 : unaimed p2 q2).
    { eapply unaimed_sub; [|exact Ha2]. intros j Hj. rewrite Hq. right. done. }
    assert (Hfin : ∀ s0 o',
              heap s0 = heap s → microtasks s0 = q2 → workerTasks s0 = workerTasks s →
              initTask s0 = initTask s → disposeTask s0 = disposeTask s →
              queued (settle p1 o' s0) p2 pending (reaction_job o' (catch_kill p2))).
    { intros s0 o' E1 E2 E3 E4 E5.
      rewrite (settle_pending p1 o' s0 [catch_kill p2]) by (rewrite E1; exact H1).
      destruct Hp2 as ((? & ? & ?) & ?).
      unfold queued, private, shielded, unnamed. simpl.
      rewrite E1, E2, E3, E4, E5, length_insert.
      split; [rewrite list_lookup_insert_ne; done|]. split; [done|]. split.
      - intros k c r Hc Hr Hx.
        destruct (insert_done_reactions _ _ _ _ _ _ Hc Hr) as [Hk Hc'].
        apply Hk. eapply Hn2; eauto.
      - exists q2, []. rewrite app_nil_r. done. }
    right. left. destruct o as [v|e]; unfold run_job; simpl.
    + exists (Fulfilled undefined). split; [apply Hfin; reflexivity|].
      split; [reflexivity|].
      destruct (settle_frame p1 (Fulfilled undefined)
                  (killWorker pf (set_microtasks q2 s))) as (h & q & -> & _).
      split; [simpl; apply elem_of_app; right; left|reflexivity].
    + exists (Rejected e). split; [apply Hfin; reflexivity|done].
  - left. exists o.
    assert (Hj : j ∈ (j :: q1) ++ q2 ∧ j ∈ microtasks s).
    { rewrite Hq. split; left. }
    destruct Hj as [Hj Hj'].
    apply (stable_run_job pf _ _ (then_queued_stable pf p1 p2 o)).
    + split.
      * split; [done|]. split; [done|]. split; [done|].
        exists q1, q2. split; [reflexivity|].
        eapply unaimed_sub; [|exact Ha1].
        intros j'. rewrite !elem_of_app, elem_of_cons. tauto.
      * split; [done|]. split; [done|]. split; [done|]. split; [done|].
        simpl. eapply unaimed_sub; [|exact Ha2].
        intros j' Hin. rewrite Hq. right. done.
    + intros s1 x _ Hx.
      assert (x ≠ p1) by (intros ->; apply (Ha1 j); done).
      assert (x ≠ p2) by (intros ->; apply (Ha2 j); done).
      done.
Qed.

(** The job of [.catch(killWorker)] kills the worker if the dispose task
    was rejected and fulfils the promise [dispose()] returned. *)
Lemma catch_queued_handle (pf : Platform) (ev : Event) (s s' : Proxy) (p2 : ref)
    (o : Settlement) :
  catch_queued pf s p2 o → handle pf s ev = inr s' →
  (∃ o', catch_queued pf s' p2 o') ∨ completed pf s' p2.
Proof.
  intros [Hs Hflag] Hev.
  pose proof Hs as (H2 & Hp2 & Hn2 & q1 & q2 & Hq & Ha2).
  assert (Hkeep : ∀ s0, queued s0 p2 pending (reaction_job o (catch_kill p2)) →
            (kill_done pf s → kill_done pf s0) → catch_queued pf s0 p2 o).
  { intros s0 Hs0 Hst. split; [exact Hs0|]. destruct o as [v|e]; [|done].
    destruct Hflag as [-> Hk]. split; [done|]. apply Hst. exact Hk. }
  destruct (microtask_or_not ev) as [->|Hne].
  2:{ left. exists o. apply Hkeep.
      - apply (stable_handle pf _ _ (queued_stable pf p2 pending _) ev s s' Hs Hev).
        + intros j q ->. done.
        + intros t _ Ht ->. destruct Hp2 as [_ Hd]. done.
      - intros Hk. apply (stable_handle pf _ _ (kill_done_stable pf) ev s s' Hk Hev).
        + intros j q ->. done.
        + done. }
  simpl in Hev. injection Hev as <-. unfold tick. rewrite Hq.
  destruct q1 as [|j q1]; simpl.
  - right. destruct o as [v|e]; unfold run_job; simpl.
    + destruct Hflag as [-> Hk].
      rewrite (settle_pending p2 _ _ []) by exact H2. split.
      * unfold outcome. simpl. rewrite list_lookup_insert_eq; [done|].
        destruct Hp2 as ((_ & _ & ?) & _). done.
      * exact Hk.
    + rewrite (settle_pending p2 _ _ []) by exact H2. split.
      * unfold outcome. simpl. rewrite list_lookup_insert_eq; [done|].
        destruct Hp2 as ((_ & _ & ?) & _). done.
      * split; [simpl; apply elem_of_app; right; left|reflexivity].
  - left. exists o.
    assert (Hj : j ∈ (j :: q1) ++ q2) by left.
    assert (Hpop : queued (set_microtasks (q1 ++ reaction_job o (catch_kill p2) :: q2) s)
                     p2 pending (reaction_job o (catch_kill p2))).
    { split; [done|]. split; [done|]. split; [done|].
      exists q1, q2. split; [reflexivity|].
      eapply unaimed_sub; [|exact Ha2].
      intros j'. rewrite !elem_of_app, elem_of_cons. tauto. }
    apply Hkeep.
    + apply (stable_run_job pf _ _ (queued_stable pf p2 pending _)); [exact Hpop|].
      intros s1 x _ Hx.
      assert (x ≠ p2) by (intros ->; apply (Ha2 j); done). done.
    + intros Hk. apply (stable_run_job pf _ _ (kill_done_stable pf)); done.
Qed.

Lemma completed_handle (pf : Platform) (ev : Event) (s s' : Proxy) (p2 : ref) :
  completed pf s p2 → handle pf s ev = inr s' → completed pf s' p2.
Proof.
  intros Hs Hev.
  apply (stable_handle pf _ _ (completed_stable pf p2) ev s s' Hs Hev); done.
Qed.

(** Once the dispose task is settled the disposal goes on to its end,
    whatever else happens. *)
Lemma closing_handle (pf : Platform) (ev : Event) (s s' : Proxy) (p1 p2 : ref) :
  closing pf s p1 p2 → handle pf s ev = inr s' → closing pf s' p1 p2.
Proof.
  intros [[o Hs]|[[o Hs]|Hs]] Hev.
  - eapply then_queued_handle; eauto.
  - right. eapply catch_queued_handle; eauto.
  - right. right. eapply completed_handle; eauto.
Qed.

Lemma closing_play (pf : Platform) (evs : list Event) (p1 p2 : ref) :
  ∀ s s', closing pf s p1 p2 → play pf s evs = inr s' → closing pf s' p1 p2.
Proof.
  induction evs as [|ev evs IH]; intros s s' Hs Hplay; simpl in Hplay.
  - injection Hplay as <-. done.
  - destruct (handle pf s ev) as [err|s1] eqn:Hev; [discriminate|].
    eapply IH; [|exact Hplay]. eapply closing_handle; eauto.
Qed.

(** When the microtasks have run, it has reached its end. *)
Lemma closing_drained (pf : Platform) (s : Proxy) (p1 p2 : ref) :
  closing pf s p1 p2 → completed pf (drain pf s) p2.
Proof.
  intros Hs.
  assert (Hc : closing pf (drain pf s) p1 p2).
  { apply (drain_ind pf (fun s0 => closing pf s0 p1 p2)); [|exact Hs].
    intros s0 Hs0. apply (closing_handle pf Microtask s0); done. }
  pose proof (drain_empties pf s) as Hq.
  destruct Hc as [[o (( _ & _ & _ & q1 & q2 & Hq' & _) & _)]|
                  [[o (( _ & _ & _ & q1 & q2 & Hq' & _) & _)]|Hc]]; [| |exact Hc];
    rewrite Hq in Hq'; destruct q1; discriminate.
Qed.

Lemma closing_outcome (pf : Platform) (s : Proxy) (p1 p2 : ref) :
  closing pf s p1 p2 →
  outcome s p2 = Some None ∨ outcome s p2 = Some (Some (Fulfilled undefined)).
Proof.
  unfold outcome.
  intros [[o (_ & (H2 & _))]|[[o ((H2 & _) & _)]|[H2 _]]]; rewrite ?H2; auto.
Qed.

Lemma awaiting_next (pf : Platform) (ev : Event) (s s' : Proxy) (t p1 p2 : ref) :
  awaiting s t p1 p2 → handle pf s ev = inr s' →
  awaiting s' t p1 p2 ∨
  (ev = Emit (message DisposeCompleted) ∧ disposeTask s = Some t ∧
   s' = settle t (Fulfilled undefined) s).
Proof.
  intros Ha Hev. destruct (disposeTask s) as [t'|] eqn:Ht.
  2:{ left. eapply awaiting_handle; eauto. rewrite Ht. done. }
  destruct (decide (t' = t)) as [->|Hne].
  2:{ left. eapply awaiting_handle; eauto. rewrite Ht. congruence. }
  destruct ev as [m a| | |[[|c v|c err| |kind]|chunk|code signal]];
    try (left; eapply awaiting_handle; eauto; discriminate).
  right. simpl in Hev. rewrite Ht in Hev. injection Hev as <-. done.
Qed.

Lemma on_course_handle (pf : Platform) (ev : Event) (s s' : Proxy) (t p1 p2 : ref) :
  on_course pf s t p1 p2 → handle pf s ev = inr s' → on_course pf s' t p1 p2.
Proof.
  intros [Ha|Hc] Hev.
  - destruct (awaiting_next pf ev s s' t p1 p2 Ha Hev) as [?|(_ & _ & ->)]; [left; done|].
    right. left. eexists. apply awaiting_settle. exact Ha.
  - right. eapply closing_handle; eauto.
Qed.

Lemma on_course_play (pf : Platform) (evs : list Event) (t p1 p2 : ref) :
  ∀ s s', on_course pf s t p1 p2 → play pf s evs = inr s' → on_course pf s' t p1 p2.
Proof.
  induction evs as [|ev evs IH]; intros s s' Hs Hplay; simpl in Hplay.
  - injection Hplay as <-. done.
  - destruct (handle pf s ev) as [err|s1] eqn:Hev; [discriminate|].
    eapply IH; [|exact Hplay]. eapply on_course_handle; eauto.
Qed.

(** The promise [dispose()] returned is pending or fulfilled, never
    rejected. *)
Lemma on_course_outcome (pf : Platform) (s : Proxy) (t p1 p2 : ref) :
  on_course pf s t p1 p2 →
  outcome s p2 = Some None ∨ outcome s p2 = Some (Some (Fulfilled undefined)).
Proof.
  intros [Ha|Hc]; [|eapply closing_outcome; eauto].
  left. apply (awaiting_cells s t p1 p2 Ha).
Qed.

Lemma awaiting_play (pf : Platform) (evs : list Event) (t p1 p2 : ref) :
  ∀ s s', awaiting s t p1 p2 → Emit (message DisposeCompleted) ∉ evs →
  play pf s evs = inr s' → awaiting s' t p1 p2.
Proof.
  induction evs as [|ev evs IH]; intros s s' Hs Hnot Hplay; simpl in Hplay.
  - injection Hplay as <-. done.
  - destruct (handle pf s ev) as [err|s1] eqn:Hev; [discriminate|].
    apply not_elem_of_cons in Hnot as [Hne Hnot].
    eapply IH; [|exact Hnot|exact Hplay].
    eapply awaiting_handle; [exact Hs|exact Hev|]. intros ->. done.
Qed.

(** A disposal whose task is no longer the dispose task of the proxy
    never moves again. *)
Lemma overtaken_handle (pf : Platform) (ev : Event) (s s' : Proxy) (t p1 p2 : ref) :
  awaiting s t p1 p2 → disposeTask s ≠ Some t → handle pf s ev = inr s' →
  awaiting s' t p1 p2 ∧ disposeTask s' ≠ Some t.
Proof.
  intros Ha Hd Hev. split; [eapply awaiting_handle; eauto|].
  destruct (awaiting_cells s t p1 p2 Ha) as (_ & _ & _ & Hlt & _).
  destruct ev as [m a| | |e];
    try (rewrite (disposeTask_handle pf _ s s' Hev); [exact Hd|discriminate]).
  simpl in Hev. injection Hev as <-. destruct (isDisposed s) eqn:Hdi.
  - rewrite dispose_disposed by done. exact Hd.
  - rewrite dispose_active by done. simpl. intros [= <-]. lia.
Qed.

Lemma overtaken_play (pf : Platform) (evs : list Event) (t p1 p2 : ref) :
  ∀ s s', awaiting s t p1 p2 → disposeTask s ≠ Some t → play pf s evs = inr s' →
  awaiting s' t p1 p2.
Proof.
  induction evs as [|ev evs IH]; intros s s' Hs Hd Hplay; simpl in Hplay.
  - injection Hplay as <-. done.
  - destruct (handle pf s ev) as [err|s1] eqn:Hev; [discriminate|].
    destruct (overtaken_handle pf ev s s1 t p1 p2 Hs Hd Hev).
    eapply IH; eauto.
Qed.

(** *** Once the handle is marked disposed *)



(** *** A disposal from [dispose()] to its end *)

Lemma acknowledged_closing (pf : Platform) (s s' : Proxy) (t p1 p2 : ref) :
  on_course pf s t p1 p2 → disposeTask s = Some t →
  handle pf s (Emit (message DisposeCompleted)) = inr s' → closing pf s' p1 p2.
Proof.
  intros [Ha|Hc] Hd Hev; [|eapply closing_handle; eauto].
  simpl in Hev. rewrite Hd in Hev. injection Hev as <-.
  left. eexists. apply awaiting_settle. exact Ha.
Qed.

Lemma latest_play (pf : Platform) (evs : list Event) (t p1 p2 : ref) :
  ∀ s s', on_course pf s t p1 p2 → disposeTask s = Some t → CallDispose ∉ evs →
  play pf s evs = inr s' → on_course pf s' t p1 p2 ∧ disposeTask s' = Some t.
Proof.
  induction evs as [|ev evs IH]; intros s s' Hs Hd Hnot Hplay; simpl in Hplay.
  - injection Hplay as <-. done.
  - destruct (handle pf s ev) as [err|s1] eqn:Hev; [discriminate|].
    apply not_elem_of_cons in Hnot as [Hne Hnot].
    eapply IH; [| |exact Hnot|exact Hplay].
    + eapply on_course_handle; eauto.
    + rewrite (disposeTask_handle pf ev s s1 Hev); [exact Hd|]. intros ->. done.
Qed.

(** A disposal that is acknowledged while its task is still the dispose
    task of the proxy has run to its end once the microtasks have run,
    whatever happens after the acknowledgement. *)
Lemma disposal_completes (pf : Platform) (evs1 evs2 : list Event) (s s' : Proxy)
    (t p1 p2 : ref) :
  on_course pf s t p1 p2 → disposeTask s = Some t → CallDispose ∉ evs1 →
  play pf s (evs1 ++ Emit (message DisposeCompleted) :: evs2) = inr s' →
  completed pf (drain pf s') p2.
Proof.
  intros Hs Hd Hnot Hplay. rewrite play_app in Hplay.
  destruct (play pf s evs1) as [err|s1] eqn:H1; [discriminate|].
  destruct (latest_play pf evs1 t p1 p2 s s1 Hs Hd Hnot H1) as [Hs1 Hd1].
  change (play pf s1 (Emit (message DisposeCompleted) :: evs2))
    with (match handle pf s1 (Emit (message DisposeCompleted)) with
          | inr s2 => play pf s2 evs2
          | inl err => inl err
          end) in Hplay.
  destruct (handle pf s1 (Emit (message DisposeCompleted))) as [err|s2] eqn:H2;
    [discriminate|].
  apply (closing_drained pf s' p1 p2).
  eapply closing_play; [|exact Hplay].
  eapply acknowledged_closing; eauto.
Qed.

(** So has a disposal whose task is settled, with whatever outcome. *)
Lemma settled_disposal_completes (pf : Platform) (evs : list Event) (s s' : Proxy)
    (t p1 p2 : ref) (o : Settlement) :
  awaiting s t p1 p2 → play pf (settle t o s) evs = inr s' →
  completed pf (drain pf s') p2.
Proof.
  intros Hs Hplay. apply (closing_drained pf s' p1 p2).
  eapply closing_play; [|exact Hplay].
  left. exists o. apply awaiting_settle. exact Hs.
Qed.

(** A disposal that another [dispose()] overtakes before it is
    acknowledged stays where it is. *)
Lemma overtaken_stays (pf : Platform) (evs : list Event) (s s' : Proxy) (t p1 p2 : ref) :
  awaiting s t p1 p2 → isDisposed s = false →
  play pf (fst (dispose s)) evs = inr s' → awaiting s' t p1 p2.
Proof.
  intros Hs Hd Hplay.
  destruct (awaiting_cells s t p1 p2 Hs) as (_ & _ & _ & Hlt & _).
  eapply overtaken_play; [| |exact Hplay].
  - apply (awaiting_handle pf CallDispose s); [exact Hs|reflexivity|discriminate].
  - rewrite dispose_active by done. simpl. intros [= <-]. lia.
Qed.

(** *** The ways a handle gets marked disposed *)



(** C5, as the code has it.  [dispose()] never rejects.  On a handle
    that is marked disposed it returns a promise that is fulfilled
    already.  Otherwise it removes the exit listener, sends Dispose and
    returns a promise that stays pending for as long as no
    DisposeCompleted arrives, whatever else happens.  When a
    DisposeCompleted arrives before [dispose()] is called again, then,
    whatever happens afterwards, once the microtasks have run the worker
    has been killed by its process id, the handle is marked disposed and
    the promise is fulfilled; and so it is however the dispose task is
    settled, fulfilled or rejected.  A [dispose()] that is called again
    before DisposeCompleted has arrived takes the dispose task over, and
    the promise of the earlier call stays pending for good. *)
Theorem dispose_completes_when_acknowledged (pf : Platform) (s : Proxy) :
  possible pf s →
  (isDisposed s = true →
   dispose s = (set_exitListener false s, Settled (Fulfilled undefined))) ∧
  (isDisposed s = false →
   ∃ t p2,
     snd (dispose s) = Stored p2 ∧
     disposeTask (fst (dispose s)) = Some t ∧
     sent (fst (dispose s)) = sent s ++ [Dispose] ∧
     exitListener (fst (dispose s)) = false ∧
     (∀ evs s2,
        Emit (message DisposeCompleted) ∉ evs →
        play pf (fst (dispose s)) evs = inr s2 →
        outcome s2 p2 = Some None ∧
        (∀ o evs' s3,
           play pf (settle t o s2) evs' = inr s3 →
           outcome (drain pf s3) p2 = Some (Some (Fulfilled undefined)) ∧
           pid pf ∈ killed (drain pf s3) ∧ isDisposed (drain pf s3) = true ∧
           microtasks (drain pf s3) = []) ∧
        (isDisposed s2 = false →
         ∀ evs' s3, play pf (fst (dispose s2)) evs' = inr s3 →
                    outcome s3 p2 = Some None)) ∧
     (∀ evs1 evs2 s2,
        CallDispose ∉ evs1 →
        play pf (fst (dispose s)) (evs1 ++ Emit (message DisposeCompleted) :: evs2)
          = inr s2 →
        outcome (drain pf s2) p2 = Some (Some (Fulfilled undefined)) ∧
        pid pf ∈ killed (drain pf s2) ∧ isDisposed (drain pf s2) = true ∧
        microtasks (drain pf s2) = [])) ∧
  (∀ p evs s2 e, snd (dispose s) = Stored p →
     play pf (fst (dispose s)) evs = inr s2 →
     outcome s2 p ≠ Some (Some (Rejected e))).
Proof.
  intros Hp. pose proof (possible_tidy pf s Hp) as Ht.
  split; [apply dispose_disposed|]. split.
  - intros Hd. destruct (dispose_awaiting s Ht Hd) as [Ha Hdt].
    exists (length (heap s)), (S (S (length (heap s)))).
    split; [rewrite dispose_active by done; reflexivity|].
    split; [exact Hdt|].
    split; [rewrite dispose_active by done; reflexivity|].
    split; [rewrite dispose_active by done; reflexivity|].
    split.
    + intros evs s2 Hnot Hplay.
      pose proof (awaiting_play pf evs _ _ _ _ s2 Ha Hnot Hplay) as Ha2.
      split; [apply (awaiting_cells _ _ _ _ Ha2)|]. split.
      * intros o evs' s3 Hplay'.
        destruct (settled_disposal_completes pf evs' s2 s3 _ _ _ o Ha2 Hplay')
          as (Ho & Hk & Hdi).
        repeat split; try done. apply drain_empties.
      * intros Hd2 evs' s3 Hplay'.
        apply (awaiting_cells s3 (length (heap s)) (S (length (heap s)))).
        eapply overtaken_stays; eauto.
    + intros evs1 evs2 s2 Hnot Hplay.
      destruct (disposal_completes pf evs1 evs2 _ s2 _ _ _ (or_introl Ha) Hdt Hnot Hplay)
        as (Ho & Hk & Hdi).
      repeat split; try done. apply drain_empties.
  - intros p evs s2 e Hret Hplay.
    destruct (isDisposed s) eqn:Hd.
    { rewrite dispose_disposed in Hret by done. discriminate. }
    destruct (dispose_awaiting s Ht Hd) as [Ha _].
    assert (Hpp : p = S (S (length (heap s)))).
    { rewrite dispose_active in Hret by done. simpl in Hret. congruence. }
    subst p.
    pose proof (on_course_play pf evs _ _ _ _ s2 (or_introl Ha) Hplay) as Hc.
    destruct (on_course_outcome pf s2 _ _ _ Hc) as [-> | ->]; discriminate.
Qed.

Lemma dispose_completes_when_acknowledged_witness :
  outcome (drain linux (reached linux (fst (dispose fresh))
                          [Invoke "run" []; Emit (message DisposeCompleted); CallDispose]))
    3%nat = Some (Some (Fulfilled undefined)) ∧
  4242 ∈ killed (drain linux (reached linux (fst (dispose fresh))
                    [Invoke "run" []; Emit (message DisposeCompleted); CallDispose])).
Proof.
  destruct (dispose_completes_when_acknowledged linux fresh)
    as (_ & Hactive & _).
  { exists "./JestTestRunner", undefined, ["stryker-jest-runner"], "/tmp/project",
      [data "{}"], []. reflexivity. }
  destruct (Hactive eq_refl) as (t & p2 & Hret & _ & _ & _ & _ & Hack).
  injection Hret as <-.
  destruct (Hack [Invoke "run" []] [CallDispose]
              (reached linux (fst (dispose fresh))
                 [Invoke "run" []; Emit (message DisposeCompleted); CallDispose]))
    as (Ho & Hk & _).
  - rewrite not_elem_of_cons. split; [discriminate | apply not_elem_of_nil].
  - vm_compute. reflexivity.
  - split; [exact Ho|exact Hk].
Defined.

(** C5 as stated fails: [dispose()] does not always complete.  After
    [dispose()] on a new proxy the worker exits without having sent
    DisposeCompleted; the exit listener is gone, nothing is left to run,
    and the promise [dispose()] returned is pending, the worker is not
    killed and the handle is not marked disposed.  The promise stays
    pending whatever happens next, short of a DisposeCompleted, which a
    worker that has exited does not send. *)
Lemma dispose_hangs_unacknowledged :
  snd (dispose fresh) = Stored 3%nat ∧
  run linux fresh unacknowledged = inr (final linux fresh unacknowledged) ∧
  play linux fresh unacknowledged = inr (final linux fresh unacknowledged) ∧
  outcome (final linux fresh unacknowledged) 3%nat = Some None ∧
  microtasks (final linux fresh unacknowledged) = [] ∧
  killed (final linux fresh unacknowledged) = [] ∧
  isDisposed (final linux fresh unacknowledged) = false ∧
  (∀ evs s2,
     Emit (message DisposeCompleted) ∉ evs →
     play linux (final linux fresh unacknowledged) evs = inr s2 →
     outcome s2 3%nat = Some None).
Proof.
  do 7 (split; [vm_compute; reflexivity|]).
  intros evs s2 Hnot Hplay.
  destruct (dispose_awaiting fresh) as [Ha _]; [apply tidy_create|reflexivity|].
  assert (Hp : play linux (fst (dispose fresh))
                 [Emit (exit (Some 0) None); Emit (stdio "bye"); Microtask]
               = inr (final linux fresh unacknowledged)) by (vm_compute; reflexivity).
  apply (awaiting_play linux _ _ _ _ _ _ Ha) in Hp.
  2:{ rewrite !not_elem_of_cons. repeat split; try discriminate. apply not_elem_of_nil. }
  apply (awaiting_cells s2 1 2).
  eapply awaiting_play; eauto.
Qed.




(** X15.  A proxy is marked disposed exactly when its worker has crashed
    or it has killed its worker, and the two exclude each other: a proxy
    that cached a crash never kills, and a proxy that killed its worker
    never caches a crash and has no exit listener.  Every kill is one of
    the worker's process id, and there are never more kills than Dispose
    messages sent. *)
Theorem disposed_means_crashed_or_killed (pf : Platform) rp lc pl wd cp
    (evs : list Event) (s : Proxy) :
  play pf (create rp lc pl wd cp) evs = inr s →
  (isDisposed s = true ↔ is_Some (currentError s) ∨ killed s ≠ []) ∧
  (is_Some (currentError s) → killed s = []) ∧
  (killed s ≠ [] → currentError s = None ∧ exitListener s = false) ∧
  Forall (fun p => p = pid pf) (killed s) ∧
  (length (killed s) ≤ length (List.filter is_Dispose (sent s)))%nat.
Proof.
  intros Hplay.
  assert (Hp : possible pf s) by (exists rp, lc, pl, wd, cp, evs; exact Hplay).
  destruct (possible_measured pf s Hp) as [H1 H2 H3 H4 H5]. unfold disposals in *.
  split; [exact H4|]. split; [|split; [|split; [exact H5|lia]]].
  - intros He. destruct (H3 He) as [H0 _]. destruct (killed s); [done|simpl in H1; lia].
  - intros Hk. assert (Hpos : (0 < length (killed s))%nat).
    { destruct (killed s); [done|simpl; lia]. }
    split.
    + destruct (currentError s) as [e|] eqn:He; [|done].
      destruct H3 as [H0 _]; [eauto|]. lia.
    + destruct (exitListener s) eqn:Hex; [|done]. specialize (H2 eq_refl). lia.
Qed.

Lemma disposed_means_crashed_or_killed_witness :
  isDisposed (reached linux fresh back_to_back) = true ∧
  currentError (reached linux fresh back_to_back) = None.
Proof.
  destruct (disposed_means_crashed_or_killed linux "./JestTestRunner" undefined
              ["stryker-jest-runner"] "/tmp/project" [data "{}"] back_to_back
              (reached linux fresh back_to_back)) as (Hiff & _ & Hkilled & _).
  - vm_compute. reflexivity.
  - split.
    + apply Hiff. right. vm_compute. discriminate.
    + apply Hkilled. vm_compute. discriminate.
Defined.
